(** * CyberScanX port scanner: scanning core and rule-based risk analyzer

    A shallow embedding of
    - [server/services/aiEngine.ts]  (module [AIEngine]),
    - [server/utils/portQueue.ts]    (modules [Probe] and [PortQueue]),
    - [server/services/scanner.ts]   (modules [Regex], [Target], [Regex16],
      [Target16], [Scanner]),
    with the properties of the design document stated over it.

    Conventions.  A JavaScript [number] that the code only uses as an
    integer is a [Z]; counters that index arrays are [nat].  A JavaScript
    string is a list of code units, each given by its number, in module
    [Target16]; modules [Target] and [Scanner] carry the strings whose
    code units are below 256 as [string]s, and the two agree there.  Plain objects used as tables are [gmap]s; the module-level
    [Map] of abort controllers is a [gmap string _]. *)

From Stdlib Require Import ZArith Lia Bool List String Ascii.
From stdpp Require Import base option list gmap strings pretty sorting.

Local Open Scope string_scope.
Local Open Scope list_scope.
Local Open Scope stdpp_scope.
Local Open Scope Z_scope.

(** Template literals [`${n}`] print an integer in decimal. *)
Definition show (n : Z) : string := pretty n.

(* ===================================================================== *)
(** * aiEngine.ts *)
(* ===================================================================== *)
Module AIEngine.

(** ['Low' | 'Medium' | 'High' | 'Critical'] *)
Inductive Severity := Low | Medium | High | Critical.

(** ['Safe' | 'Low' | 'Medium' | 'High' | 'Critical'] *)
Inductive RiskLevel := RSafe | RLow | RMedium | RHigh | RCritical.

(** A severity is used as a risk level in [analyzePort] (subtype). *)
Definition riskOfSeverity (s : Severity) : RiskLevel :=
  match s with
  | Low => RLow | Medium => RMedium | High => RHigh | Critical => RCritical
  end.

(** The string that a severity is at run time; it is the key used to index
    [SEVERITY_SCORES]. *)
Definition severityName (s : Severity) : string :=
  match s with
  | Low => "Low" | Medium => "Medium" | High => "High" | Critical => "Critical"
  end.

(** [Omit<Vulnerability, 'port'>] *)
Record VulnEntry := mkEntry {
  e_severity : Severity;
  e_title : string;
  e_description : string;
  e_remediation : string }.

Record Vulnerability := mkVuln {
  severity : Severity;
  title : string;
  description : string;
  remediation : string;
  port : Z }.

Record PortInsight := mkInsight {
  i_port : Z;
  riskLevel : RiskLevel;
  i_title : string;
  shortDesc : string }.

Record SecurityReport := mkReport {
  riskScore : Z;
  vulnerabilities : list Vulnerability;
  summary : string }.

(** The argument of [analyze]: [{ port: number; banner?: string }]. *)
Record OpenPort := mkOpen {
  o_port : Z;
  o_banner : option string }.

Definition VULN_DB_entries : list (Z * VulnEntry) :=
  [ (21, mkEntry Medium "FTP Service Exposed" "FTP may allow anonymous access or brute-force." "Disable anonymous login; use SFTP instead.");
    (22, mkEntry Low "SSH Service Exposed" "SSH is exposed to brute-force attacks." "Use key-based auth; disable password login.");
    (23, mkEntry High "Telnet Plaintext Protocol" "Telnet sends all data in cleartext." "Disable Telnet; migrate to SSH.");
    (25, mkEntry Medium "SMTP Open Relay Risk" "SMTP may be an open relay for spam." "Restrict relay; enable authentication.");
    (53, mkEntry Low "DNS Service Exposed" "DNS may be vulnerable to amplification." "Restrict recursive queries; use rate limiting.");
    (80, mkEntry Low "Unencrypted HTTP" "HTTP traffic is unencrypted." "Enforce HTTPS with TLS certificates.");
    (110, mkEntry Medium "POP3 Plaintext Risk" "POP3 sends credentials in cleartext." "Use POP3S (port 995) with TLS.");
    (135, mkEntry High "Windows RPC Exposed" "MSRPC is a common attack vector." "Block port 135 at the firewall.");
    (139, mkEntry High "NetBIOS Session Service" "NetBIOS enables SMB enumeration." "Disable NetBIOS over TCP/IP.");
    (143, mkEntry Medium "IMAP Plaintext Risk" "IMAP sends credentials in cleartext." "Use IMAPS (port 993) with TLS.");
    (443, mkEntry Low "HTTPS Service" "Encrypted, but check TLS version." "Ensure TLS 1.2+ and valid certificates.");
    (445, mkEntry High "SMB Service Exposed" "SMB is frequently targeted (EternalBlue)." "Block port 445 externally; patch SMB.");
    (1433, mkEntry High "MSSQL Exposed" "Database should not be public." "Restrict to trusted IPs; use VPN.");
    (1521, mkEntry High "Oracle DB Exposed" "Oracle DB should not be public." "Restrict to trusted IPs; use VPN.");
    (3306, mkEntry High "MySQL Database Exposed" "MySQL should not be on the public internet." "Restrict to trusted IPs; use VPN.");
    (3389, mkEntry High "RDP Service Exposed" "RDP is a major ransomware vector." "Use VPN; enable NLA; limit access.");
    (5432, mkEntry High "PostgreSQL Exposed" "Database should not be public." "Restrict to trusted IPs; use VPN.");
    (5900, mkEntry High "VNC Service Exposed" "VNC may have weak or no authentication." "Use SSH tunnel; enforce strong auth.");
    (6379, mkEntry Critical "Redis No Auth" "Redis often runs without authentication." "Enable AUTH; bind to localhost only.");
    (8080, mkEntry Low "HTTP Proxy/Alt Service" "Alternative HTTP service detected." "Ensure proper access controls.");
    (8443, mkEntry Low "HTTPS Alt Service" "Alternative HTTPS service detected." "Verify TLS configuration.");
    (27017, mkEntry Critical "MongoDB No Auth" "MongoDB may lack authentication." "Enable auth; restrict via firewall.") ].

(** [const VULN_DB: Record<number, Omit<Vulnerability, 'port'>>] *)
Definition VULN_DB : gmap Z VulnEntry := list_to_map VULN_DB_entries.

(** [const SEVERITY_SCORES: Record<string, number>] *)
Definition SEVERITY_SCORES : gmap string Z :=
  list_to_map [ ("Critical", 40); ("High", 25); ("Medium", 15); ("Low", 5) ].

(** The two module-level tables, which the functions below read.  Their
    values are functions of the tables and of the arguments; module
    [AIEngineStore] has [analyze] as a call that runs in a store. *)
Record Tables := mkTables {
  t_vuln : gmap Z VulnEntry;
  t_scores : gmap string Z }.

Definition tables : Tables := mkTables VULN_DB SEVERITY_SCORES.

Section Engine.
Variable T : Tables.

(** [SEVERITY_SCORES[key] ?? 5] *)
Definition scoreOf (key : string) : Z := default 5 (t_scores T !! key).

(** [static analyzePort(port, banner?): PortInsight | null] *)
Definition analyzePort_in (p : Z) (banner : option string) : option PortInsight :=
  match t_vuln T !! p with
  | Some vuln =>
      Some (mkInsight p (riskOfSeverity (e_severity vuln)) (e_title vuln) (e_description vuln))
  | None =>
      Some (mkInsight p RLow ("Unknown Service (Port " +:+ show p +:+ ")")
              "Open port with unrecognized service.")
  end.

(** [{ ...vuln, port: p.port }] *)
Definition withPort (vuln : VulnEntry) (p : Z) : Vulnerability :=
  mkVuln (e_severity vuln) (e_title vuln) (e_description vuln) (e_remediation vuln) p.

(** The body of [for (const p of ports)], on the two locals [vulns] and
    [score]. *)
Definition analyze_body (acc : list Vulnerability * Z) (p : OpenPort)
  : list Vulnerability * Z :=
  match t_vuln T !! o_port p with
  | Some vuln =>
      (fst acc ++ [withPort vuln (o_port p)],
       snd acc + scoreOf (severityName (e_severity vuln)))
  | None => acc
  end.

Definition analyze_loop (ports : list OpenPort) : list Vulnerability * Z :=
  fold_left analyze_body ports ([], 0).

Definition tone (finalScore : Z) : string :=
  if 70 <? finalScore then "CRITICAL: Immediate remediation required."
  else if 40 <? finalScore then "WARNING: Moderate security risks found."
  else if 0 <? finalScore then "Low risk — continue monitoring."
  else "No known vulnerabilities detected.".

(** [static analyze(ports): SecurityReport] *)
Definition analyze_in (ports : list OpenPort) : SecurityReport :=
  let '(vulns, score) := analyze_loop ports in
  let finalScore := Z.min 100 score in
  let summary :=
    "Scan complete. Risk score: " +:+ show finalScore +:+ "/100. "
    +:+ show (Z.of_nat (length ports)) +:+ " open port(s) detected. " in
  mkReport finalScore vulns (summary +:+ tone finalScore).

End Engine.

Definition analyzePort := analyzePort_in tables.
Definition analyze := analyze_in tables.

End AIEngine.

(** ** [analyze] as a call *)

Module AIEngineStore.
Import AIEngine.

(** What a call of [analyze] can reach: the two module-level objects, the
    arrays of open ports that callers hold, and the arrays of vulnerability
    records, which are the ones that calls have made.  An array is known by
    its address; objects of a table and records of an array are held by
    value, since the code copies them ([{ ...vuln, port }]) and never keeps
    a reference to one. *)
Record Store := mkStore {
  s_VULN_DB : gmap Z VulnEntry;
  s_SEVERITY_SCORES : gmap string Z;
  s_ports : gmap nat (list OpenPort);
  s_vulns : gmap nat (list Vulnerability);
  s_next : nat }.                          (* addresses given out so far *)

(** The object that [analyze] returns; [vulnerabilities] is a reference to
    the array [vulns]. *)
Record ReportRef := mkReportRef {
  r_riskScore : Z;
  r_vulnerabilities : nat;
  r_summary : string }.

(** [const vulns: Vulnerability[] = []] *)
Definition newArray (s : Store) : nat * Store :=
  (s_next s,
   mkStore (s_VULN_DB s) (s_SEVERITY_SCORES s) (s_ports s)
     (<[s_next s := []]> (s_vulns s)) (S (s_next s))).

(** [vulns.push(v)] *)
Definition push (vulns : nat) (v : Vulnerability) (s : Store) : Store :=
  mkStore (s_VULN_DB s) (s_SEVERITY_SCORES s) (s_ports s)
    (alter (λ l, l ++ [v]) vulns (s_vulns s)) (s_next s).

(** The elements of the array [ports], as [for (const p of ports)] and
    [ports.length] find them. *)
Definition elements (ports : nat) (s : Store) : list OpenPort :=
  default [] (s_ports s !! ports).

(** The [for] loop over the elements that are left, on the local [score]
    and the store. *)
Fixpoint loop (vulns : nat) (ps : list OpenPort) (score : Z) (s : Store) : Z * Store :=
  match ps with
  | [] => (score, s)
  | p :: ps' =>
      match s_VULN_DB s !! o_port p with
      | Some vuln =>
          let s1 := push vulns (withPort vuln (o_port p)) s in
          let w := default 5 (s_SEVERITY_SCORES s1 !! severityName (e_severity vuln)) in
          loop vulns ps' (score + w) s1
      | None => loop vulns ps' score s
      end
  end.

(** [AIEngine.analyze(ports)], called with a reference to an array. *)
Definition analyze (ports : nat) (s : Store) : ReportRef * Store :=
  let '(vulns, s1) := newArray s in
  let '(score, s2) := loop vulns (elements ports s1) 0 s1 in
  let finalScore := Z.min 100 score in
  let summary :=
    "Scan complete. Risk score: " +:+ show finalScore +:+ "/100. "
    +:+ show (Z.of_nat (length (elements ports s2))) +:+ " open port(s) detected. " in
  (mkReportRef finalScore vulns (summary +:+ tone finalScore), s2).

(** The report that a reference stands for in a store. *)
Definition report (s : Store) (r : ReportRef) : SecurityReport :=
  mkReport (r_riskScore r) (default [] (s_vulns s !! r_vulnerabilities r)) (r_summary r).

(** The tables as a store holds them. *)
Definition tablesOf (s : Store) : Tables := mkTables (s_VULN_DB s) (s_SEVERITY_SCORES s).

(** The store of the module as loaded, with one array of open ports at
    address 0. *)
Definition loaded (X : list OpenPort) : Store :=
  mkStore VULN_DB SEVERITY_SCORES {[0%nat := X]} ∅ 1.

End AIEngineStore.


(* ===================================================================== *)
(** * portQueue.ts: one probe *)
(* ===================================================================== *)
Module Probe.

(** [status: 'open' | 'closed' | 'filtered'] *)
Inductive Status := Open | Closed | Filtered.

Record PortResult := mkResult {
  port : Z;
  status : Status;
  duration : Z;
  banner : option string }.

(** What the socket and the timers deliver to the handlers that [scanPort]
    registers.  [now] is the value of [Date.now()] when the handler runs;
    [code] is [err.code]. *)
Inductive Event :=
  | Connect (now : Z)
  | Data (chunk : list Byte.byte) (now : Z)
  | BannerTimer (now : Z)
  | Timeout (now : Z)
  | Error (code : option string) (now : Z).

(** The closure of one [scanPort] call.  The ['data'] listener and the
    banner timer are created by the ['connect'] handler and close over its
    [dur]. *)
Record State := mkState {
  start : Z;
  s_banner : string;                (* let banner = '' *)
  resolved : bool;                  (* let resolved = false *)
  listening : bool;                 (* 'connect', 'timeout', 'error' attached *)
  dataListener : option Z;          (* 'data' attached, with its [dur] *)
  bannerTimer : option Z;           (* timer pending, with its [dur] *)
  destroyed : bool;                 (* socket.destroy() was called *)
  written : list string;            (* socket.write(...) payloads *)
  settled : list PortResult }.      (* arguments of resolve(...), latest first *)

Section ScanPort.
(** [chunk.toString('utf8', 0, n)] on the first [n] bytes: the decoder is
    Node's, taken as given. *)
Variable utf8 : list Byte.byte → string.
(** The arguments [host] and [port].  The third one, [timeout], arms the
    idle timer of the socket, whose firing is the event [Timeout]. *)
Variables (host : string) (p : Z).

Definition init (now : Z) : State :=
  mkState now EmptyString false true None None false [] [].

(** [banner.slice(0, 256) || undefined] *)
Definition bannerField (b : string) : option string :=
  let b' := String.substring 0 256 b in
  if String.eqb b' EmptyString then None else Some b'.

(** [done(status, dur?)], run at time [now]. *)
Definition done (st : Status) (dur : option Z) (now : Z) (s : State) : State :=
  if resolved s then s
  else
    mkState (start s) (s_banner s) true false None (bannerTimer s) true (written s)
      (mkResult p st (default (now - start s) dur) (bannerField (s_banner s))
       :: settled s).

(** ['\r\n'] *)
Definition crlf : string := String "013" (String "010" EmptyString).

(** The payload written on connect, by port. *)
Definition payload : option string :=
  if (p =? 80) || (p =? 8080) || (p =? 8443)
  then Some ("HEAD / HTTP/1.0" +:+ crlf +:+ "Host: " +:+ host +:+ crlf +:+ crlf)
  else if (p =? 21) || (p =? 25) || (p =? 110) || (p =? 143) then None
  else if negb (p =? 443) then Some crlf
  else None.

Definition isRefusedOrReset (code : option string) : bool :=
  match code with
  | Some c => String.eqb c "ECONNREFUSED" || String.eqb c "ECONNRESET"
  | None => false
  end.

(** One event, dispatched to the handler registered for it, if any. *)
Definition handle (s : State) (e : Event) : State :=
  match e with
  | Connect now =>
      if listening s then
        let dur := now - start s in
        mkState (start s) (s_banner s) (resolved s) (listening s) (Some dur) (Some dur)
          (destroyed s)
          (match payload with Some d => written s ++ [d] | None => written s end)
          (settled s)
      else s
  | Data chunk now =>
      match dataListener s with
      | Some dur =>
          let n := Z.to_nat (Z.min (Z.of_nat (length chunk)) 256) in
          done Open (Some dur) now
            (mkState (start s) (s_banner s +:+ utf8 (take n chunk)) (resolved s)
               (listening s) (dataListener s) None (destroyed s) (written s)
               (settled s))
      | None => s
      end
  | BannerTimer now =>
      match bannerTimer s with
      | Some dur =>
          done Open (Some dur) now
            (mkState (start s) (s_banner s) (resolved s) (listening s)
               (dataListener s) None (destroyed s) (written s) (settled s))
      | None => s
      end
  | Timeout now =>
      if listening s then done Filtered None now s else s
  | Error code now =>
      if listening s then
        if isRefusedOrReset code then done Closed None now s
        else done Filtered None now s
      else s
  end.

Definition run (s : State) (es : list Event) : State := fold_left handle es s.

(** What the promise returned by [scanPort] resolves with: the argument of
    the first [resolve] call. *)
Definition outcome (s : State) : option PortResult := last (settled s).

Definition scanPort (now : Z) (es : list Event) : option PortResult :=
  outcome (run (init now) es).
End ScanPort.

End Probe.

(* ===================================================================== *)
(** * portQueue.ts: the promise pool *)
(* ===================================================================== *)
Module PortQueue.
Export Probe.

(** The outcome of running code that may throw. *)
Inductive result (A : Type) :=
  | Ok (a : A)
  | Throw (err : string).
Arguments Ok {A} a.
Arguments Throw {A} err.

(** A call of one of the three callbacks. *)
Inductive Call :=
  | OnResult (r : PortResult)
  | OnProgress (scanned total : Z)
  | OnComplete (rs : list PortResult).

(** A probe that settles: its index in [ports], what [scanPort] resolved
    with, and the value of [Date.now()] when its continuation runs. *)
Record Settlement := mkSettlement {
  s_index : nat;
  s_status : Status;
  s_duration : Z;
  s_bannerText : option string;
  s_now : Z }.

Section Pool.
(** Everything outside the closure of [runScan] that the callbacks and the
    abort signal live in. *)
Context {W : Type}.

Record ScanOptions := mkOptions {
  host : string;
  ports : list Z;
  concurrency : Z;
  timeout : Z;
  onResult : PortResult → W → result unit * W;
  onProgress : Z → Z → W → result unit * W;
  onComplete : list PortResult → W → result unit * W;
  signal : option (W → bool) }.    (* reads [signal.aborted] *)

(** The locals of one [runScan] call; the probes it has launched that
    have not settled yet (by index in [ports]); whether [resolve] was
    called; and, for the statements only, the callbacks it has invoked,
    oldest first. *)
Record Locals := mkLocals {
  results : list PortResult;
  scanned : nat;
  index : nat;
  lastProgressTime : Z;
  inflight : list nat;
  promiseResolved : bool;
  invoked : list Call }.

(** Code of the closure: reads and writes the locals and the world, and
    may throw. *)
Definition M (A : Type) : Type := Locals * W → result A * (Locals * W).

#[export] Instance M_ret : MRet M := λ A a s, (Ok a, s).
#[export] Instance M_bind : MBind M := λ A B k m s,
  match m s with
  | (Ok a, s') => k a s'
  | (Throw e, s') => (Throw e, s')
  end.
Definition ret {A} (a : A) : M A := mret a.
Definition getL : M Locals := λ s, (Ok (fst s), s).
Definition modL (f : Locals → Locals) : M unit := λ s, (Ok tt, (f (fst s), snd s)).
Definition readW {A} (f : W → A) : M A := λ s, (Ok (f (snd s)), s).

Variable o : ScanOptions.

Definition total : nat := length (ports o).

(** [signal?.aborted] *)
Definition isAborted (w : W) : bool :=
  match signal o with Some f => f w | None => false end.

Definition aborted : M bool := readW isAborted.

(** A callback is invoked: it runs in the world and may throw. *)
Definition invoke (c : Call) : M unit :=
  λ s,
    let l := fst s in
    let l' := mkLocals (results l) (scanned l) (index l) (lastProgressTime l)
                (inflight l) (promiseResolved l) (invoked l ++ [c]) in
    let '(r, w) := match c with
                   | OnResult r => onResult o r (snd s)
                   | OnProgress n t => onProgress o n t (snd s)
                   | OnComplete rs => onComplete o rs (snd s)
                   end in
    (r, (l', w)).

(** [resolve()] *)
Definition resolve : M unit :=
  modL (λ l, mkLocals (results l) (scanned l) (index l) (lastProgressTime l)
               (inflight l) true (invoked l)).

(** [scanned++] *)
Definition incrScanned : M unit :=
  modL (λ l, mkLocals (results l) (S (scanned l)) (index l) (lastProgressTime l)
               (inflight l) (promiseResolved l) (invoked l)).

(** [results.push(r)] *)
Definition pushResult (r : PortResult) : M unit :=
  modL (λ l, mkLocals (results l ++ [r]) (scanned l) (index l) (lastProgressTime l)
               (inflight l) (promiseResolved l) (invoked l)).

(** [lastProgressTime = now] *)
Definition setLastProgressTime (now : Z) : M unit :=
  modL (λ l, mkLocals (results l) (scanned l) (index l) now
               (inflight l) (promiseResolved l) (invoked l)).

(** The loop condition of [next]. *)
Definition mayLaunch (l : Locals) : bool :=
  (index l <? total)%nat
  && (Z.of_nat (scanned l) + (Z.of_nat (index l) - Z.of_nat (scanned l))
      - Z.of_nat (length (results l)) <? concurrency o).

(** [const portIndex = index++; scanPort(host, ports[portIndex], timeout).then(...)] *)
Definition launch1 (l : Locals) : Locals :=
  mkLocals (results l) (scanned l) (S (index l)) (lastProgressTime l)
    (inflight l ++ [index l]) (promiseResolved l) (invoked l).

(** The [while] loop of [next]; every turn increments [index], so
    [total - index] turns are enough.  The guard [if (index >= total) break]
    in its body repeats the loop condition and never fires. *)
Fixpoint launchLoop (fuel : nat) (l : Locals) : Locals :=
  match fuel with
  | O => l
  | S fuel' => if mayLaunch l then launchLoop fuel' (launch1 l) else l
  end.

Definition next : M unit :=
  aborted ≫= λ a : bool,
  l ← getL;
  (if a then
     if (Z.of_nat (scanned l) + (Z.of_nat total - Z.of_nat (index l)) >=? Z.of_nat total)
        || (length (results l) =? scanned l)%nat
     then invoke (OnComplete (results l));; resolve
     else ret tt
   else modL (λ l, launchLoop (total - index l) l)).

(** The function passed to [.then]: it runs when a probe has settled with
    [r], at time [now]. *)
Definition onSettled (r : PortResult) (now : Z) : M unit :=
  aborted ≫= λ a : bool,
  (if a then
     incrScanned;;
     l ← getL;
     (if (total <=? scanned l)%nat
      then invoke (OnComplete (results l));; resolve
      else ret tt)
   else
     incrScanned;;
     pushResult r;;
     invoke (OnResult r);;
     l ← getL;
     (if (50 <? now - lastProgressTime l) || (total <=? scanned l)%nat
      then
        setLastProgressTime now;;
        invoke (OnProgress (Z.of_nat (scanned l)) (Z.of_nat total))
      else ret tt);;
     l ← getL;
     (if (total <=? scanned l)%nat
      then invoke (OnComplete (results l));; resolve
      else next)).

(** [for (let i = 0; i < initialBatch; i++) next();] *)
Fixpoint repeatNext (n : nat) : M unit :=
  match n with
  | O => ret tt
  | S n' => next;; repeatNext n'
  end.

(** The executor of the promise that [runScan] returns. *)
Definition executor : M unit :=
  repeatNext (Z.to_nat (Z.min (concurrency o) (Z.of_nat total)));;
  (if (total =? 0)%nat
   then l ← getL; invoke (OnComplete (results l));; resolve
   else ret tt).

Definition initLocals (scanStart : Z) : Locals :=
  mkLocals [] 0 0 scanStart [] false [].

(** The state of the promise of [runScan] once its synchronous part has
    run. *)
Inductive Promise := Pending | Fulfilled | Rejected (err : string).

Definition promiseOf (r : result unit) (l : Locals) : Promise :=
  if promiseResolved l then Fulfilled
  else match r with Ok _ => Pending | Throw e => Rejected e end.

(** [runScan(options)], called at time [scanStart]: the promise, the
    locals and the world after the synchronous part. *)
Definition runScan (scanStart : Z) (w : W) : Promise * Locals * W :=
  let '(r, (l, w')) := executor (initLocals scanStart, w) in
  (promiseOf r l, l, w').

(** A probe settles and its continuation runs.  [None] when no such probe
    is in flight.  A continuation that throws rejects the promise made by
    [.then], which has no handler: the error is returned next to the
    state. *)
Definition settle (e : Settlement) (l : Locals) (w : W)
    : option (result unit * Locals * W) :=
  if bool_decide (s_index e ∈ inflight l) then
    let l1 := mkLocals (results l) (scanned l) (index l) (lastProgressTime l)
                (filter (λ j, j ≠ s_index e) (inflight l)) (promiseResolved l)
                (invoked l) in
    let r := mkResult (default 0 (ports o !! s_index e)) (s_status e)
               (s_duration e) (s_bannerText e) in
    let '(res, (l2, w2)) := onSettled r (s_now e) (l1, w) in
    Some (res, l2, w2)
  else None.

Definition thrown (res : result unit) : list string :=
  match res with Ok _ => [] | Throw e => [e] end.

(** Probes settle one after the other; the errors that their
    continuations threw are collected. *)
Fixpoint settleAll (es : list Settlement) (l : Locals) (w : W)
    : option (list string * Locals * W) :=
  match es with
  | [] => Some ([], l, w)
  | e :: es' =>
      match settle e l w with
      | Some (res, l1, w1) =>
          match settleAll es' l1 w1 with
          | Some (errs, l2, w2) => Some (thrown res ++ errs, l2, w2)
          | None => None
          end
      | None => None
      end
  end.
End Pool.

Arguments ScanOptions : clear implicits.
Arguments M : clear implicits.

End PortQueue.

(* ===================================================================== *)
(** * Regular expressions, as far as scanner.ts uses them *)
(* ===================================================================== *)
Module Regex.

(** The fragment used by the two patterns of [validateTarget]: character
    classes, sequence, alternative, [*], [?] and [{lo,hi}]. *)
Inductive re :=
  | Void
  | Eps
  | Class (p : ascii → bool)
  | Seq (a b : re)
  | Alt (a b : re)
  | Star (a : re).

(** [a?] *)
Definition Opt (a : re) : re := Alt a Eps.

(** [a{0,n}] *)
Fixpoint Upto (n : nat) (a : re) : re :=
  match n with
  | O => Eps
  | S n' => Opt (Seq a (Upto n' a))
  end.

(** [a{n}] *)
Fixpoint Exactly (n : nat) (a : re) : re :=
  match n with
  | O => Eps
  | S n' => Seq a (Exactly n' a)
  end.

(** [a{lo,hi}] *)
Definition Rep (lo hi : nat) (a : re) : re := Seq (Exactly lo a) (Upto (hi - lo) a).

(** The strings of a pattern. *)
Inductive matches : re → list ascii → Prop :=
  | m_eps : matches Eps []
  | m_class p c : p c = true → matches (Class p) [c]
  | m_seq a b s t : matches a s → matches b t → matches (Seq a b) (s ++ t)
  | m_alt_l a b s : matches a s → matches (Alt a b) s
  | m_alt_r a b s : matches b s → matches (Alt a b) s
  | m_star_nil a : matches (Star a) []
  | m_star_app a s t : matches a s → matches (Star a) t → matches (Star a) (s ++ t).

Fixpoint nullable (r : re) : bool :=
  match r with
  | Void => false
  | Eps => true
  | Class _ => false
  | Seq a b => nullable a && nullable b
  | Alt a b => nullable a || nullable b
  | Star _ => true
  end.

(** The derivative of a pattern by a character. *)
Fixpoint deriv (c : ascii) (r : re) : re :=
  match r with
  | Void => Void
  | Eps => Void
  | Class p => if p c then Eps else Void
  | Seq a b =>
      if nullable a then Alt (Seq (deriv c a) b) (deriv c b)
      else Seq (deriv c a) b
  | Alt a b => Alt (deriv c a) (deriv c b)
  | Star a => Seq (deriv c a) (Star a)
  end.

Definition matchList (r : re) (s : list ascii) : bool :=
  nullable (fold_left (λ r c, deriv c r) s r).

(** [/^r$/.test(s)] *)
Definition test (r : re) (s : string) : bool :=
  matchList r (list_ascii_of_string s).

End Regex.

(* ===================================================================== *)
(** * scanner.ts: the target *)
(* ===================================================================== *)
Module Target.
Import Regex.

Definition code (c : ascii) : nat := nat_of_ascii c.

(** White space and line terminators of ECMAScript among the code units
    0..255: TAB, LF, VT, FF, CR, SP, NBSP. *)
Definition isSpace (c : ascii) : bool :=
  let n := code c in
  ((9 <=? n) && (n <=? 13) || (n =? 32) || (n =? 160))%nat.

Fixpoint trimStart (s : string) : string :=
  match s with
  | EmptyString => EmptyString
  | String c s' => if isSpace c then trimStart s' else s
  end.

Fixpoint trimEnd (s : string) : string :=
  match s with
  | EmptyString => EmptyString
  | String c s' =>
      match trimEnd s' with
      | EmptyString => if isSpace c then EmptyString else String c EmptyString
      | t => String c t
      end
  end.

(** [input.trim()] *)
Definition trim (s : string) : string := trimEnd (trimStart s).

(** Letters compare without case under the [i] flag. *)
Definition lower (c : ascii) : ascii :=
  let n := code c in
  if ((65 <=? n) && (n <=? 90))%nat then ascii_of_nat (n + 32) else c.

(** [Some rest] when [s] is [p] followed by [rest], letters compared without
    case; [p] is in lower case. *)
Fixpoint stripPrefixCI (p s : string) : option string :=
  match p, s with
  | EmptyString, _ => Some s
  | String a p', String b s' =>
      if Ascii.eqb a (lower b) then stripPrefixCI p' s' else None
  | String _ _, EmptyString => None
  end.

(** [target.replace(/^https?:\/\//i, '')] *)
Definition stripScheme (s : string) : string :=
  match stripPrefixCI "https://" s with
  | Some rest => rest
  | None =>
      match stripPrefixCI "http://" s with
      | Some rest => rest
      | None => s
      end
  end.

(** [s.split(c)[0]] *)
Fixpoint before (c : ascii) (s : string) : string :=
  match s with
  | EmptyString => EmptyString
  | String d s' => if Ascii.eqb d c then EmptyString else String d (before c s')
  end.

Definition sanitizeTarget (input : string) : string :=
  let target := trim input in
  let target := stripScheme target in
  let target := before "/" target in
  let target := before ":" target in
  target.

(** [\d] *)
Definition digit (c : ascii) : bool :=
  let n := code c in ((48 <=? n) && (n <=? 57))%nat.

(** [[a-zA-Z0-9]] *)
Definition alnum (c : ascii) : bool :=
  let n := code c in
  ((97 <=? n) && (n <=? 122) || (65 <=? n) && (n <=? 90) || (48 <=? n) && (n <=? 57))%nat.

(** [[a-zA-Z0-9-]] *)
Definition alnumHyphen (c : ascii) : bool := alnum c || Ascii.eqb c "-".

(** [\.] *)
Definition dot (c : ascii) : bool := Ascii.eqb c ".".

(** [/^\d{1,3}\.\d{1,3}\.\d{1,3}\.\d{1,3}$/] *)
Definition ipv4 : re :=
  Seq (Rep 1 3 (Class digit))
    (Seq (Class dot)
       (Seq (Rep 1 3 (Class digit))
          (Seq (Class dot)
             (Seq (Rep 1 3 (Class digit))
                (Seq (Class dot) (Rep 1 3 (Class digit))))))).

(** [[a-zA-Z0-9]([a-zA-Z0-9-]{0,61}[a-zA-Z0-9])?] *)
Definition label : re :=
  Seq (Class alnum) (Opt (Seq (Rep 0 61 (Class alnumHyphen)) (Class alnum))).

(** [/^label(\.label)*$/] *)
Definition hostname : re := Seq label (Star (Seq (Class dot) label)).

Definition validateTarget (target : string) : bool :=
  if String.eqb target EmptyString || (255 <? String.length target)%nat then false
  else if test ipv4 target then true
  else test hostname target.

End Target.

(* ===================================================================== *)
(** * scanner.ts: the target, on strings of 16-bit code units *)

(** The same regular expressions over code units. *)
Module Regex16.

Inductive re :=
  | Void
  | Eps
  | Class (p : N → bool)
  | Seq (a b : re)
  | Alt (a b : re)
  | Star (a : re).

(** [a?] *)
Definition Opt (a : re) : re := Alt a Eps.

(** [a{0,n}] *)
Fixpoint Upto (n : nat) (a : re) : re :=
  match n with
  | O => Eps
  | S n' => Opt (Seq a (Upto n' a))
  end.

(** [a{n}] *)
Fixpoint Exactly (n : nat) (a : re) : re :=
  match n with
  | O => Eps
  | S n' => Seq a (Exactly n' a)
  end.

(** [a{lo,hi}] *)
Definition Rep (lo hi : nat) (a : re) : re := Seq (Exactly lo a) (Upto (hi - lo) a).

(** The strings of a pattern. *)
Inductive matches : re → list N → Prop :=
  | m_eps : matches Eps []
  | m_class p c : p c = true → matches (Class p) [c]
  | m_seq a b s t : matches a s → matches b t → matches (Seq a b) (s ++ t)
  | m_alt_l a b s : matches a s → matches (Alt a b) s
  | m_alt_r a b s : matches b s → matches (Alt a b) s
  | m_star_nil a : matches (Star a) []
  | m_star_app a s t : matches a s → matches (Star a) t → matches (Star a) (s ++ t).

Fixpoint nullable (r : re) : bool :=
  match r with
  | Void => false
  | Eps => true
  | Class _ => false
  | Seq a b => nullable a && nullable b
  | Alt a b => nullable a || nullable b
  | Star _ => true
  end.

(** The derivative of a pattern by a code unit. *)
Fixpoint deriv (c : N) (r : re) : re :=
  match r with
  | Void => Void
  | Eps => Void
  | Class p => if p c then Eps else Void
  | Seq a b =>
      if nullable a then Alt (Seq (deriv c a) b) (deriv c b)
      else Seq (deriv c a) b
  | Alt a b => Alt (deriv c a) (deriv c b)
  | Star a => Seq (deriv c a) (Star a)
  end.

(** [/^r$/.test(s)] *)
Definition test (r : re) (s : list N) : bool :=
  nullable (fold_left (λ r c, deriv c r) s r).

End Regex16.

(** [sanitizeTarget] and [validateTarget] on JavaScript strings as they
    are: sequences of 16-bit code units, each given by its number.  Module
    [Target] above is this one on the strings whose code units are below
    256. *)
Module Target16.
Import Regex16.

(** The code unit of a character of a literal, and the code units of a
    literal. *)
Definition unitOf (c : ascii) : N := N_of_ascii c.
Definition unitsOf (s : string) : list N := map unitOf (list_ascii_of_string s).

(** White space and line terminators of ECMAScript: TAB, LF, VT, FF, CR,
    SP, NBSP, U+1680, U+2000 to U+200A, LS, PS, U+202F, U+205F, U+3000 and
    the byte order mark. *)
Definition isSpace (c : N) : bool :=
  ((9 <=? c) && (c <=? 13) || (c =? 32) || (c =? 160) || (c =? 5760)
   || (8192 <=? c) && (c <=? 8202) || (c =? 8232) || (c =? 8233) || (c =? 8239)
   || (c =? 8287) || (c =? 12288) || (c =? 65279))%N.

Fixpoint trimStart (s : list N) : list N :=
  match s with
  | [] => []
  | c :: s' => if isSpace c then trimStart s' else s
  end.

Fixpoint trimEnd (s : list N) : list N :=
  match s with
  | [] => []
  | c :: s' =>
      match trimEnd s' with
      | [] => if isSpace c then [] else [c]
      | t => c :: t
      end
  end.

(** [input.trim()] *)
Definition trim (s : list N) : list N := trimEnd (trimStart s).

(** Under the [i] flag, without the [u] flag, a letter of the pattern
    matches itself in either case and no other code unit. *)
Definition lower (c : N) : N :=
  if ((65 <=? c) && (c <=? 90))%N then (c + 32)%N else c.

(** [Some rest] when [s] is [p] followed by [rest], letters compared without
    case; [p] is in lower case. *)
Fixpoint stripPrefixCI (p s : list N) : option (list N) :=
  match p, s with
  | [], _ => Some s
  | a :: p', b :: s' => if (a =? lower b)%N then stripPrefixCI p' s' else None
  | _ :: _, [] => None
  end.

(** [target.replace(/^https?:\/\//i, '')] *)
Definition stripScheme (s : list N) : list N :=
  match stripPrefixCI (unitsOf "https://") s with
  | Some rest => rest
  | None =>
      match stripPrefixCI (unitsOf "http://") s with
      | Some rest => rest
      | None => s
      end
  end.

(** [s.split(c)[0]] *)
Fixpoint before (c : N) (s : list N) : list N :=
  match s with
  | [] => []
  | d :: s' => if (d =? c)%N then [] else d :: before c s'
  end.

Definition sanitizeTarget (input : list N) : list N :=
  let target := trim input in
  let target := stripScheme target in
  let target := before (unitOf "/") target in
  let target := before (unitOf ":") target in
  target.

(** [\d] *)
Definition digit (c : N) : bool := ((48 <=? c) && (c <=? 57))%N.

(** [[a-zA-Z0-9]] *)
Definition alnum (c : N) : bool :=
  ((97 <=? c) && (c <=? 122) || (65 <=? c) && (c <=? 90) || (48 <=? c) && (c <=? 57))%N.

(** [[a-zA-Z0-9-]] *)
Definition alnumHyphen (c : N) : bool := alnum c || (c =? unitOf "-")%N.

(** [\.] *)
Definition dot (c : N) : bool := (c =? unitOf ".")%N.

(** [/^\d{1,3}\.\d{1,3}\.\d{1,3}\.\d{1,3}$/] *)
Definition ipv4 : re :=
  Seq (Rep 1 3 (Class digit))
    (Seq (Class dot)
       (Seq (Rep 1 3 (Class digit))
          (Seq (Class dot)
             (Seq (Rep 1 3 (Class digit))
                (Seq (Class dot) (Rep 1 3 (Class digit))))))).

(** [[a-zA-Z0-9]([a-zA-Z0-9-]{0,61}[a-zA-Z0-9])?] *)
Definition label : re :=
  Seq (Class alnum) (Opt (Seq (Rep 0 61 (Class alnumHyphen)) (Class alnum))).

(** [/^label(\.label)*$/] *)
Definition hostname : re := Seq label (Star (Seq (Class dot) label)).

Definition validateTarget (target : list N) : bool :=
  if bool_decide (target = []) || (255 <? length target)%nat then false
  else if test ipv4 target then true
  else test hostname target.

End Target16.


(* ===================================================================== *)
(** * scanner.ts: the service *)
(* ===================================================================== *)
Module Scanner.
Import PortQueue.

Record ScanConfig := mkConfig {
  scanId : string;
  target : string;
  cfg_ports : list Z;
  cfg_concurrency : Z;
  cfg_timeout : Z }.

(** The state shared by all scans and their caller.  An [AbortController] is
    known by its allocation number; its signal is aborted when the number is
    in [abortedSignals]. *)
Record World := mkWorld {
  activeScans : gmap string nat;     (* const activeScans = new Map() *)
  abortedSignals : gset nat;
  controllers : nat;                 (* controllers allocated so far *)
  fatal : list string;               (* scan ids logged as "Fatal error" *)
  unhandled : list string;           (* rejections that no handler took *)
  calls : list Call }.               (* the caller's callbacks run so far *)

Record ScanCallbacks := mkCallbacks {
  cb_onResult : PortResult → World → result unit * World;
  cb_onProgress : Z → Z → World → result unit * World;
  cb_onComplete : list PortResult → World → result unit * World }.

(** Callbacks that note the call and then throw when [throws] says so. *)
Definition note (throws : Call → bool) (c : Call) (w : World) : result unit * World :=
  let w' := mkWorld (activeScans w) (abortedSignals w) (controllers w) (fatal w)
              (unhandled w) (calls w ++ [c]) in
  (if throws c then Throw "callback" else Ok tt, w').

Definition noting (throws : Call → bool) : ScanCallbacks :=
  mkCallbacks (λ r, note throws (OnResult r))
              (λ s t, note throws (OnProgress s t))
              (λ rs, note throws (OnComplete rs)).

(** [activeScans.delete(scanId)] *)
Definition forget (id : string) (w : World) : World :=
  mkWorld (delete id (activeScans w)) (abortedSignals w) (controllers w) (fatal w)
    (unhandled w) (calls w).

(** The [onComplete] that [startScan] passes to [runScan]. *)
Definition completeScan (id : string) (cbs : ScanCallbacks) (rs : list PortResult)
    (w : World) : result unit * World :=
  cb_onComplete cbs rs (forget id w).

(** The handler given to [.catch]. *)
Definition onFatal (id : string) (cbs : ScanCallbacks) (w : World) : World :=
  let w1 := mkWorld (activeScans w) (abortedSignals w) (controllers w)
              (fatal w ++ [id]) (unhandled w) (calls w) in
  match cb_onComplete cbs [] (forget id w1) with
  | (Ok _, w2) => w2
  | (Throw e, w2) =>
      mkWorld (activeScans w2) (abortedSignals w2) (controllers w2) (fatal w2)
        (unhandled w2 ++ [e]) (calls w2)
  end.

Definition clampConcurrency (c : Z) : Z := Z.max 10 (Z.min c 500).

Definition clampTimeout (n : nat) (t : Z) : Z :=
  if (500 <? n)%nat then Z.min t 400 else Z.min t 800.

(** A scan that [startScan] has started: what it returns, and the options
    and locals of its [runScan] call, which the pending probes hold. *)
Record Started := mkStarted {
  st_target : string;
  st_options : ScanOptions World;
  st_locals : Locals;
  st_promise : Promise }.

Definition dquote : string := String (ascii_of_nat 34) EmptyString.

Definition startScan (config : ScanConfig) (callbacks : ScanCallbacks) (now : Z)
    (w : World) : result Started * World :=
  let tgt := Target.sanitizeTarget (target config) in
  if negb (Target.validateTarget tgt)
  then (Throw ("Invalid target: " +:+ dquote +:+ target config +:+ dquote), w)
  else
    let abort := controllers w in
    let w1 := mkWorld (<[scanId config := abort]> (activeScans w)) (abortedSignals w)
                (S (controllers w)) (fatal w) (unhandled w) (calls w) in
    let concurrency := clampConcurrency (cfg_concurrency config) in
    let timeout := clampTimeout (length (cfg_ports config)) (cfg_timeout config) in
    let options :=
      mkOptions tgt (cfg_ports config) concurrency timeout
        (cb_onResult callbacks) (cb_onProgress callbacks)
        (completeScan (scanId config) callbacks)
        (Some (λ w, bool_decide (abort ∈ abortedSignals w))) in
    let '(promise, locals, w2) := runScan options now w1 in
    let w3 := match promise with
              | Rejected _ => onFatal (scanId config) callbacks w2
              | _ => w2
              end in
    (Ok (mkStarted tgt options locals promise), w3).

Definition abortScan (id : string) (w : World) : bool * World :=
  match activeScans w !! id with
  | Some abort =>
      (true,
       mkWorld (delete id (activeScans w)) ({[abort]} ∪ abortedSignals w)
         (controllers w) (fatal w) (unhandled w) (calls w))
  | None => (false, w)
  end.

Definition isActive (id : string) (w : World) : bool :=
  bool_decide (is_Some (activeScans w !! id)).

(** A probe of a started scan settles; an error thrown by its continuation
    is a rejection that nothing handles. *)
Definition probeSettles (e : Settlement) (sc : Started) (w : World)
    : option (Started * World) :=
  match settle (st_options sc) e (st_locals sc) w with
  | Some (res, l, w') =>
      let sc' := mkStarted (st_target sc) (st_options sc) l
                   (match st_promise sc with
                    | Pending => if promiseResolved l then Fulfilled else Pending
                    | pr => pr
                    end) in
      Some (sc',
            mkWorld (activeScans w') (abortedSignals w') (controllers w') (fatal w')
              (unhandled w' ++ thrown res) (calls w'))
  | None => None
  end.

Fixpoint probesSettle (es : list Settlement) (sc : Started) (w : World)
    : option (Started * World) :=
  match es with
  | [] => Some (sc, w)
  | e :: es' =>
      match probeSettles e sc w with
      | Some (sc', w') => probesSettle es' sc' w'
      | None => None
      end
  end.

Definition emptyWorld : World := mkWorld ∅ ∅ 0 [] [] [].

End Scanner.

(* ===================================================================== *)
(** * Vocabulary of the statements *)
(* ===================================================================== *)

Module AIEngineSpec.
Import AIEngine.

(** The severity weights as the design document lists them. *)
Definition weight (s : Severity) : Z :=
  match s with Critical => 40 | High => 25 | Medium => 15 | Low => 5 end.

(** The weight of a severity given by name, unknown names counting 5. *)
Definition weightOfName (key : string) : Z :=
  if String.eqb key "Critical" then 40
  else if String.eqb key "High" then 25
  else if String.eqb key "Medium" then 15
  else 5.

(** The table entries of the input ports that have one, in input order. *)
Definition present (ports : list OpenPort) : list (Z * VulnEntry) :=
  omap (λ p, (λ v, (o_port p, v)) <$> VULN_DB !! o_port p) ports.

Definition weightedSum (ports : list OpenPort) : Z :=
  foldr Z.add 0 (map (λ pv, weight (e_severity (snd pv))) (present ports)).

Definition headline (score : Z) (n : nat) : string :=
  "Scan complete. Risk score: " +:+ show score +:+ "/100. "
  +:+ show (Z.of_nat n) +:+ " open port(s) detected. ".

(** The tone of the summary, by threshold. *)
Inductive ToneOf : Z → string → Prop :=
  | tone_urgent s : 70 < s → ToneOf s "CRITICAL: Immediate remediation required."
  | tone_warning s : 40 < s ≤ 70 → ToneOf s "WARNING: Moderate security risks found."
  | tone_monitor s : 0 < s ≤ 40 → ToneOf s "Low risk — continue monitoring."
  | tone_none : ToneOf 0 "No known vulnerabilities detected.".

End AIEngineSpec.

Module ProbeSpec.
Import Probe.

(** The classification of an error by its code. *)
Definition statusOfError (code : option string) : Status :=
  if bool_decide (code = Some "ECONNREFUSED" ∨ code = Some "ECONNRESET")
  then Closed else Filtered.

(** The reading of the design document: once the connection is
    established, whatever happens next, the probe is classified open. *)
Definition connectMeansOpen : Prop :=
  ∀ (utf8 : list Byte.byte → string) (host : string) (p start t : Z)
    (es : list Event) (r : PortResult),
    scanPort utf8 host p start (Connect t :: es) = Some r → status r = Open.

(** A probe that has settled: nothing is attached to the socket any more. *)
Definition Settled (s : State) : Prop :=
  resolved s = true ∧ listening s = false ∧ dataListener s = None.

(** Before it settles a probe has resolved nothing; afterwards it has
    resolved once, and its listeners are gone. *)
Definition Once (s : State) : Prop :=
  (resolved s = false ∧ settled s = []) ∨ (Settled s ∧ length (settled s) = 1%nat).

End ProbeSpec.

Module PortQueueSpec.
Import PortQueue.
Section Inv.
Context {W : Type}.
Variable o : ScanOptions W.

(** What holds of the locals between two turns of the event loop: the
    probes in flight are distinct ports launched so far, and every port
    launched so far is either in flight or counted in [scanned]. *)
Definition Inv (l : Locals) : Prop :=
  NoDup (inflight l)
  ∧ Forall (λ j, (j < index l)%nat) (inflight l)
  ∧ (scanned l + length (inflight l) = index l)%nat
  ∧ (index l ≤ total o)%nat.

(** The locals just after a probe was taken out of the probes in flight. *)
Definition InvSettling (l : Locals) : Prop :=
  NoDup (inflight l)
  ∧ Forall (λ j, (j < index l)%nat) (inflight l)
  ∧ (S (scanned l + length (inflight l)) = index l)%nat
  ∧ (index l ≤ total o)%nat.

(** [hoare P m Q]: from locals that satisfy [P], [m] ends, normally or by
    throwing, in locals that satisfy [Q]. *)
Definition hoare {A} (P : Locals → Prop) (m : M W A) (Q : Locals → Prop) : Prop :=
  ∀ l w r l' w', P l → m (l, w) = (r, (l', w')) → Q l'.
End Inv.
End PortQueueSpec.

Module TargetSpec.
Import Target16.

(** A group of one to three decimal digits. *)
Definition group (g : list N) : Prop :=
  (1 ≤ length g ≤ 3)%nat ∧ Forall (λ c, (48 ≤ c ≤ 57)%N) g.

(** Four groups separated by dots. *)
Definition IPv4Shape (s : list N) : Prop :=
  ∃ a b c d, s = a ++ unitOf "." :: b ++ unitOf "." :: c ++ unitOf "." :: d
             ∧ group a ∧ group b ∧ group c ∧ group d.

(** A letter or a digit of ASCII; the same or a hyphen. *)
Definition letterOrDigit (c : N) : Prop :=
  (97 ≤ c ≤ 122 ∨ 65 ≤ c ≤ 90 ∨ 48 ≤ c ≤ 57)%N.

Definition labelChar (c : N) : Prop := letterOrDigit c ∨ c = unitOf "-".

(** A label: 1 to 63 letters, digits or hyphens, the first and the last not
    a hyphen. *)
Definition labelOk (l : list N) : Prop :=
  (1 ≤ length l ≤ 63)%nat
  ∧ Forall labelChar l
  ∧ (∃ c, head l = Some c ∧ letterOrDigit c)
  ∧ (∃ c, last l = Some c ∧ letterOrDigit c).

(** One label, then any number of further labels, each after a dot. *)
Definition HostnameShape (s : list N) : Prop :=
  ∃ l ls, s = l ++ concat (map (cons (unitOf ".")) ls)
          ∧ labelOk l ∧ Forall labelOk ls.

(** White space: what [String.prototype.trim] takes off. *)
Definition whiteSpace (c : N) : Prop :=
  c ∈ [9; 10; 11; 12; 13; 32; 160; 5760; 8192; 8193; 8194; 8195; 8196; 8197; 8198;
       8199; 8200; 8201; 8202; 8232; 8233; 8239; 8287; 12288; 65279]%N.






(** [normalize(input) -> host | InvalidTarget]: the first lines of
    [startScan]. *)
Definition normalize (input : list N) : option (list N) :=
  let t := sanitizeTarget input in
  if validateTarget t then Some t else None.


End TargetSpec.

Module ScannerSpec.
Import PortQueue Scanner.

(** The two ways in which the entry of a scan leaves the registry. *)
Inductive Removal :=
  | ByAbort
  | ByCompletion (rs : list PortResult).

Definition remove (id : string) (cbs : ScanCallbacks) (op : Removal) (w : World) : World :=
  match op with
  | ByAbort => snd (abortScan id w)
  | ByCompletion rs => snd (completeScan id cbs rs w)
  end.

(** How many of the operations took an entry for [id] out of the registry. *)
Fixpoint removals (id : string) (cbs : ScanCallbacks) (ops : list Removal) (w : World) : nat :=
  match ops with
  | [] => 0
  | op :: ops' =>
      let w' := remove id cbs op w in
      ((if isActive id w && negb (isActive id w') then 1 else 0)
       + removals id cbs ops' w')%nat
  end.

End ScannerSpec.

(** Scans used as examples. *)
Module Scenario.
Import PortQueue Scanner.

(** Callbacks that note the call and return. *)
Definition quiet : ScanCallbacks := noting (λ _, false).

(** Callbacks whose [onResult] throws. *)
Definition failing : ScanCallbacks :=
  noting (λ c, match c with OnResult _ => true | _ => false end).

(** Eleven ports at the lowest concurrency that [startScan] allows. *)
Definition elevenPorts : ScanConfig :=
  mkConfig "scan-1" "example.com" [1; 2; 3; 4; 5; 6; 7; 8; 9; 10; 11] 10 400.

Definition onePort : ScanConfig :=
  mkConfig "scan-1" "example.com" [80] 150 400.

(** The probe for [ports[i]] finds the port closed after 3 ms. *)
Definition closedAt (now : Z) (i : nat) : Settlement :=
  mkSettlement i Closed 3 None now.

(** A pool on its own: the world is the aborted flag of the signal, and
    the callbacks do nothing. *)
Definition idle {A} (_ : A) (w : bool) : result unit * bool := (Ok tt, w).

Definition pool (ports : list Z) (concurrency : Z) : ScanOptions bool :=
  mkOptions "example.com" ports concurrency 400 idle (λ _, idle) idle (Some id).

End Scenario.

Module Latin1.
Import Target16.


End Latin1.

(* ===================================================================== *)
(** * Vocabulary of the further properties *)
(* ===================================================================== *)

Module PoolRuns.
Import PortQueue.
Section Runs.
Context {W : Type}.
Variable o : ScanOptions W.

(** What [scanPort] resolved with for a settlement. *)
Definition resultOf (e : Settlement) : PortResult :=
  mkResult (default 0 (ports o !! s_index e)) (s_status e) (s_duration e)
    (s_bannerText e).

(** The histories of one [runScan] call: it is called in some world, and
    then probes settle one after the other, each time in some world.  The
    worlds are those that satisfy [P]; between two turns of the event loop
    anything may have happened to the world.  [Run P es l]: the probes of
    [es] have settled, in this order, and the locals are [l]. *)
Inductive Run (P : W → Prop) : list Settlement → Locals → Prop :=
  | run_start (scanStart : Z) (w w' : W) (pr : Promise) (l : Locals) :
      P w → runScan o scanStart w = (pr, l, w') → Run P [] l
  | run_settle (es : list Settlement) (l l' : Locals) (e : Settlement) (w w' : W)
      (res : result unit) :
      Run P es l → P w → settle o e l w = Some (res, l', w') →
      Run P (es ++ [e]) l'.

(** The ports launched so far are the first [index] ports of the list;
    each of them has settled once or is in flight. *)
Definition Launched (es : list Settlement) (l : Locals) : Prop :=
  map s_index es ++ inflight l ≡ₚ seq 0 (index l)
  ∧ scanned l = length es
  ∧ (index l ≤ total o)%nat.

(** The same just after a probe was taken out of the probes in flight. *)
Definition Settling (es : list Settlement) (l : Locals) : Prop :=
  map s_index es ++ inflight l ≡ₚ seq 0 (index l)
  ∧ S (scanned l) = length es
  ∧ (index l ≤ total o)%nat.

(** No more ports are launched and unsettled than the concurrency allows,
    and no more results are stored than probes were counted. *)
Definition Bounded (l : Locals) : Prop :=
  Z.of_nat (index l) - Z.of_nat (length (results l)) ≤ Z.max 0 (concurrency o)
  ∧ (length (results l) ≤ scanned l)%nat.

Definition BoundedSettling (l : Locals) : Prop :=
  Z.of_nat (index l) - Z.of_nat (length (results l)) ≤ Z.max 0 (concurrency o)
  ∧ (length (results l) < scanned l)%nat.

End Runs.
End PoolRuns.

Module PoolQuiet.
Import PortQueue PoolRuns.

(** The results passed to [onResult], the pairs passed to [onProgress] and
    the lists passed to [onComplete], in a record of invocations. *)
Definition delivered (cs : list Call) : list PortResult :=
  omap (λ c, match c with OnResult r => Some r | _ => None end) cs.

Definition progressed (cs : list Call) : list (Z * Z) :=
  omap (λ c, match c with OnProgress n t => Some (n, t) | _ => None end) cs.

Definition completed (cs : list Call) : list (list PortResult) :=
  omap (λ c, match c with OnComplete rs => Some rs | _ => None end) cs.

Section Quiet.
Context {W : Type}.
Variable o : ScanOptions W.

(** In the worlds that satisfy [P] the signal is not aborted, and there the
    callbacks return normally and leave the world in [P]. *)
Record Quiet (P : W → Prop) : Prop := mkQuiet {
  quiet_signal : ∀ w, P w → isAborted o w = false;
  quiet_onResult : ∀ r w, P w → ∃ w', onResult o r w = (Ok tt, w') ∧ P w';
  quiet_onProgress : ∀ n t w, P w → ∃ w', onProgress o n t w = (Ok tt, w') ∧ P w';
  quiet_onComplete : ∀ rs w, P w → ∃ w', onComplete o rs w = (Ok tt, w') ∧ P w' }.

(** What the continuation of a probe does to the locals when the signal is
    not aborted and no callback throws. *)
Definition normalStep (r : PortResult) (now : Z) (l : Locals) : Locals :=
  let l1 := mkLocals (results l ++ [r]) (S (scanned l)) (index l) (lastProgressTime l)
              (inflight l) (promiseResolved l) (invoked l ++ [OnResult r]) in
  let l2 := if (50 <? now - lastProgressTime l1) || (total o <=? scanned l1)%nat
            then mkLocals (results l1) (scanned l1) (index l1) now (inflight l1)
                   (promiseResolved l1)
                   (invoked l1 ++ [OnProgress (Z.of_nat (scanned l1)) (Z.of_nat (total o))])
            else l1 in
  if (total o <=? scanned l2)%nat
  then mkLocals (results l2) (scanned l2) (index l2) (lastProgressTime l2) (inflight l2)
         true (invoked l2 ++ [OnComplete (results l2)])
  else launchLoop o (total o - index l2) l2.

(** What holds of the locals of a scan that was not aborted and whose
    callbacks did not throw, after the probes of [es] have settled. *)
Definition Orderly (es : list Settlement) (l : Locals) : Prop :=
  results l = map (resultOf o) es
  ∧ delivered (invoked l) = results l
  ∧ completed (invoked l) = (if decide (scanned l = total o) then [results l] else [])
  ∧ promiseResolved l = bool_decide (scanned l = total o)
  ∧ mayLaunch o l = false
  ∧ StronglySorted Z.lt (map fst (progressed (invoked l)))
  ∧ Forall (λ nt, 1 ≤ fst nt ≤ Z.of_nat (scanned l) ∧ snd nt = Z.of_nat (total o))
      (progressed (invoked l))
  ∧ (scanned l = total o → total o ≠ 0%nat →
     ∃ pre r, invoked l
              = pre ++ [OnResult r;
                        OnProgress (Z.of_nat (total o)) (Z.of_nat (total o));
                        OnComplete (results l)]).
End Quiet.
End PoolQuiet.

Module PoolWorld.
Import PortQueue.
Section World.
Context {W : Type}.
Variable o : ScanOptions W.

(** The world after the callbacks of a record of invocations have run in
    it, one after the other. *)
Definition applyCalls (cs : list Call) (w : W) : W :=
  fold_left (λ w c, match c with
                    | OnResult r => snd (onResult o r w)
                    | OnProgress n t => snd (onProgress o n t w)
                    | OnComplete rs => snd (onComplete o rs w)
                    end) cs w.
End World.
End PoolWorld.

Module PoolAfter.
Import PortQueue.
(** The locals of a scan started at [scanStart] in [w] once the probes of
    [es] have settled, with nothing else happening in between. *)
Definition after {W} (o : ScanOptions W) (scanStart : Z) (w : W) (es : list Settlement)
    : option Locals :=
  let '(_, l, w') := runScan o scanStart w in
  match settleAll o es l w' with
  | Some (_, l', _) => Some l'
  | None => None
  end.
End PoolAfter.

Module ServiceSpec.
Import PortQueue Scanner.

(** Callbacks of a caller that return normally and leave the registry and
    the signals alone. *)
Record Passive (cbs : ScanCallbacks) : Prop := mkPassive {
  passive_onResult : ∀ r w, ∃ w',
    cb_onResult cbs r w = (Ok tt, w')
    ∧ activeScans w' = activeScans w ∧ abortedSignals w' = abortedSignals w;
  passive_onProgress : ∀ n t w, ∃ w',
    cb_onProgress cbs n t w = (Ok tt, w')
    ∧ activeScans w' = activeScans w ∧ abortedSignals w' = abortedSignals w;
  passive_onComplete : ∀ rs w, ∃ w',
    cb_onComplete cbs rs w = (Ok tt, w')
    ∧ activeScans w' = activeScans w ∧ abortedSignals w' = abortedSignals w }.

(** The signal of controller [c] is not aborted. *)
Definition live (c : nat) (w : World) : Prop := c ∉ abortedSignals w.

(** The options that [startScan] passes to [runScan] when the controller it
    allocates is [abort]. *)
Definition optionsOf (config : ScanConfig) (callbacks : ScanCallbacks) (abort : nat)
    : ScanOptions World :=
  mkOptions (Target.sanitizeTarget (target config)) (cfg_ports config)
    (clampConcurrency (cfg_concurrency config))
    (clampTimeout (length (cfg_ports config)) (cfg_timeout config))
    (cb_onResult callbacks) (cb_onProgress callbacks)
    (completeScan (scanId config) callbacks)
    (Some (λ w, bool_decide (abort ∈ abortedSignals w))).

End ServiceSpec.

Module ProbeRuns.
Import Probe.

(** What holds of the closure of a probe for port [p] that writes
    [payload] on connect, whatever events it has seen. *)
Definition Tidy (p : Z) (payload : option string) (s : State) : Prop :=
  destroyed s = resolved s
  ∧ (resolved s = false → s_banner s = EmptyString ∧ listening s = true ∧ settled s = [])
  ∧ (resolved s = true → listening s = false ∧ dataListener s = None)
  ∧ Forall (λ r, port r = p ∧ (status r = Open ∨ banner r = None)) (settled s)
  ∧ Forall (λ d, payload = Some d) (written s).

(** The same but for the banner, which the ['data'] listener has extended
    when it calls [done]. *)
Definition Loose (p : Z) (payload : option string) (s : State) : Prop :=
  destroyed s = resolved s
  ∧ (resolved s = false → listening s = true ∧ settled s = [])
  ∧ (resolved s = true → listening s = false ∧ dataListener s = None)
  ∧ Forall (λ r, port r = p ∧ (status r = Open ∨ banner r = None)) (settled s)
  ∧ Forall (λ d, payload = Some d) (written s).

(** Bytes read as Latin-1, for the examples. *)
Definition latin1 (bytes : list Byte.byte) : string :=
  string_of_list_ascii (map ascii_of_byte bytes).

End ProbeRuns.

(* ===================================================================== *)
(** * Properties *)
(* ===================================================================== *)

(** ** Risk analyzer *)
Section AIEngineFacts.
Import AIEngine AIEngineSpec.

Lemma scoreOf_severity (s : Severity) :
  scoreOf tables (severityName s) = weight s.
Proof. destruct s; vm_compute; reflexivity. Qed.

Lemma weight_nonneg (s : Severity) : 0 ≤ weight s.
Proof. destruct s; simpl; lia. Qed.

Lemma scoreOf_name (key : string) : scoreOf tables key = weightOfName key.
Proof.
  unfold scoreOf, weightOfName, tables, SEVERITY_SCORES; simpl.
  destruct (String.eqb_spec key "Critical") as [->|H1]; [reflexivity|].
  destruct (String.eqb_spec key "High") as [->|H2]; [reflexivity|].
  destruct (String.eqb_spec key "Medium") as [->|H3]; [reflexivity|].
  destruct (decide (key = "Low")) as [->|H4]; [reflexivity|].
  rewrite !lookup_insert_ne by congruence.
  rewrite lookup_empty. reflexivity.
Qed.

(** The loop, from any value of its two locals. *)
Lemma analyze_fold (ports : list OpenPort) (vs : list Vulnerability) (sc : Z) :
  fold_left (analyze_body tables) ports (vs, sc)
  = (vs ++ map (λ pv, withPort (snd pv) (fst pv)) (present ports),
     sc + weightedSum ports).
Proof.
  revert vs sc.
  induction ports as [|p ports IH]; intros vs sc.
  - unfold weightedSum; simpl. rewrite app_nil_r, Z.add_0_r. reflexivity.
  - cbn [fold_left].
    destruct (analyze_body tables (vs, sc) p) as [vs' sc'] eqn:E.
    rewrite IH. unfold analyze_body in E. unfold weightedSum, present.
    cbn [omap list_omap]. change (t_vuln tables) with VULN_DB in E.
    destruct (VULN_DB !! o_port p) as [v|] eqn:Hv; cbn in E |- *;
      injection E as <- <-.
    + rewrite <- app_assoc. cbn. rewrite scoreOf_severity.
      f_equal. lia.
    + reflexivity.
Qed.

Lemma weightedSum_nonneg (ports : list OpenPort) : 0 ≤ weightedSum ports.
Proof.
  unfold weightedSum.
  induction (present ports) as [|pv l IH]; simpl; [lia|].
  pose proof (weight_nonneg (e_severity (snd pv))). lia.
Qed.

Lemma tone_sound (s : Z) : 0 ≤ s → ToneOf s (tone s).
Proof.
  intros Hs. unfold tone.
  destruct (Z.ltb_spec 70 s); [by constructor|].
  destruct (Z.ltb_spec 40 s); [constructor; lia|].
  destruct (Z.ltb_spec 0 s); [constructor; lia|].
  replace s with 0 by lia. constructor.
Qed.

Lemma analyze_unfold (ports : list OpenPort) :
  analyze ports =
  mkReport (Z.min 100 (weightedSum ports))
    (map (λ pv, withPort (snd pv) (fst pv)) (present ports))
    (headline (Z.min 100 (weightedSum ports)) (length ports)
     +:+ tone (Z.min 100 (weightedSum ports))).
Proof.
  unfold analyze, analyze_in, analyze_loop. rewrite analyze_fold.
  cbn [app]. rewrite Z.add_0_l. reflexivity.
Qed.

(** C6.  For every list of open ports, [analyze] returns as [riskScore] the
    sum of the severity weights (Critical 40, High 25, Medium 15, Low 5, any
    other severity name 5) of the input ports that are in the table, capped
    at 100, so that the score is between 0 and 100; the vulnerabilities are
    one record per input port that is in the table, in input order, and none
    for the others; the summary is the headline followed by the sentence
    selected by the thresholds 70, 40 and 0. *)
Theorem analyze_report (ports : list OpenPort) :
  let r := analyze ports in
  riskScore r = Z.min 100 (weightedSum ports)
  ∧ 0 ≤ riskScore r ≤ 100
  ∧ vulnerabilities r = map (λ pv, withPort (snd pv) (fst pv)) (present ports)
  ∧ (∃ t, summary r = headline (riskScore r) (length ports) +:+ t
          ∧ ToneOf (riskScore r) t)
  ∧ (∀ s, scoreOf tables (severityName s) = weight s)
  ∧ (∀ key, scoreOf tables key = weightOfName key).
Proof.
  intros r. subst r. rewrite analyze_unfold. cbn [riskScore vulnerabilities summary].
  pose proof (weightedSum_nonneg ports) as Hn.
  split; [reflexivity|].
  split; [lia|].
  split; [reflexivity|].
  split.
  - eexists. split; [reflexivity|]. apply tone_sound. lia.
  - split; [apply scoreOf_severity | apply scoreOf_name].
Qed.

(** C7.  For every port number and optional banner, [analyzePort] returns an
    insight and never null: the table entry's severity, title and description
    for a port of the table, and for any other port the Low-risk insight
    titled "Unknown Service (Port <port>)". *)
Theorem analyzePort_total (p : Z) (banner : option string) :
  ∃ ins, analyzePort p banner = Some ins
    ∧ i_port ins = p
    ∧ match VULN_DB !! p with
      | Some v => riskLevel ins = riskOfSeverity (e_severity v)
                  ∧ i_title ins = e_title v ∧ shortDesc ins = e_description v
      | None => riskLevel ins = RLow
                ∧ i_title ins = "Unknown Service (Port " +:+ show p +:+ ")"
                ∧ shortDesc ins = "Open port with unrecognized service."
      end.
Proof.
  unfold analyzePort, analyzePort_in. change (t_vuln tables) with VULN_DB.
  destruct (VULN_DB !! p) as [v|]; eexists; (split; [reflexivity|]); cbn; auto.
Qed.

Lemma present_ports (X Y : list OpenPort) :
  map o_port X = map o_port Y → present X = present Y.
Proof.
  revert Y. induction X as [|x X IH]; intros [|y Y] H; try discriminate; [reflexivity|].
  injection H as Hp Hrest. unfold present in *. cbn [omap list_omap].
  rewrite Hp, (IH Y Hrest). reflexivity.
Qed.

(** C10.  The analyzer reads port numbers only: two inputs with the same
    port numbers in the same order and any banners get the same report, and
    [analyzePort] returns the same insight for a port whatever the banner. *)
Theorem analyzer_ignores_banners (X Y : list OpenPort) :
  map o_port X = map o_port Y →
  analyze X = analyze Y
  ∧ ∀ p b1 b2, analyzePort p b1 = analyzePort p b2.
Proof.
  intros H. split; [|reflexivity].
  rewrite !analyze_unfold. unfold weightedSum.
  rewrite (present_ports X Y H).
  assert (length X = length Y) as ->; [|reflexivity].
  rewrite <- (length_map o_port X), <- (length_map o_port Y). by rewrite H.
Qed.

Lemma analyzer_ignores_banners_witness :
  analyze [mkOpen 21 (Some "220 ftp ready"); mkOpen 9999 None]
  = analyze [mkOpen 21 None; mkOpen 9999 (Some "hello")]
  ∧ ∀ p b1 b2, analyzePort p b1 = analyzePort p b2.
Proof.
  apply (analyzer_ignores_banners
           [mkOpen 21 (Some "220 ftp ready"); mkOpen 9999 None]
           [mkOpen 21 None; mkOpen 9999 (Some "hello")]).
  reflexivity.
Defined.

End AIEngineFacts.

(** ** [analyze] as a call *)
Section StoreFacts.
Import AIEngine AIEngineStore.

(** The loop writes to the array [vulns] and to nothing else; it adds to
    the array and to the score what the loop of [analyze_in] adds. *)
Lemma loop_spec (vulns : nat) (ps : list OpenPort) (score : Z) (s : Store)
    (vs : list Vulnerability) :
  s_vulns s !! vulns = Some vs →
  let '(score', s') := loop vulns ps score s in
  (vs ++ fst (fold_left (analyze_body (tablesOf s)) ps ([], 0)),
   score + snd (fold_left (analyze_body (tablesOf s)) ps ([], 0)))
  = (default [] (s_vulns s' !! vulns), score')
  ∧ s_VULN_DB s' = s_VULN_DB s
  ∧ s_SEVERITY_SCORES s' = s_SEVERITY_SCORES s
  ∧ s_ports s' = s_ports s
  ∧ s_next s' = s_next s
  ∧ ∀ a, a ≠ vulns → s_vulns s' !! a = s_vulns s !! a.
Proof.
  revert score s vs. induction ps as [|p ps IH]; intros score s vs Hvs.
  - cbn. rewrite Hvs, app_nil_r, Z.add_0_r. done.
  - cbn [loop fold_left].
    assert (∀ acc, fold_left (analyze_body (tablesOf s)) ps acc
                   = (fst acc ++ fst (fold_left (analyze_body (tablesOf s)) ps ([], 0)),
                      snd acc + snd (fold_left (analyze_body (tablesOf s)) ps ([], 0))))
      as Hacc.
    { clear. induction ps as [|q ps IHps]; intros [vs sc].
      - cbn. by rewrite app_nil_r, Z.add_0_r.
      - cbn [fold_left]. rewrite IHps. rewrite (IHps (analyze_body _ ([], 0) q)).
        unfold analyze_body. cbn [fst snd].
        destruct (t_vuln (tablesOf s) !! o_port q); cbn [fst snd].
        + rewrite <- !app_assoc. f_equal. lia.
        + rewrite Z.add_0_l. done. }
    rewrite Hacc.
    destruct (s_VULN_DB s !! o_port p) as [vuln|] eqn:Ev.
    + assert (analyze_body (tablesOf s) ([], 0) p
              = ([withPort vuln (o_port p)],
                 0 + default 5 (s_SEVERITY_SCORES s !! severityName (e_severity vuln))))
        as -> by (unfold analyze_body; cbn [tablesOf t_vuln]; by rewrite Ev).
      cbn [fst snd].
      set (s1 := push vulns (withPort vuln (o_port p)) s).
      assert (s_vulns s1 !! vulns = Some (vs ++ [withPort vuln (o_port p)])) as Hvs1.
      { unfold s1, push. cbn [s_vulns]. rewrite lookup_alter_eq, Hvs. done. }
      specialize (IH (score + default 5 (s_SEVERITY_SCORES s1
                                         !! severityName (e_severity vuln))) s1 _ Hvs1).
      destruct (loop vulns ps _ s1) as [score' s'].
      destruct IH as (Heq & H1 & H2 & H3 & H4 & H5).
      change (tablesOf s1) with (tablesOf s) in Heq.
      injection Heq as Hv Hs. split.
      { f_equal.
        - rewrite <- Hv. cbn [app]. by rewrite <- !app_assoc.
        - rewrite <- Hs. lia. }
      do 4 (split; [done|]). intros a Ha. rewrite (H5 a Ha).
      unfold s1, push. cbn [s_vulns]. by rewrite lookup_alter_ne.
    + assert (analyze_body (tablesOf s) ([], 0) p = ([], 0))
        as -> by (unfold analyze_body; cbn [tablesOf t_vuln]; by rewrite Ev).
      cbn [fst snd].
      specialize (IH score s vs Hvs). destruct (loop vulns ps score s) as [score' s'].
      destruct IH as (Heq & H). split; [|done].
      rewrite <- Heq. cbn [app]. by rewrite Z.add_0_l.
Qed.

(** One call: the report is the one that [analyze_in] computes from the
    tables and the elements of the array as the store holds them; its
    vulnerabilities are in an array that did not exist before; nothing that
    existed has changed. *)
Lemma analyze_call (ports : nat) (s : Store) :
  let '(r, s') := analyze ports s in
  report s' r = analyze_in (tablesOf s) (elements ports s)
  ∧ r_vulnerabilities r = s_next s
  ∧ s_next s' = S (s_next s)
  ∧ tablesOf s' = tablesOf s
  ∧ s_ports s' = s_ports s
  ∧ ∀ a, a ≠ s_next s → s_vulns s' !! a = s_vulns s !! a.
Proof.
  unfold analyze, newArray.
  set (s1 := mkStore _ _ _ _ _).
  pose proof (loop_spec (s_next s) (elements ports s1) 0 s1 []) as H.
  specialize (H ltac:(unfold s1; cbn [s_vulns]; by rewrite lookup_insert_eq)).
  destruct (loop (s_next s) (elements ports s1) 0 s1) as [score s2].
  destruct H as (Heq & H1 & H2 & H3 & H4 & H5).
  change (tablesOf s1) with (tablesOf s) in Heq.
  change (elements ports s1) with (elements ports s) in Heq.
  injection Heq as Hv Hs. rewrite Z.add_0_l in Hs. cbn [app] in Hv.
  split.
  { unfold report, analyze_in, analyze_loop. cbn [r_riskScore r_vulnerabilities r_summary].
    destruct (fold_left _ _ _) as [vs sc]. cbn [fst snd] in Hv, Hs. subst.
    unfold elements. rewrite H3. reflexivity. }
  split; [done|]. split; [by rewrite H4|].
  split; [unfold tablesOf; by rewrite H1, H2|]. split; [by rewrite H3|].
  intros a Ha. rewrite (H5 a Ha). unfold s1. cbn [s_vulns]. by rewrite lookup_insert_ne.
Qed.

(** C9.  Two calls of [analyze] with the same array of open ports, one
    after the other, in any store: each returns the report that
    [analyze_in] computes from the elements of the array and the two
    tables, so the two reports are identical in score, vulnerabilities and
    summary; they do not share their array of vulnerabilities, and the
    second call leaves the report of the first as it was; the tables, the
    array of open ports and every array that existed before are unchanged
    after both calls. *)
Theorem analyze_idempotent (s : Store) (ports : nat) (X : list OpenPort) :
  s_ports s !! ports = Some X →
  let '(r1, s1) := analyze ports s in
  let '(r2, s2) := analyze ports s1 in
  report s1 r1 = analyze_in (tablesOf s) X
  ∧ report s2 r2 = report s2 r1
  ∧ report s2 r1 = report s1 r1
  ∧ riskScore (report s2 r1) = riskScore (report s2 r2)
  ∧ vulnerabilities (report s2 r1) = vulnerabilities (report s2 r2)
  ∧ summary (report s2 r1) = summary (report s2 r2)
  ∧ r_vulnerabilities r1 ≠ r_vulnerabilities r2
  ∧ tablesOf s2 = tablesOf s
  ∧ s_ports s2 = s_ports s
  ∧ ∀ a, (a < s_next s)%nat → s_vulns s2 !! a = s_vulns s !! a.
Proof.
  intros HX.
  pose proof (analyze_call ports s) as H1.
  destruct (analyze ports s) as [r1 s1].
  destruct H1 as (Hr1 & Ha1 & Hn1 & Ht1 & Hp1 & Hf1).
  pose proof (analyze_call ports s1) as H2.
  destruct (analyze ports s1) as [r2 s2].
  destruct H2 as (Hr2 & Ha2 & Hn2 & Ht2 & Hp2 & Hf2).
  assert (elements ports s = X) as HeX by (unfold elements; by rewrite HX).
  assert (elements ports s1 = X) as HeX1 by (unfold elements; by rewrite Hp1, HX).
  rewrite HeX in Hr1. rewrite HeX1, Ht1 in Hr2.
  assert (report s2 r1 = report s1 r1) as Hkeep.
  { unfold report. rewrite Hf2; [done|]. rewrite Ha1, Hn1. lia. }
  assert (report s2 r2 = report s2 r1) as Hsame by (by rewrite Hkeep, Hr1, Hr2).
  split; [done|]. split; [done|]. split; [done|].
  rewrite Hsame. do 3 (split; [done|]).
  split; [rewrite Ha1, Ha2, Hn1; lia|].
  split; [by rewrite Ht2, Ht1|]. split; [by rewrite Hp2, Hp1|].
  intros a Ha. rewrite Hf2 by (rewrite Hn1; lia). apply Hf1. lia.
Qed.

Lemma analyze_idempotent_witness :
  let X := [mkOpen 23 None; mkOpen 9999 None; mkOpen 6379 (Some "redis")] in
  let first := analyze 0 (loaded X) in
  let second := analyze 0 (snd first) in
  report (snd second) (fst second) = report (snd second) (fst first)
  ∧ riskScore (report (snd second) (fst second)) = 65
  ∧ r_vulnerabilities (fst first) ≠ r_vulnerabilities (fst second).
Proof.
  intros X first second.
  pose proof (analyze_idempotent (loaded X) 0 X eq_refl) as H.
  fold first in H. destruct first as [r1 s1]. cbn [fst snd] in second.
  fold second in H. destruct second as [r2 s2]. cbn [fst snd].
  destruct H as (Hr1 & Hsame & Hkeep & _ & _ & _ & Hne & _).
  split; [exact Hsame|]. split; [|exact Hne].
  rewrite Hsame, Hkeep, Hr1. vm_compute. reflexivity.
Defined.
End StoreFacts.


(** ** One probe *)
Section ProbeFacts.
Import Probe ProbeSpec.
Variable utf8 : list Byte.byte → string.
Variables (host : string) (p : Z).

Abbreviation handle := (handle utf8 host p).
Abbreviation run := (run utf8 host p).

Lemma handle_settled (s : State) (e : Event) :
  Settled s → Settled (handle s e) ∧ settled (handle s e) = settled s.
Proof.
  intros (Hr & Hl & Hd). unfold Settled.
  destruct e; simpl; rewrite ?Hl, ?Hd; auto.
  destruct (bannerTimer s); [|auto].
  unfold done; simpl. rewrite Hr. simpl. auto.
Qed.

Lemma run_settled (s : State) (es : list Event) :
  Settled s → Settled (run s es) ∧ settled (run s es) = settled s.
Proof.
  revert s. induction es as [|e es IH]; intros s Hs; [done|].
  destruct (handle_settled s e Hs) as [Hs' Heq].
  destruct (IH _ Hs') as [Hs'' Heq']. simpl. split; [done | congruence].
Qed.

Lemma done_fresh (st : Status) (dur : option Z) (now : Z) (s : State) :
  resolved s = false →
  Settled (done p st dur now s)
  ∧ settled (done p st dur now s)
    = mkResult p st (default (now - start s) dur) (bannerField (s_banner s)) :: settled s.
Proof. intros Hr. unfold done, Settled. rewrite Hr. simpl. auto. Qed.

Lemma isRefusedOrReset_spec (code : option string) :
  (if isRefusedOrReset code then Closed else Filtered) = statusOfError code.
Proof.
  unfold statusOfError, isRefusedOrReset. case_bool_decide as H.
  - destruct H as [->| ->]; reflexivity.
  - destruct code as [c|]; [|done].
    destruct (String.eqb_spec c "ECONNREFUSED") as [->|_]; [exfalso; auto|].
    destruct (String.eqb_spec c "ECONNRESET") as [->|_]; [exfalso; auto|].
    reflexivity.
Qed.

Lemma handle_once (s : State) (e : Event) : Once s → Once (handle s e).
Proof.
  intros [[Hr Hs]|[Hd Hl]].
  - destruct e; simpl.
    + destruct (listening s); left; simpl; auto.
    + destruct (dataListener s); [|by left].
      right. edestruct done_fresh as [H1 H2]; [|split; [exact H1|rewrite H2]]; simpl; [done|].
      by rewrite Hs.
    + destruct (bannerTimer s); [|by left].
      right. edestruct done_fresh as [H1 H2]; [|split; [exact H1|rewrite H2]]; simpl; [done|].
      by rewrite Hs.
    + destruct (listening s); [|by left].
      right. edestruct done_fresh as [H1 H2]; [|split; [exact H1|rewrite H2]]; simpl; [done|].
      by rewrite Hs.
    + destruct (listening s); [|by left].
      right. destruct (isRefusedOrReset code);
      (edestruct done_fresh as [H1 H2]; [|split; [exact H1|rewrite H2]]; simpl; [done|]);
      by rewrite Hs.
  - right. destruct (handle_settled s e Hd) as [H1 H2]. split; [done | congruence].
Qed.

Lemma run_once (s : State) (es : list Event) : Once s → Once (run s es).
Proof.
  revert s. induction es as [|e es IH]; intros s Hs; [done|].
  simpl. apply IH. by apply handle_once.
Qed.

Lemma take_chunk (chunk : list Byte.byte) :
  take (Z.to_nat (Z.min (Z.of_nat (length chunk)) 256)) chunk = take 256 chunk.
Proof.
  destruct (Z.min_spec (Z.of_nat (length chunk)) 256) as [[H ->]|[H ->]].
  - rewrite Nat2Z.id. rewrite !take_ge; [done| lia | lia].
  - reflexivity.
Qed.

(** The outcome of a run that starts by settling. *)
Lemma outcome_after (s : State) (es : list Event) (r : PortResult) :
  Settled s → settled s = [r] → outcome (run s es) = Some r.
Proof.
  intros Hs Hr. destruct (run_settled s es Hs) as [_ Heq].
  unfold outcome. by rewrite Heq, Hr.
Qed.

Lemma substring_length (n : nat) (s : string) :
  (String.length (String.substring 0 n s) ≤ n)%nat.
Proof.
  revert s. induction n as [|n IH]; intros [|c s]; simpl; try lia.
  specialize (IH s). lia.
Qed.

Lemma bannerField_short (b b' : string) :
  bannerField b = Some b' → (String.length b' ≤ 256)%nat.
Proof.
  unfold bannerField. destruct (String.eqb _ _); [discriminate|].
  intros [= <-]. apply substring_length.
Qed.

(** C3, as the code has it.  A probe resolves at most once.  Its result is
    that of the first event that ends it: an error with code ECONNREFUSED or
    ECONNRESET gives closed and any other error gives filtered, before the
    connection is established or after it; a timeout before the connection
    is established gives filtered; after the connection is established, the
    first chunk of data gives open with the first 256 bytes of the chunk,
    decoded and cut to 256 characters, as banner (none when that is empty),
    and the expiry of the banner timer gives open without banner.  Events
    that follow change nothing. *)
Theorem probe_classification (start : Z) :
  (∀ es, (length (settled (run (init start) es)) ≤ 1)%nat)
  ∧ (∀ code now es,
       scanPort utf8 host p start (Error code now :: es)
       = Some (mkResult p (statusOfError code) (now - start) None))
  ∧ (∀ now es,
       scanPort utf8 host p start (Timeout now :: es)
       = Some (mkResult p Filtered (now - start) None))
  ∧ (∀ t chunk now es,
       scanPort utf8 host p start (Connect t :: Data chunk now :: es)
       = Some (mkResult p Open (t - start) (bannerField (utf8 (take 256 chunk)))))
  ∧ (∀ t now es,
       scanPort utf8 host p start (Connect t :: BannerTimer now :: es)
       = Some (mkResult p Open (t - start) None))
  ∧ (∀ t code now es,
       scanPort utf8 host p start (Connect t :: Error code now :: es)
       = Some (mkResult p (statusOfError code) (now - start) None))
  ∧ (∀ b b', bannerField b = Some b' → (String.length b' ≤ 256)%nat).
Proof.
  repeat split.
  - intros es. destruct (run_once (init start) es) as [[_ ->]|[_ ->]]; simpl; auto.
    left. done.
  - intros code now es. unfold scanPort, Probe.run. cbn [fold_left].
    rewrite <- isRefusedOrReset_spec.
    apply outcome_after; cbn -[isRefusedOrReset];
      destruct (isRefusedOrReset code); done.
  - intros now es. unfold scanPort, Probe.run. cbn [fold_left].
    apply outcome_after; done.
  - intros t chunk now es. unfold scanPort, Probe.run. cbn [fold_left].
    apply outcome_after; cbn; rewrite ?take_chunk; done.
  - intros t now es. unfold scanPort, Probe.run. cbn [fold_left].
    apply outcome_after; done.
  - intros t code now es. unfold scanPort, Probe.run. cbn [fold_left].
    rewrite <- isRefusedOrReset_spec.
    apply outcome_after; cbn -[isRefusedOrReset];
      destruct (isRefusedOrReset code); done.
  - apply bannerField_short.
Qed.

End ProbeFacts.

Section ProbeCounterexample.
Import Probe ProbeSpec.

(** C3, as the design document has it, fails: a connection that is
    established and then reset by the peer is classified closed. *)
Lemma connect_then_reset_is_closed : ¬ connectMeansOpen.
Proof.
  intros H.
  specialize (H (λ _, EmptyString) "example.com" 8081 0 5
                [Error (Some "ECONNRESET") 7]
                (mkResult 8081 Closed 7 None) eq_refl).
  discriminate H.
Qed.

(** The ['timeout'] listener too stays attached after the connection is
    established: a socket timeout that fires before the banner timer makes
    the probe filtered. *)
Lemma connect_then_timeout_is_filtered :
  scanPort (λ _, EmptyString) "example.com" 8081 0 [Connect 5; Timeout 305; BannerTimer 405]
  = Some (mkResult 8081 Filtered 305 None).
Proof. reflexivity. Qed.
End ProbeCounterexample.

(** ** The promise pool *)
Section PoolFacts.
Import PortQueue PortQueueSpec.
Context {W : Type}.
Variable o : ScanOptions W.

Lemma hoare_bind {A B} (P Q : Locals → Prop) (m : M W A) (k : A → M W B) :
  hoare (W:=W) P m Q → (∀ a, hoare (W:=W) Q (k a) Q) → hoare (W:=W) P (m ≫= k) Q.
Proof.
  intros Hm Hk l w r l' w' HP. unfold mbind, M_bind.
  destruct (m (l, w)) as [[a|e] [l1 w1]] eqn:Em.
  - intros Hk'. eapply Hk; [|exact Hk']. eapply Hm; eauto.
  - intros [= <- <- <-]. eapply Hm; eauto.
Qed.

Lemma hoare_ret {A} (P : Locals → Prop) (a : A) : hoare (W:=W) P (ret a) P.
Proof. intros l w r l' w' HP [= <- <- <-]. done. Qed.

Lemma hoare_getL (P : Locals → Prop) : hoare (W:=W) P getL P.
Proof. intros l w r l' w' HP [= <- <- <-]. done. Qed.

Lemma hoare_readW {A} (P : Locals → Prop) (f : W → A) : hoare (W:=W) P (readW f) P.
Proof. intros l w r l' w' HP [= <- <- <-]. done. Qed.

Lemma hoare_modL (P Q : Locals → Prop) (f : Locals → Locals) :
  (∀ l, P l → Q (f l)) → hoare (W:=W) P (modL f) Q.
Proof. intros Hf l w r l' w' HP [= <- <- <-]. by apply Hf. Qed.

Lemma hoare_invoke (P : Locals → Prop) (c : Call) :
  (∀ l, P l → P (mkLocals (results l) (scanned l) (index l) (lastProgressTime l)
                   (inflight l) (promiseResolved l) (invoked l ++ [c]))) →
  hoare (W:=W) P (invoke o c) P.
Proof.
  intros Hc l w r l' w' HP. unfold invoke. cbn [fst snd].
  destruct c; (destruct (_ : result unit * W)); intros [= <- <- <-]; by apply Hc.
Qed.

Lemma launchLoop_Inv (fuel : nat) (l : Locals) : Inv o l → Inv o (launchLoop o fuel l).
Proof.
  revert l. induction fuel as [|fuel IH]; intros l Hl; [done|].
  simpl. destruct (mayLaunch o l) eqn:Hm; [|done].
  apply IH. unfold mayLaunch in Hm. apply andb_true_iff in Hm as [Hlt _].
  apply Nat.ltb_lt in Hlt. destruct Hl as (Hnd & Hall & Hsum & Hle).
  unfold Inv, launch1; simpl. repeat split.
  - apply NoDup_app. split; [done|]. split; [|apply NoDup_singleton].
    intros x Hx Hx'. apply list_elem_of_singleton in Hx' as ->.
    rewrite Forall_forall in Hall. specialize (Hall _ Hx). lia.
  - apply Forall_app. split.
    + eapply Forall_impl; [exact Hall|]. simpl. intros; lia.
    + constructor; [lia | constructor].
  - rewrite length_app. simpl. lia.
  - lia.
Qed.

(** The invariant does not look at the record of invocations, at the
    results or at the promise. *)
Lemma Inv_irrelevant (l : Locals) rs t pr inv :
  Inv o l → Inv o (mkLocals rs (scanned l) (index l) t (inflight l) pr inv).
Proof. done. Qed.

Lemma invoke_Inv (c : Call) : hoare (W:=W) (Inv o) (invoke o c) (Inv o).
Proof. apply hoare_invoke. intros l Hl. by apply Inv_irrelevant. Qed.

Lemma resolve_Inv : hoare (W:=W) (Inv o) (resolve (W:=W)) (Inv o).
Proof. apply hoare_modL. intros l Hl. by apply Inv_irrelevant. Qed.

Lemma complete_Inv (rs : list PortResult) :
  hoare (W:=W) (Inv o) (invoke o (OnComplete rs);; resolve) (Inv o).
Proof. apply hoare_bind; [apply invoke_Inv | intros _; apply resolve_Inv]. Qed.

Lemma next_Inv : hoare (W:=W) (Inv o) (next o) (Inv o).
Proof.
  unfold next. apply hoare_bind; [apply hoare_readW|]. intros a.
  apply hoare_bind; [apply hoare_getL|]. intros l0.
  destruct a.
  - destruct (_ || _); [apply complete_Inv | apply hoare_ret].
  - apply hoare_modL. intros l. apply launchLoop_Inv.
Qed.

Lemma incrScanned_Inv : hoare (W:=W) (InvSettling o) (incrScanned (W:=W)) (Inv o).
Proof.
  apply hoare_modL. intros l (H1 & H2 & H3 & H4). unfold Inv; simpl.
  repeat split; try done; lia.
Qed.

Lemma onSettled_Inv (r : PortResult) (now : Z) :
  hoare (W:=W) (InvSettling o) (onSettled o r now) (Inv o).
Proof.
  unfold onSettled.
  intros l w res l' w' HP. unfold mbind at 1, M_bind at 1.
  unfold aborted, readW. cbn [fst snd].
  destruct (isAborted o w).
  - revert l w res l' w' HP. apply hoare_bind; [apply incrScanned_Inv|]. intros _.
    apply hoare_bind; [apply hoare_getL|]. intros l0.
    destruct (_ <=? _)%nat; [apply complete_Inv | apply hoare_ret].
  - revert l w res l' w' HP. apply hoare_bind; [apply incrScanned_Inv|]. intros _.
    apply hoare_bind.
    { apply hoare_modL. intros l Hl. by apply Inv_irrelevant. }
    intros _. apply hoare_bind; [apply invoke_Inv|]. intros _.
    apply hoare_bind; [apply hoare_getL|]. intros l0.
    apply hoare_bind.
    { destruct (_ || _); [|apply hoare_ret].
      apply hoare_bind; [|intros _; apply invoke_Inv].
      apply hoare_modL. intros l Hl. by apply Inv_irrelevant. }
    intros _. apply hoare_bind; [apply hoare_getL|]. intros l1.
    destruct (_ <=? _)%nat; [apply complete_Inv | apply next_Inv].
Qed.

Lemma filter_ne_length (i : nat) (l : list nat) :
  NoDup l → i ∈ l → S (length (filter (λ j, j ≠ i) l)) = length l.
Proof.
  induction 1 as [|x l Hx Hnd IH]; intros Hi.
  - by apply not_elem_of_nil in Hi.
  - rewrite filter_cons. destruct (decide (x ≠ i)) as [Hne|Heq].
    + apply elem_of_cons in Hi as [->|Hi]; [done|]. simpl. f_equal. by apply IH.
    + assert (x = i) as -> by (destruct (decide (x = i)); [done | by exfalso]).
      simpl. f_equal.
      assert (filter (λ j, j ≠ i) l = l) as ->; [|done].
      clear IH Hi Hnd Heq. induction l as [|y l IH]; [done|].
      rewrite filter_cons. apply not_elem_of_cons in Hx as [Hy Hx].
      rewrite decide_True by done. f_equal. by apply IH.
Qed.

Lemma settling_Inv (i : nat) (l : Locals) :
  Inv o l → i ∈ inflight l →
  InvSettling o (mkLocals (results l) (scanned l) (index l) (lastProgressTime l)
                 (filter (λ j, j ≠ i) (inflight l)) (promiseResolved l) (invoked l)).
Proof.
  intros (Hnd & Hall & Hsum & Hle) Hi. unfold InvSettling; simpl.
  pose proof (filter_ne_length i _ Hnd Hi).
  repeat split; [by apply NoDup_filter | | lia | done].
  apply Forall_forall. intros x Hx. apply list_elem_of_filter in Hx as [_ Hx].
  rewrite Forall_forall in Hall. by apply Hall.
Qed.

(** Every turn of the event loop keeps the invariant. *)
Lemma settle_Inv (e : Settlement) (l l' : Locals) (w w' : W) (res : result unit) :
  Inv o l → settle o e l w = Some (res, l', w') → Inv o l'.
Proof.
  intros Hl. unfold settle. case_bool_decide as Hi; [|discriminate].
  destruct (onSettled _ _ _ _) as [res0 [l2 w2]] eqn:E. intros [= <- <- <-].
  eapply onSettled_Inv; [|exact E]. by apply settling_Inv.
Qed.

Lemma repeatNext_Inv (n : nat) : hoare (W:=W) (Inv o) (repeatNext o n) (Inv o).
Proof.
  induction n as [|n IH]; simpl; [apply hoare_ret|].
  apply hoare_bind; [apply next_Inv | intros _; apply IH].
Qed.

Lemma runScan_Inv (scanStart : Z) (w w' : W) (pr : Promise) (l : Locals) :
  runScan o scanStart w = (pr, l, w') → Inv o l.
Proof.
  unfold runScan. destruct (executor _ _) as [r [l0 w0]] eqn:E. intros [= _ <- _].
  assert (hoare (W:=W) (Inv o) (executor o) (Inv o)) as H.
  { unfold executor. apply hoare_bind; [apply repeatNext_Inv|]. intros _.
    destruct (_ =? _)%nat; [|apply hoare_ret].
    apply hoare_bind; [apply hoare_getL|]. intros l1. apply complete_Inv. }
  eapply H; [|exact E]. unfold Inv, initLocals; simpl.
  repeat split; [constructor | constructor | lia].
Qed.

(** The continuation of a probe that settles after the signal was aborted,
    while ports remain that were never launched: it counts the probe and
    does nothing else. *)
Lemma onSettled_aborted (r : PortResult) (now : Z) (l : Locals) (w : W) :
  isAborted o w = true →
  (S (scanned l) < total o)%nat →
  onSettled o r now (l, w)
  = (Ok tt,
     (mkLocals (results l) (S (scanned l)) (index l) (lastProgressTime l)
        (inflight l) (promiseResolved l) (invoked l), w)).
Proof.
  intros Ha Hlt. unfold onSettled, aborted, readW, mbind, M_bind.
  cbn [fst snd]. rewrite Ha.
  unfold incrScanned, getL, modL. cbn [fst snd scanned].
  destruct (Nat.leb_spec (total o) (S (scanned l))); [lia|]. reflexivity.
Qed.


(** After the signal was aborted with ports never launched, the probes in
    flight settle one after the other and nothing else happens: no callback
    is invoked, [resolve] is not called, the world is as it was. *)
Lemma settleAll_aborted (es : list Settlement) (l l' : Locals) (w w' : W)
    (errs : list string) :
  isAborted o w = true →
  Inv o l →
  (index l < total o)%nat →
  settleAll o es l w = Some (errs, l', w') →
  w' = w ∧ errs = []
  ∧ invoked l' = invoked l
  ∧ promiseResolved l' = promiseResolved l
  ∧ results l' = results l
  ∧ index l' = index l
  ∧ (scanned l' = scanned l + length es)%nat
  ∧ Inv o l'.
Proof.
  intros Ha. revert l errs. induction es as [|e es IH]; intros l errs Hl Hlt.
  - intros [= <- <- <-]. do 6 (split; [done|]). split; [simpl; lia | done].
  - cbn [settleAll]. destruct (settle o e l w) as [[[res l1] w1]|] eqn:E; [|discriminate].
    pose proof (settle_Inv e l l1 w w1 res Hl E) as Hl1.
    unfold settle in E. case_bool_decide as Hi; [|discriminate].
    destruct Hl as (Hnd & Hall & Hsum & Hle).
    pose proof (filter_ne_length _ _ Hnd Hi) as Hlen.
    rewrite onSettled_aborted in E; [|done|cbn [scanned]; lia].
    injection E as <- <- <-.
    destruct (settleAll o es _ w) as [[[errs2 l2] w2]|] eqn:E2; [|discriminate].
    intros [= <- <- <-].
    destruct (IH _ _ Hl1 Hlt E2) as (-> & -> & H1 & H2 & H3 & H4 & H5 & H6).
    simpl in *. do 6 (split; [done|]). split; [lia | done].
Qed.

(** The fuel of [launchLoop] is enough: the loop stops because its
    condition is false. *)
Lemma launchLoop_exits (fuel : nat) (l : Locals) :
  (total o - index l ≤ fuel)%nat → mayLaunch o (launchLoop o fuel l) = false.
Proof.
  revert l. induction fuel as [|fuel IH]; intros l Hf; simpl.
  - unfold mayLaunch. destruct (Nat.ltb_spec (index l) (total o)); [lia | done].
  - destruct (mayLaunch o l) eqn:Hm; [|done].
    apply IH. unfold mayLaunch in Hm. apply andb_true_iff in Hm as [Hlt _].
    apply Nat.ltb_lt in Hlt. simpl. lia.
Qed.

(** After the signal was aborted, the continuation of a probe launches
    nothing and delivers nothing: it counts the probe, and calls
    [onComplete] with the results as they are when the count has reached
    [total]. *)
Lemma onSettled_aborted_step (r : PortResult) (now : Z) (l l' : Locals) (w w' : W)
    (res : result unit) :
  isAborted o w = true →
  onSettled o r now (l, w) = (res, (l', w')) →
  index l' = index l ∧ inflight l' = inflight l ∧ results l' = results l
  ∧ scanned l' = S (scanned l)
  ∧ (((S (scanned l) < total o)%nat ∧ invoked l' = invoked l ∧ w' = w ∧ res = Ok tt)
     ∨ ((total o ≤ S (scanned l))%nat
        ∧ invoked l' = invoked l ++ [OnComplete (results l)]
        ∧ (res, w') = onComplete o (results l) w)).
Proof.
  intros Ha. unfold onSettled, aborted, readW, mbind, M_bind.
  cbn [fst snd]. rewrite Ha.
  unfold incrScanned, getL, modL. cbn [fst snd scanned results].
  destruct (Nat.leb_spec (total o) (S (scanned l))) as [Hle|Hlt].
  - unfold invoke, resolve, modL. cbn [fst snd].
    destruct (onComplete o (results l) w) as [[[]|err] w1];
      intros [= <- <- <-]; simpl; repeat split; right; auto.
  - intros [= <- <- <-]. simpl. repeat split. left. auto.
Qed.

(** When the signal is not aborted and [onResult] throws, the continuation
    stops there: the result is counted and stored, and neither
    [onProgress], nor [onComplete], nor [next] runs. *)
Lemma onSettled_onResult_throws (r : PortResult) (now : Z) (l : Locals) (w w1 : W)
    (err : string) :
  isAborted o w = false →
  onResult o r w = (Throw err, w1) →
  onSettled o r now (l, w)
  = (Throw err,
     (mkLocals (results l ++ [r]) (S (scanned l)) (index l) (lastProgressTime l)
        (inflight l) (promiseResolved l) (invoked l ++ [OnResult r]), w1)).
Proof.
  intros Ha Hr. unfold onSettled, aborted, readW, mbind, M_bind.
  cbn [fst snd]. rewrite Ha.
  unfold incrScanned, pushResult, invoke, modL. cbn [fst snd]. rewrite Hr.
  reflexivity.
Qed.
(** After the signal was aborted with every port launched, the probes in
    flight settle, and the continuation of the last one calls [onComplete]
    with the results accepted before the abort; that is the only callback
    invoked. *)
Lemma settleAll_aborted_drain (es : list Settlement) (l l' : Locals) (w w' : W)
    (errs : list string) :
  isAborted o w = true →
  Inv o l →
  index l = total o →
  length es = length (inflight l) →
  es ≠ [] →
  settleAll o es l w = Some (errs, l', w') →
  invoked l' = invoked l ++ [OnComplete (results l)]
  ∧ results l' = results l
  ∧ index l' = index l
  ∧ inflight l' = [].
Proof.
  intros Ha. revert l errs.
  induction es as [|e es IH]; intros l errs Hl Hall Hlen Hne; [done|].
  cbn [settleAll]. destruct (settle o e l w) as [[[res l1] w1]|] eqn:E; [|discriminate].
  pose proof (settle_Inv e l l1 w w1 res Hl E) as Hl1.
  unfold settle in E. case_bool_decide as Hi; [|discriminate].
  destruct (onSettled _ _ _ _) as [res0 [l2 w2]] eqn:Es. injection E as -> -> ->.
  destruct (onSettled_aborted_step _ _ _ _ _ _ _ Ha Es)
    as (Hx & Hf & Hr & Hsc & Hcase).
  cbn [index inflight results scanned invoked] in Hx, Hf, Hr, Hsc, Hcase.
  destruct Hl as (Hnd & _ & Hsum & _).
  pose proof (filter_ne_length _ _ Hnd Hi) as Hflen.
  destruct es as [|e' es].
  - intros [= <- <- <-]. simpl in Hlen.
    destruct Hcase as [(Hlt & _)|(_ & Hinv & _)]; [lia|].
    rewrite Hinv, Hr, Hx, Hf. repeat split.
    apply length_zero_iff_nil. lia.
  - simpl in Hlen.
    destruct Hcase as [(_ & Hinv & -> & _)|(Hge & _)]; [|lia].
    destruct (settleAll o (e' :: es) l1 w) as [[[errs2 l3] w3]|] eqn:E2; [|discriminate].
    intros [= <- <- <-].
    destruct (IH l1 errs2 Hl1) as (H1 & H2 & H3 & H4); try done.
    + congruence.
    + rewrite Hf. simpl. lia.
    + rewrite H1, H2, H3, Hinv, Hr, Hx. done.
Qed.
End PoolFacts.

(** ** Regular expressions *)
Section RegexFacts.
Import Regex16.

Lemma matches_nil_seq a b : matches (Seq a b) [] → matches a [] ∧ matches b [].
Proof.
  intros H. inversion H as [| |a' b' s t Ha Hb Hr Hs| | | |]; subst.
  apply app_eq_nil in Hs as [-> ->]. auto.
Qed.

Lemma nullable_matches (r : re) : nullable r = true ↔ matches r [].
Proof.
  induction r as [| |p|a IHa b IHb|a IHa b IHb|a IHa]; simpl.
  - split; [discriminate|]. intros H; inversion H.
  - split; [constructor|reflexivity].
  - split; [discriminate|]. intros H; inversion H.
  - rewrite andb_true_iff, IHa, IHb. split.
    + intros [Ha Hb]. change (@nil N) with (@nil N ++ []). by constructor.
    + apply matches_nil_seq.
  - rewrite orb_true_iff, IHa, IHb. split.
    + intros [H|H]; [by apply m_alt_l | by apply m_alt_r].
    + intros H; inversion H; subst; auto.
  - split; [constructor|reflexivity].
Qed.

Lemma matches_seq_inv a b s :
  matches (Seq a b) s ↔ ∃ s1 s2, s = s1 ++ s2 ∧ matches a s1 ∧ matches b s2.
Proof.
  split.
  - intros H; inversion H; subst; eauto.
  - intros (s1 & s2 & -> & Ha & Hb). by constructor.
Qed.

Lemma matches_alt_inv a b s : matches (Alt a b) s ↔ matches a s ∨ matches b s.
Proof.
  split.
  - intros H; inversion H; subst; auto.
  - intros [H|H]; [by apply m_alt_l | by apply m_alt_r].
Qed.

Lemma matches_eps_inv s : matches Eps s ↔ s = [].
Proof. split; [intros H; by inversion H | intros ->; constructor]. Qed.

Lemma matches_void_inv s : matches Void s ↔ False.
Proof. split; [intros H; inversion H | tauto]. Qed.

Lemma matches_class_inv p s : matches (Class p) s ↔ ∃ c, s = [c] ∧ p c = true.
Proof.
  split.
  - intros H; inversion H; subst; eauto.
  - intros (c & -> & Hc). by constructor.
Qed.

Lemma matches_opt_inv a s : matches (Opt a) s ↔ matches a s ∨ s = [].
Proof. unfold Opt. by rewrite matches_alt_inv, matches_eps_inv. Qed.

(** A non-empty string of [a*] starts with a non-empty string of [a]. *)
Lemma matches_star_cons a c s :
  matches (Star a) (c :: s) →
  ∃ s1 s2, s = s1 ++ s2 ∧ matches a (c :: s1) ∧ matches (Star a) s2.
Proof.
  intros H. remember (Star a) as r eqn:Hr. remember (c :: s) as u eqn:Hu.
  induction H as [| | | | | |a' s1 s2 H1 _ H2 IH2]; try discriminate.
  injection Hr as ->. destruct s1 as [|d s1]; simpl in Hu.
  - by apply IH2.
  - injection Hu as <- <-. eauto.
Qed.

Lemma deriv_matches (r : re) (c : N) (s : list N) :
  matches (deriv c r) s ↔ matches r (c :: s).
Proof.
  revert s. induction r as [| |p|a IHa b IHb|a IHa b IHb|a IHa]; intros s; simpl.
  - split; intros H; inversion H.
  - split; intros H; inversion H.
  - destruct (p c) eqn:Hp.
    + rewrite matches_eps_inv, matches_class_inv. split.
      * intros ->. eauto.
      * intros (d & [= -> ->] & _). reflexivity.
    + rewrite matches_void_inv, matches_class_inv. split; [tauto|].
      intros (d & [= -> ->] & Hd). congruence.
  - assert (matches (Seq (deriv c a) b) s ∨ (matches a [] ∧ matches (deriv c b) s)
            ↔ matches (Seq a b) (c :: s)) as Hseq.
    { rewrite !matches_seq_inv. split.
      - intros [(s1 & s2 & -> & H1 & H2)|[Hn Hb]].
        + exists (c :: s1), s2. rewrite <- IHa. auto.
        + exists [], (c :: s). rewrite <- IHb. auto.
      - intros (s1 & s2 & Hs & H1 & H2). destruct s1 as [|d s1]; simpl in Hs.
        + subst s2. right. rewrite IHb. auto.
        + injection Hs as <- ->. left. exists s1, s2. rewrite IHa. auto. }
    destruct (nullable a) eqn:Hn.
    + rewrite matches_alt_inv, <- Hseq.
      apply nullable_matches in Hn. tauto.
    + rewrite <- Hseq. split; [tauto|]. intros [H|[H _]]; [done|].
      apply nullable_matches in H. congruence.
  - by rewrite !matches_alt_inv, IHa, IHb.
  - rewrite matches_seq_inv. split.
    + intros (s1 & s2 & -> & H1 & H2). apply IHa in H1.
      change (c :: s1 ++ s2) with ((c :: s1) ++ s2). by constructor.
    + intros H. apply matches_star_cons in H as (s1 & s2 & -> & H1 & H2).
      exists s1, s2. by rewrite IHa.
Qed.

Lemma test_spec (r : re) (s : list N) : test r s = true ↔ matches r s.
Proof.
  unfold test. revert r.
  induction s as [|c s IH]; intros r; simpl.
  - apply nullable_matches.
  - by rewrite IH, deriv_matches.
Qed.

(** Strings of [p{0,n}], [p{n}] and [p{lo,hi}] for a character class [p]. *)
Lemma matches_upto_class p n s :
  matches (Upto n (Class p)) s ↔ (length s ≤ n)%nat ∧ Forall (λ c, p c = true) s.
Proof.
  revert s. induction n as [|n IH]; intros s; simpl.
  - rewrite matches_eps_inv. split.
    + intros ->. split; [simpl; lia | constructor].
    + intros [H _]. destruct s; [done | simpl in H; lia].
  - rewrite matches_opt_inv, matches_seq_inv. split.
    + intros [(s1 & s2 & -> & H1 & H2)| ->].
      * apply matches_class_inv in H1 as (c & -> & Hc). apply IH in H2 as [Hl Hf].
        split; [simpl; lia | by constructor].
      * split; [simpl; lia | constructor].
    + intros [Hl Hf]. destruct s as [|c s]; [by right|left].
      exists [c], s. inversion Hf; subst. simpl in Hl.
      split; [done|]. split; [by constructor|]. apply IH. split; [lia|done].
Qed.

Lemma matches_exactly_class p n s :
  matches (Exactly n (Class p)) s ↔ length s = n ∧ Forall (λ c, p c = true) s.
Proof.
  revert s. induction n as [|n IH]; intros s; simpl.
  - rewrite matches_eps_inv. split.
    + intros ->. split; [done | constructor].
    + intros [H _]. by destruct s.
  - rewrite matches_seq_inv. split.
    + intros (s1 & s2 & -> & H1 & H2).
      apply matches_class_inv in H1 as (c & -> & Hc). apply IH in H2 as [Hl Hf].
      split; [simpl; lia | by constructor].
    + intros [Hl Hf]. destruct s as [|c s]; [discriminate|].
      exists [c], s. inversion Hf; subst. simpl in Hl.
      split; [done|]. split; [by constructor|]. apply IH. split; [lia|done].
Qed.

Lemma matches_rep_class p lo hi s :
  (lo ≤ hi)%nat →
  matches (Rep lo hi (Class p)) s
  ↔ (lo ≤ length s ≤ hi)%nat ∧ Forall (λ c, p c = true) s.
Proof.
  intros Hle. unfold Rep. rewrite matches_seq_inv. split.
  - intros (s1 & s2 & -> & H1 & H2).
    apply matches_exactly_class in H1 as [Hl1 Hf1].
    apply matches_upto_class in H2 as [Hl2 Hf2].
    rewrite length_app. split; [lia | by apply Forall_app].
  - intros [Hl Hf]. exists (take lo s), (drop lo s).
    split; [by rewrite take_drop|].
    rewrite <- (take_drop lo s) in Hf. apply Forall_app in Hf as [Hf1 Hf2].
    split.
    + apply matches_exactly_class. split; [rewrite length_take; lia | done].
    + apply matches_upto_class. split; [rewrite length_drop; lia | done].
Qed.

Lemma matches_star_inv a s :
  matches (Star a) s ↔ ∃ ss, s = concat ss ∧ Forall (matches a) ss.
Proof.
  split.
  - intros H. remember (Star a) as r eqn:Hr.
    induction H as [| | | | |a'|a' s1 s2 H1 _ H2 IH2]; try discriminate.
    + exists []. split; [done | constructor].
    + injection Hr as ->. destruct (IH2 eq_refl) as (ss & -> & Hss).
      exists (s1 :: ss). split; [done | by constructor].
  - intros (ss & -> & Hss). induction Hss as [|x ss Hx _ IH]; simpl.
    + constructor.
    + by constructor.
Qed.

End RegexFacts.

(** ** The target *)
Section TargetFacts.
Import Regex16 Target16 TargetSpec.

Lemma digit_spec (c : N) : digit c = true ↔ (48 ≤ c ≤ 57)%N.
Proof. unfold digit. rewrite andb_true_iff, !N.leb_le. done. Qed.

Lemma alnum_spec (c : N) : alnum c = true ↔ letterOrDigit c.
Proof.
  unfold alnum, letterOrDigit. rewrite !orb_true_iff, !andb_true_iff, !N.leb_le. tauto.
Qed.

Lemma alnumHyphen_spec (c : N) : alnumHyphen c = true ↔ labelChar c.
Proof.
  unfold alnumHyphen, labelChar. by rewrite orb_true_iff, alnum_spec, N.eqb_eq.
Qed.

Lemma Forall_class (p : N → bool) (Q : N → Prop) (s : list N) :
  (∀ c, p c = true ↔ Q c) → Forall (λ c, p c = true) s ↔ Forall Q s.
Proof. intros H. apply Forall_iff. exact H. Qed.

Lemma group_rep (g : list N) : matches (Rep 1 3 (Class digit)) g ↔ group g.
Proof.
  rewrite matches_rep_class by lia. unfold group.
  by rewrite (Forall_class digit _ g digit_spec).
Qed.

Lemma dot_char (s : list N) : matches (Class dot) s ↔ s = [unitOf "."].
Proof.
  rewrite matches_class_inv. unfold dot. split.
  - intros (c & -> & Hc). apply N.eqb_eq in Hc. by subst.
  - intros ->. exists (unitOf "."). split; [done|]. apply N.eqb_refl.
Qed.

Lemma ipv4_shape (s : list N) : matches ipv4 s ↔ IPv4Shape s.
Proof.
  unfold ipv4, IPv4Shape. split.
  - intros H.
    do 6 (apply matches_seq_inv in H as (? & ? & -> & ? & H)).
    repeat match goal with
           | h : matches (Class dot) _ |- _ => apply dot_char in h; subst
           | h : matches (Rep 1 3 _) _ |- _ => apply group_rep in h
           end.
    do 4 eexists. split; [simpl; reflexivity|]. auto.
  - intros (a & b & c & d & -> & Ha & Hb & Hc & Hd).
    apply group_rep in Ha, Hb, Hc, Hd.
    repeat first
      [ done
      | apply (m_seq _ _ [unitOf "."]); [by apply dot_char|]
      | apply m_seq ].
Qed.

Lemma label_shape (l : list N) : matches label l ↔ labelOk l.
Proof.
  unfold label, labelOk.
  rewrite matches_seq_inv. split.
  - intros (s1 & s2 & -> & H1 & H2).
    apply matches_class_inv in H1 as (c & -> & Hc). apply alnum_spec in Hc.
    apply matches_opt_inv in H2 as [H2| ->].
    + apply matches_seq_inv in H2 as (m & e & -> & Hm & He).
      apply matches_rep_class in Hm as [Hlen Hm]; [|lia].
      apply (Forall_class _ _ _ alnumHyphen_spec) in Hm.
      apply matches_class_inv in He as (d & -> & Hd). apply alnum_spec in Hd.
      split; [simpl; rewrite length_app; simpl; lia|].
      split.
      { constructor; [by left|].
        apply Forall_app. split; [done|].
        constructor; [by left | constructor]. }
      split; [exists c; by split|].
      exists d. split; [|done].
      change ([c] ++ m ++ [d]) with ((c :: m) ++ [d]). apply last_snoc.
    + simpl. split; [lia|]. split.
      { constructor; [by left | constructor]. }
      split; exists c; by split.
  - intros (Hlen & Hall & (c & Hh & Hc) & (d & Hl & Hd)).
    destruct l as [|c' t]; [discriminate|]. injection Hh as ->.
    exists [c], t. split; [done|].
    split; [constructor; by apply alnum_spec|].
    apply matches_opt_inv.
    destruct (decide (t = [])) as [->|Hne]; [by right|left].
    destruct (exists_last Hne) as (m & e & ->).
    change (c :: m ++ [e]) with ((c :: m) ++ [e]) in Hl.
    rewrite last_snoc in Hl. injection Hl as ->.
    inversion Hall as [|? ? _ Hall']; subst. apply Forall_app in Hall' as [Hm _].
    simpl in Hlen. rewrite length_app in Hlen. simpl in Hlen.
    constructor.
    + apply matches_rep_class; [lia|]. split; [lia|].
      by apply (Forall_class _ _ _ alnumHyphen_spec).
    + constructor. by apply alnum_spec.
Qed.

Lemma dotted_labels (ss : list (list N)) :
  Forall (matches (Seq (Class dot) label)) ss
  ↔ ∃ ls, ss = map (cons (unitOf ".")) ls ∧ Forall labelOk ls.
Proof.
  split.
  - induction 1 as [|x ss Hx _ (ls & -> & Hls)].
    + exists []. split; [done|constructor].
    + apply matches_seq_inv in Hx as (s1 & s2 & -> & H1 & H2).
      apply dot_char in H1 as ->. apply label_shape in H2.
      exists (s2 :: ls). split; [done | by constructor].
  - intros (ls & -> & Hls). induction Hls as [|l ls Hl _ IH]; simpl.
    + constructor.
    + constructor; [|done].
      apply (m_seq _ _ [unitOf "."]); [by apply dot_char | by apply label_shape].
Qed.

Lemma hostname_shape (s : list N) : matches hostname s ↔ HostnameShape s.
Proof.
  unfold hostname, HostnameShape. rewrite matches_seq_inv. split.
  - intros (s1 & s2 & -> & H1 & H2).
    apply label_shape in H1.
    apply matches_star_inv in H2 as (ss & -> & Hss).
    apply dotted_labels in Hss as (ls & -> & Hls). eauto.
  - intros (l & ls & -> & Hl & Hls).
    exists l, (concat (map (cons (unitOf ".")) ls)).
    split; [done|]. split; [by apply label_shape|].
    apply matches_star_inv. eexists. split; [done|].
    apply dotted_labels. eauto.
Qed.

Lemma validateTarget_spec (t : list N) :
  validateTarget t = true
  ↔ t ≠ [] ∧ (length t ≤ 255)%nat ∧ (IPv4Shape t ∨ HostnameShape t).
Proof.
  unfold validateTarget.
  case_bool_decide as Hnil; simpl.
  { split; [discriminate | intros [H _]; done]. }
  destruct (Nat.ltb_spec 255 (length t)) as [Hlt|Hle].
  { split; [discriminate | intros (_ & H & _); lia]. }
  rewrite <- ipv4_shape, <- hostname_shape, <- !test_spec.
  destruct (test ipv4 t); [|destruct (test hostname t)]; split; intros H; try done;
    try (split; [done|]; split; [lia|]; auto).
  destruct H as (_ & _ & [H|H]); done.
Qed.

End TargetFacts.

(** ** Normalization *)
Section SanitizeFacts.
Import Target16 TargetSpec.

Lemma isSpace_spec (c : N) : isSpace c = true ↔ whiteSpace c.
Proof.
  unfold isSpace, whiteSpace.
  rewrite !orb_true_iff, !andb_true_iff, !N.leb_le, !N.eqb_eq.
  rewrite !elem_of_cons, elem_of_nil. lia.
Qed.





Lemma lower_other (x c : N) :
  (x < 65 ∨ 122 < x)%N → lower c = x ↔ c = x.
Proof.
  intros Hx. unfold lower.
  destruct (N.leb_spec 65 c); destruct (N.leb_spec c 90); cbn [andb]; lia.
Qed.

Lemma stripPrefixCI_spec (p s rest : list N) :
  stripPrefixCI p s = Some rest ↔ ∃ q, s = q ++ rest ∧ map lower q = p.
Proof.
  revert s. induction p as [|a p IH]; intros s; cbn [stripPrefixCI].
  - split.
    + intros [= ->]. by exists [].
    + intros (q & -> & Hq). by destruct q.
  - destruct s as [|b s].
    + split; [discriminate|]. intros (q & Hs & Hq). by destruct q.
    + destruct (N.eqb_spec a (lower b)) as [->|Hne].
      * rewrite IH. split.
        -- intros (q & -> & <-). by exists (b :: q).
        -- intros (q & Hs & Hq). destruct q as [|b' q]; [discriminate|].
           injection Hs as <- ->. injection Hq as Hq. by exists q.
      * split; [discriminate|]. intros (q & Hs & Hq).
        destruct q as [|b' q]; [discriminate|].
        injection Hs as <- ->. injection Hq as Hb _. congruence.
Qed.






Lemma before_none (c : N) (s : list N) : c ∉ s → before c s = s.
Proof.
  induction s as [|d s IH]; simpl; [done|].
  intros [Hd Hs]%not_elem_of_cons.
  destruct (N.eqb_spec d c) as [->|_]; [done|]. by rewrite IH.
Qed.






End SanitizeFacts.

(** ** The strings of code units below 256 *)
Section Latin1Facts.
Import Target16 Latin1.




























End Latin1Facts.


(** ** The service *)
Section ScannerFacts.
Import PortQueue Scanner ScannerSpec Scenario.

Lemma isActive_true (id : string) (w : World) :
  isActive id w = true ↔ is_Some (activeScans w !! id).
Proof. unfold isActive. apply bool_decide_eq_true. Qed.

Lemma isActive_false (id : string) (w : World) :
  isActive id w = false ↔ activeScans w !! id = None.
Proof.
  unfold isActive. rewrite bool_decide_eq_false. rewrite <- eq_None_not_Some. done.
Qed.

Lemma abortScan_result (id : string) (w : World) : fst (abortScan id w) = isActive id w.
Proof.
  unfold abortScan. destruct (activeScans w !! id) eqn:E; simpl; symmetry.
  - apply isActive_true. by rewrite E.
  - by apply isActive_false.
Qed.

Lemma abortScan_inactive (id : string) (w : World) :
  isActive id (snd (abortScan id w)) = false.
Proof.
  apply isActive_false. unfold abortScan.
  destruct (activeScans w !! id) eqn:E; simpl; [apply lookup_delete_eq | done].
Qed.

Lemma abortScan_idle (id : string) (w : World) :
  isActive id w = false → abortScan id w = (false, w).
Proof. intros H%isActive_false. unfold abortScan. by rewrite H. Qed.

Lemma abortScan_others (id id' : string) (w : World) :
  id' ≠ id → isActive id' (snd (abortScan id w)) = isActive id' w.
Proof.
  intros Hne. unfold abortScan, isActive.
  destruct (activeScans w !! id); simpl; [|done]. by rewrite lookup_delete_ne.
Qed.

Lemma abortScan_signals (id : string) (w : World) (c : nat) :
  activeScans w !! id = Some c → c ∈ abortedSignals (snd (abortScan id w)).
Proof. intros H. unfold abortScan. rewrite H. simpl. set_solver. Qed.

Lemma completeScan_inactive throws id rs w :
  isActive id (snd (completeScan id (noting throws) rs w)) = false.
Proof.
  apply isActive_false. unfold completeScan, noting, note; simpl.
  destruct (throws (OnComplete rs)); simpl; apply lookup_delete_eq.
Qed.

Lemma remove_inactive throws id op w :
  isActive id (remove id (noting throws) op w) = false.
Proof. destruct op; [apply abortScan_inactive | apply completeScan_inactive]. Qed.

Lemma removals_idle throws id ops w :
  isActive id w = false → removals id (noting throws) ops w = 0%nat.
Proof.
  revert w. induction ops as [|op ops IH]; intros w Hw; [done|].
  simpl. rewrite Hw. simpl. apply IH. apply remove_inactive.
Qed.

Lemma removals_once throws id ops w :
  (removals id (noting throws) ops w ≤ 1)%nat
  ∧ (ops ≠ [] → isActive id w = true → removals id (noting throws) ops w = 1%nat).
Proof.
  destruct ops as [|op ops]; [simpl; split; [lia|done]|].
  simpl. rewrite remove_inactive, removals_idle by apply remove_inactive.
  destruct (isActive id w); simpl; split; try lia; done.
Qed.

(** C8.  [abortScan] returns true exactly when the registry holds an entry
    for the id; it aborts the signal of that entry and removes the entry at
    once, so that [isActive] is false right after it; a second [abortScan]
    returns false and changes nothing; entries of other ids stay.  The
    completion of a scan removes its entry as well.  In any sequence of
    aborts and completions for one id, the entry is taken out at most once,
    and exactly once, by the first of them, when the scan was live. *)
Theorem registry_entry_removed_once (throws : Call → bool) (id : string) (w : World) :
  fst (abortScan id w) = isActive id w
  ∧ isActive id (snd (abortScan id w)) = false
  ∧ abortScan id (snd (abortScan id w)) = (false, snd (abortScan id w))
  ∧ (∀ c, activeScans w !! id = Some c → c ∈ abortedSignals (snd (abortScan id w)))
  ∧ (∀ id', id' ≠ id → isActive id' (snd (abortScan id w)) = isActive id' w)
  ∧ (∀ rs, isActive id (snd (completeScan id (noting throws) rs w)) = false)
  ∧ (∀ ops, (removals id (noting throws) ops w ≤ 1)%nat)
  ∧ (∀ ops, ops ≠ [] → isActive id w = true →
            removals id (noting throws) ops w = 1%nat
            ∧ ∃ op rest, ops = op :: rest
                ∧ isActive id (remove id (noting throws) op w) = false
                ∧ removals id (noting throws) rest (remove id (noting throws) op w) = 0%nat).
Proof.
  split; [apply abortScan_result|].
  split; [apply abortScan_inactive|].
  split; [apply abortScan_idle, abortScan_inactive|].
  split; [apply abortScan_signals|].
  split; [intros; by apply abortScan_others|].
  split; [intros; apply completeScan_inactive|].
  split; [intros; apply removals_once|].
  intros ops Hne Hact. split; [by apply removals_once|].
  destruct ops as [|op rest]; [done|]. exists op, rest.
  split; [done|]. split; [apply remove_inactive|].
  apply removals_idle, remove_inactive.
Qed.

(** What [startScan] does with a target that does not validate, and with
    one that does. *)
Lemma startScan_invalid config cbs now w :
  Target.validateTarget (Target.sanitizeTarget (target config)) = false →
  startScan config cbs now w
  = (Throw ("Invalid target: " +:+ dquote +:+ target config +:+ dquote), w).
Proof. intros H. unfold startScan. by rewrite H. Qed.


Lemma startScan_Ok config cbs now w sc w' :
  startScan config cbs now w = (Ok sc, w') →
  Target.validateTarget (Target.sanitizeTarget (target config)) = true.
Proof.
  intros H. destruct (Target.validateTarget _) eqn:E; [done|].
  rewrite startScan_invalid in H by done. discriminate.
Qed.



End ScannerFacts.

(** ** Normalization and [startScan] *)
Section NormalizeFacts.
Import Target16 TargetSpec PortQueue Scanner.




End NormalizeFacts.


(** ** Abort and errors *)
Section AbortFacts.
Import PortQueue PortQueueSpec Scanner Scenario.

(** C1 fails on the code.  When the signal is aborted while some port has
    not been launched yet, the probes in flight settle and are counted, and
    that is all: no callback is invoked, [onComplete] included, [resolve] is
    not called, and once the last probe in flight has settled nothing is
    left that could call them. *)
Theorem aborted_scan_never_completes {W : Type} (o : ScanOptions W)
    (es : list Settlement) (l l' : Locals) (w w' : W) (errs : list string) :
  isAborted o w = true →
  Inv o l →
  (index l < total o)%nat →
  length es = length (inflight l) →
  settleAll o es l w = Some (errs, l', w') →
  invoked l' = invoked l
  ∧ results l' = results l
  ∧ index l' = index l
  ∧ promiseResolved l' = promiseResolved l
  ∧ w' = w
  ∧ inflight l' = []
  ∧ ∀ e, settle o e l' w' = None.
Proof.
  intros Ha Hl Hlt Hlen Hs.
  destruct (settleAll_aborted o es l l' w w' errs Ha Hl Hlt Hs)
    as (Hw & _ & Hi & Hp & Hr & Hx & Hsc & Hl').
  assert (inflight l' = []) as Hnil.
  { destruct Hl as (_ & _ & Hsum & _). destruct Hl' as (_ & _ & Hsum' & _).
    apply length_zero_iff_nil. lia. }
  repeat split; try done.
  intros e. unfold settle. rewrite Hnil.
  rewrite bool_decide_eq_false_2; [done | apply not_elem_of_nil].
Qed.

Lemma aborted_scan_never_completes_witness :
  let o := pool [1; 2; 3; 4; 5; 6; 7; 8; 9; 10; 11] 10 in
  let l := snd (fst (runScan o 0 false)) in
  let es := map (closedAt 20) (seq 0 10) in
  let l' := mkLocals [] 10 10 0 [] false [] in
  index l = 10%nat
  ∧ settleAll o es l true = Some ([], l', true)
  ∧ ∀ e, settle o e l' true = None.
Proof.
  intros o l es l'.
  assert (settleAll o es l true = Some ([], l', true)) as E
    by (vm_compute; reflexivity).
  assert (Inv o l) as Hl.
  { unfold Inv. vm_compute. repeat split; try lia.
    - by apply (bool_decide_unpack (NoDup (seq 0 10))).
    - repeat constructor. }
  split; [vm_compute; reflexivity|]. split; [exact E|].
  apply (aborted_scan_never_completes o es l l' true true []
           eq_refl Hl ltac:(vm_compute; lia) ltac:(vm_compute; reflexivity) E).
Defined.

(** The same through the service: eleven ports are asked for at
    concurrency 10, the scan is aborted while the first ten probes are in
    flight, and the ten probes settle.  The entry is gone, and the caller
    hears nothing: [onComplete] is not called, and cannot be any more. *)
Lemma abort_before_all_launched :
  match startScan elevenPorts quiet 0 emptyWorld with
  | (Ok sc, w) =>
      index (st_locals sc) = 10%nat
      ∧ let '(ok, w1) := abortScan "scan-1" w in
        ok = true
        ∧ match probesSettle (map (closedAt 20) (seq 0 10)) sc w1 with
          | Some (sc', w') =>
              isActive "scan-1" w' = false
              ∧ calls w' = [] ∧ invoked (st_locals sc') = []
              ∧ inflight (st_locals sc') = []
              ∧ st_promise sc' = Pending
              ∧ fatal w' = [] ∧ unhandled w' = []
          | None => False
          end
  | (Throw _, _) => False
  end.
Proof. vm_compute. repeat split. Qed.

(** When the last port was launched before the abort, the drain does end
    in one [onComplete], with the results accepted before the abort. *)
Lemma abort_after_all_launched :
  match startScan elevenPorts quiet 0 emptyWorld with
  | (Ok sc, w) =>
      match probesSettle [closedAt 60 0] sc w with
      | Some (sc1, w1) =>
          index (st_locals sc1) = 11%nat
          ∧ let '(ok, w2) := abortScan "scan-1" w1 in
            match probesSettle (map (closedAt 70) (seq 1 10)) sc1 w2 with
            | Some (sc', w') =>
                calls w'
                = [OnResult (mkResult 1 Closed 3 None); OnProgress 1 11;
                   OnComplete [mkResult 1 Closed 3 None]]
                ∧ st_promise sc' = Fulfilled
            | None => False
            end
      | None => False
      end
  | (Throw _, _) => False
  end.
Proof. vm_compute. repeat split. Qed.

(** C2 fails on the code.  One port is scanned and the caller's [onResult]
    throws when the probe settles.  The error is a rejection that no handler
    takes: the handler of [startScan] does not run, the entry stays in the
    registry, [onComplete] is not called, and nothing is left in flight that
    could call it. *)
Theorem throwing_callback_is_not_caught (st : Status) (dur : Z) (b : option string)
    (now : Z) :
  match startScan onePort failing 0 emptyWorld with
  | (Ok sc, w) =>
      match probeSettles (mkSettlement 0 st dur b now) sc w with
      | Some (sc', w') =>
          calls w' = [OnResult (mkResult 80 st dur b)]
          ∧ unhandled w' = ["callback"]
          ∧ fatal w' = []
          ∧ isActive "scan-1" w' = true
          ∧ inflight (st_locals sc') = []
          ∧ st_promise sc' = Pending
          ∧ ∀ e, probeSettles e sc' w' = None
      | None => False
      end
  | (Throw _, _) => False
  end.
Proof. vm_compute. repeat split. Qed.

(** The handler of [startScan] sees an error thrown while [runScan] runs:
    with no port, [onComplete] is called at once; when it throws, the error
    is logged, the entry is removed and [onComplete] is called again with no
    result. *)
Lemma sync_throw_reaches_handler :
  match startScan (mkConfig "scan-1" "example.com" [] 150 400)
          (noting (λ c, match c with OnComplete _ => true | _ => false end))
          0 emptyWorld with
  | (Ok sc, w) =>
      st_promise sc = Rejected "callback"
      ∧ fatal w = ["scan-1"]
      ∧ isActive "scan-1" w = false
      ∧ calls w = [OnComplete []; OnComplete []]
  | (Throw _, _) => False
  end.
Proof. vm_compute. repeat split. Qed.

End AbortFacts.

(* ===================================================================== *)
(** * Further properties *)
(* ===================================================================== *)

(** ** The promise pool: histories of a scan *)
Section RunFacts.
Import PortQueue PortQueueSpec PoolRuns.
Context {W : Type}.
Variable o : ScanOptions W.

Lemma hoare_seq {A B} (P Q R : Locals → Prop) (m : M W A) (k : A → M W B) :
  hoare (W:=W) P m Q → (∀ a, hoare (W:=W) Q (k a) R) → (∀ l, Q l → R l) →
  hoare (W:=W) P (m ≫= k) R.
Proof.
  intros Hm Hk HQR l w r l' w' HP. unfold mbind, M_bind.
  destruct (m (l, w)) as [[a|e] [l1 w1]] eqn:Em.
  - intros Hk'. eapply Hk; [|exact Hk']. eapply Hm; eauto.
  - intros [= <- <- <-]. apply HQR. eapply Hm; eauto.
Qed.

Lemma hoare_weaken {A} (P P' Q Q' : Locals → Prop) (m : M W A) :
  hoare (W:=W) P m Q → (∀ l, P' l → P l) → (∀ l, Q l → Q' l) →
  hoare (W:=W) P' m Q'.
Proof. intros Hm HP HQ l w r l' w' Hl E. apply HQ. eapply Hm; eauto. Qed.

Lemma launchLoop_Bounded (fuel : nat) (l : Locals) :
  Bounded o l → Bounded o (launchLoop o fuel l).
Proof.
  revert l. induction fuel as [|fuel IH]; intros l Hl; [done|].
  simpl. destruct (mayLaunch o l) eqn:Hm; [|done].
  apply IH. unfold mayLaunch in Hm. apply andb_true_iff in Hm as [_ Hc].
  apply Z.ltb_lt in Hc. destruct Hl as [Hb Hr].
  unfold Bounded, launch1; simpl. split; [lia | done].
Qed.

Lemma Bounded_irrelevant (l : Locals) t pr inv :
  Bounded o l →
  Bounded o (mkLocals (results l) (scanned l) (index l) t (inflight l) pr inv).
Proof. done. Qed.

Lemma invoke_Bounded (c : Call) : hoare (W:=W) (Bounded o) (invoke o c) (Bounded o).
Proof. apply hoare_invoke. intros l Hl. by apply Bounded_irrelevant. Qed.

Lemma complete_Bounded (rs : list PortResult) :
  hoare (W:=W) (Bounded o) (invoke o (OnComplete rs);; resolve) (Bounded o).
Proof.
  apply hoare_bind; [apply invoke_Bounded|]. intros _.
  apply hoare_modL. intros l Hl. by apply Bounded_irrelevant.
Qed.

Lemma next_Bounded : hoare (W:=W) (Bounded o) (next o) (Bounded o).
Proof.
  unfold next. apply hoare_bind; [apply hoare_readW|]. intros a.
  apply hoare_bind; [apply hoare_getL|]. intros l0.
  destruct a.
  - destruct (_ || _); [apply complete_Bounded | apply hoare_ret].
  - apply hoare_modL. intros l. apply launchLoop_Bounded.
Qed.

Lemma onSettled_Bounded (r : PortResult) (now : Z) :
  hoare (W:=W) (Bounded o) (onSettled o r now) (Bounded o).
Proof.
  unfold onSettled.
  intros l w res l' w' HP. unfold mbind at 1, M_bind at 1.
  unfold aborted, readW. cbn [fst snd].
  destruct (isAborted o w).
  - revert l w res l' w' HP. apply hoare_bind.
    { apply hoare_modL. intros l [H1 H2]. split; simpl; [done | lia]. }
    intros _. apply hoare_bind; [apply hoare_getL|]. intros l0.
    destruct (_ <=? _)%nat; [apply complete_Bounded | apply hoare_ret].
  - revert l w res l' w' HP.
    apply (hoare_seq _ (BoundedSettling o)).
    { apply hoare_modL. intros l [H1 H2]. split; simpl; [done | lia]. }
    2:{ intros l [H1 H2]. split; [done | lia]. }
    intros _. apply (hoare_seq _ (Bounded o)); [| |done].
    { apply hoare_modL. intros l [H1 H2]. split; simpl.
      - rewrite length_app. simpl. lia.
      - rewrite length_app. simpl. lia. }
    intros _. apply hoare_bind; [apply invoke_Bounded|]. intros _.
    apply hoare_bind; [apply hoare_getL|]. intros l0.
    apply hoare_bind.
    { destruct (_ || _); [|apply hoare_ret].
      apply hoare_bind; [|intros _; apply invoke_Bounded].
      apply hoare_modL. intros l Hl. by apply Bounded_irrelevant. }
    intros _. apply hoare_bind; [apply hoare_getL|]. intros l1.
    destruct (_ <=? _)%nat; [apply complete_Bounded | apply next_Bounded].
Qed.

Lemma settle_Bounded (e : Settlement) (l l' : Locals) (w w' : W) (res : result unit) :
  Bounded o l → settle o e l w = Some (res, l', w') → Bounded o l'.
Proof.
  intros Hl. unfold settle. case_bool_decide as Hi; [|discriminate].
  destruct (onSettled _ _ _ _) as [res0 [l2 w2]] eqn:E. intros [= <- <- <-].
  eapply onSettled_Bounded; [|exact E]. done.
Qed.

Lemma runScan_Bounded (scanStart : Z) (w w' : W) (pr : Promise) (l : Locals) :
  runScan o scanStart w = (pr, l, w') → Bounded o l.
Proof.
  unfold runScan. destruct (executor _ _) as [r [l0 w0]] eqn:E. intros [= _ <- _].
  assert (hoare (W:=W) (Bounded o) (executor o) (Bounded o)) as H.
  { unfold executor. apply hoare_bind.
    - induction (Z.to_nat _) as [|n IH]; simpl; [apply hoare_ret|].
      apply hoare_bind; [apply next_Bounded | intros _; apply IH].
    - intros _. destruct (_ =? _)%nat; [|apply hoare_ret].
      apply hoare_bind; [apply hoare_getL|]. intros l1. apply complete_Bounded. }
  eapply H; [|exact E]. unfold Bounded, initLocals; simpl. lia.
Qed.

Lemma Run_Inv (P : W → Prop) (es : list Settlement) (l : Locals) :
  Run o P es l → Inv o l ∧ Bounded o l.
Proof.
  induction 1 as [t w w' pr l Hw E|es l l' e w w' res _ [IH1 IH2] Hw E].
  - split; [by eapply runScan_Inv | by eapply runScan_Bounded].
  - split; [by eapply settle_Inv | by eapply settle_Bounded].
Qed.

(** However the callbacks behave and whenever the signal is aborted, the
    number of probes in flight never exceeds the concurrency. *)
Theorem inflight_bounded (P : W → Prop) (es : list Settlement) (l : Locals) :
  Run o P es l →
  Z.of_nat (length (inflight l)) ≤ Z.max 0 (concurrency o)
  ∧ (length (inflight l) ≤ total o)%nat.
Proof.
  intros H. destruct (Run_Inv P es l H) as [(_ & _ & Hsum & Hle) [Hb Hr]].
  split; lia.
Qed.

Lemma filter_ne_perm (i : nat) (l : list nat) :
  NoDup l → i ∈ l → l ≡ₚ i :: filter (λ j, j ≠ i) l.
Proof.
  induction 1 as [|x l Hx Hnd IH]; intros Hi.
  - by apply not_elem_of_nil in Hi.
  - rewrite filter_cons. destruct (decide (x ≠ i)) as [Hne|Heq].
    + apply elem_of_cons in Hi as [->|Hi]; [done|].
      rewrite (IH Hi) at 1. apply Permutation_swap.
    + assert (x = i) as -> by (destruct (decide (x = i)); [done | by exfalso]).
      constructor.
      assert (filter (λ j, j ≠ i) l = l) as ->; [|done].
      clear IH Hi Hnd Heq. induction l as [|y l IH]; [done|].
      rewrite filter_cons. apply not_elem_of_cons in Hx as [Hy Hx].
      rewrite decide_True by done. f_equal. by apply IH.
Qed.

Lemma Launched_NoDup (es : list Settlement) (l : Locals) :
  Launched o es l → NoDup (map s_index es) ∧ NoDup (inflight l)
  ∧ (∀ i, i ∈ map s_index es → i ∉ inflight l).
Proof.
  intros (Hp & _ & _).
  assert (NoDup (map s_index es ++ inflight l)) as Hnd.
  { rewrite Hp. apply NoDup_ListNoDup, List.seq_NoDup. }
  apply NoDup_app in Hnd as (H1 & H2 & H3). auto.
Qed.

Lemma launchLoop_Launched (es : list Settlement) (fuel : nat) (l : Locals) :
  Launched o es l → Launched o es (launchLoop o fuel l).
Proof.
  revert l. induction fuel as [|fuel IH]; intros l Hl; [done|].
  simpl. destruct (mayLaunch o l) eqn:Hm; [|done].
  apply IH. unfold mayLaunch in Hm. apply andb_true_iff in Hm as [Hlt _].
  apply Nat.ltb_lt in Hlt. destruct Hl as (Hp & Hs & Hle).
  unfold Launched, launch1; cbn [index inflight scanned].
  split; [|split; [done | lia]].
  rewrite seq_S. cbn [Nat.add]. rewrite app_assoc. by rewrite Hp.
Qed.

Lemma Launched_irrelevant (es : list Settlement) (l : Locals) rs t pr inv :
  Launched o es l →
  Launched o es (mkLocals rs (scanned l) (index l) t (inflight l) pr inv).
Proof. done. Qed.

Lemma onSettled_Launched (es : list Settlement) (r : PortResult) (now : Z) :
  hoare (W:=W) (Settling o es) (onSettled o r now) (Launched o es).
Proof.
  assert (∀ c, hoare (W:=W) (Launched o es) (invoke o c) (Launched o es)) as Hinv.
  { intros c. apply hoare_invoke. intros l Hl. by apply Launched_irrelevant. }
  assert (∀ rs, hoare (W:=W) (Launched o es) (invoke o (OnComplete rs);; resolve)
                  (Launched o es)) as Hcomp.
  { intros rs. apply hoare_bind; [apply Hinv|]. intros _.
    apply hoare_modL. intros l Hl. by apply Launched_irrelevant. }
  assert (hoare (W:=W) (Settling o es) (incrScanned (W:=W)) (Launched o es)) as Hincr.
  { apply hoare_modL. intros l (H1 & H2 & H3). split; [done|]. split; simpl; [lia | done]. }
  unfold onSettled.
  intros l w res l' w' HP. unfold mbind at 1, M_bind at 1.
  unfold aborted, readW. cbn [fst snd].
  destruct (isAborted o w).
  - revert l w res l' w' HP. apply hoare_bind; [apply Hincr|]. intros _.
    apply hoare_bind; [apply hoare_getL|]. intros l0.
    destruct (_ <=? _)%nat; [apply Hcomp | apply hoare_ret].
  - revert l w res l' w' HP. apply hoare_bind; [apply Hincr|]. intros _.
    apply hoare_bind.
    { apply hoare_modL. intros l Hl. by apply Launched_irrelevant. }
    intros _. apply hoare_bind; [apply Hinv|]. intros _.
    apply hoare_bind; [apply hoare_getL|]. intros l0.
    apply hoare_bind.
    { destruct (_ || _); [|apply hoare_ret].
      apply hoare_bind; [|intros _; apply Hinv].
      apply hoare_modL. intros l Hl. by apply Launched_irrelevant. }
    intros _. apply hoare_bind; [apply hoare_getL|]. intros l1.
    destruct (_ <=? _)%nat; [apply Hcomp|].
    unfold next. apply hoare_bind; [apply hoare_readW|]. intros a.
    apply hoare_bind; [apply hoare_getL|]. intros l2.
    destruct a.
    + destruct (_ || _); [apply Hcomp | apply hoare_ret].
    + apply hoare_modL. intros l. apply launchLoop_Launched.
Qed.

Lemma runScan_Launched (scanStart : Z) (w w' : W) (pr : Promise) (l : Locals) :
  runScan o scanStart w = (pr, l, w') → Launched o [] l.
Proof.
  unfold runScan. destruct (executor _ _) as [r [l0 w0]] eqn:E. intros [= _ <- _].
  assert (∀ c, hoare (W:=W) (Launched o []) (invoke o c) (Launched o [])) as Hinv.
  { intros c. apply hoare_invoke. intros l1 Hl. by apply Launched_irrelevant. }
  assert (∀ rs, hoare (W:=W) (Launched o []) (invoke o (OnComplete rs);; resolve)
                  (Launched o [])) as Hcomp.
  { intros rs. apply hoare_bind; [apply Hinv|]. intros _.
    apply hoare_modL. intros l1 Hl. by apply Launched_irrelevant. }
  assert (hoare (W:=W) (Launched o []) (next o) (Launched o [])) as Hnext.
  { unfold next. apply hoare_bind; [apply hoare_readW|]. intros a.
    apply hoare_bind; [apply hoare_getL|]. intros l2.
    destruct a.
    + destruct (_ || _); [apply Hcomp | apply hoare_ret].
    + apply hoare_modL. intros l1. apply launchLoop_Launched. }
  assert (hoare (W:=W) (Launched o []) (executor o) (Launched o [])) as H.
  { unfold executor. apply hoare_bind.
    - induction (Z.to_nat _) as [|n IH]; simpl; [apply hoare_ret|].
      apply hoare_bind; [apply Hnext | intros _; apply IH].
    - intros _. destruct (_ =? _)%nat; [|apply hoare_ret].
      apply hoare_bind; [apply hoare_getL|]. intros l1. apply Hcomp. }
  eapply H; [|exact E]. unfold Launched, initLocals; simpl.
  split; [done|]. split; [done | lia].
Qed.

Lemma Run_Launched (P : W → Prop) (es : list Settlement) (l : Locals) :
  Run o P es l → Launched o es l.
Proof.
  induction 1 as [t w w' pr l Hw E|es l l' e w w' res _ IH Hw E].
  - by eapply runScan_Launched.
  - unfold settle in E. case_bool_decide as Hi; [|discriminate].
    destruct (onSettled _ _ _ _) as [res0 [l2 w2]] eqn:Es. injection E as <- <- <-.
    eapply onSettled_Launched; [|exact Es].
    destruct (Launched_NoDup es l IH) as (_ & Hnd & _).
    destruct IH as (Hp & Hs & Hle). unfold Settling; simpl.
    split; [|split; [rewrite length_app; simpl; lia | done]].
    rewrite map_app. simpl. rewrite <- app_assoc. simpl.
    rewrite <- Hp. apply Permutation_app_head. symmetry. by apply filter_ne_perm.
Qed.

End RunFacts.


Section QuietFacts.
Import PortQueue PortQueueSpec PoolRuns PoolQuiet.
Context {W : Type}.
Variable o : ScanOptions W.
Variable P : W → Prop.
Hypothesis HQ : Quiet o P.

Lemma invoke_quiet (c : Call) (l : Locals) (w : W) :
  P w →
  ∃ w', P w'
    ∧ invoke o c (l, w)
      = (Ok tt,
         (mkLocals (results l) (scanned l) (index l) (lastProgressTime l)
            (inflight l) (promiseResolved l) (invoked l ++ [c]), w')).
Proof.
  intros Hw. unfold invoke. cbn [fst snd]. destruct c as [r|n t|rs].
  - destruct (quiet_onResult o P HQ r w Hw) as (w' & -> & Hw'). eauto.
  - destruct (quiet_onProgress o P HQ n t w Hw) as (w' & -> & Hw'). eauto.
  - destruct (quiet_onComplete o P HQ rs w Hw) as (w' & -> & Hw'). eauto.
Qed.

Lemma onSettled_quiet (r : PortResult) (now : Z) (l : Locals) (w : W) :
  P w →
  ∃ w', P w' ∧ onSettled o r now (l, w) = (Ok tt, (normalStep o r now l, w')).
Proof.
  intros Hw. unfold onSettled, aborted, readW, mbind, M_bind.
  cbn [fst snd]. rewrite (quiet_signal o P HQ w Hw).
  unfold incrScanned, pushResult, modL, getL.
  cbn [fst snd results scanned index lastProgressTime inflight promiseResolved invoked].
  match goal with |- context [invoke o ?c (?l0, w)] =>
    destruct (invoke_quiet c l0 w Hw) as (w1 & Hw1 & ->) end.
  unfold normalStep.
  cbn [fst snd results scanned index lastProgressTime inflight promiseResolved invoked].
  destruct ((50 <? now - lastProgressTime l) || (total o <=? S (scanned l))%nat) eqn:Hp.
  - rewrite ?Hp. unfold setLastProgressTime, modL.
    cbn [fst snd results scanned index lastProgressTime inflight promiseResolved invoked].
    match goal with |- context [invoke o ?c (?l0, w1)] =>
      destruct (invoke_quiet c l0 w1 Hw1) as (w2 & Hw2 & ->) end.
    cbn [fst snd results scanned index lastProgressTime inflight promiseResolved invoked].
    destruct (total o <=? S (scanned l))%nat eqn:Hc; rewrite ?Hc.
    + match goal with |- context [invoke o ?c (?l0, w2)] =>
        destruct (invoke_quiet c l0 w2 Hw2) as (w3 & Hw3 & ->) end.
      exists w3. split; [done|]. reflexivity.
    + unfold next, aborted, readW, mbind, M_bind, getL, modL. cbn [fst snd].
      rewrite (quiet_signal o P HQ w2 Hw2). exists w2. split; [done|]. reflexivity.
  - rewrite ?Hp. unfold ret, mret, M_ret.
    cbn [fst snd results scanned index lastProgressTime inflight promiseResolved invoked].
    destruct (total o <=? S (scanned l))%nat eqn:Hc; rewrite ?Hc.
    + match goal with |- context [invoke o ?c (?l0, w1)] =>
        destruct (invoke_quiet c l0 w1 Hw1) as (w3 & Hw3 & ->) end.
      exists w3. split; [done|]. reflexivity.
    + unfold next, aborted, readW, mbind, M_bind, getL, modL. cbn [fst snd].
      rewrite (quiet_signal o P HQ w1 Hw1). exists w1. split; [done|]. reflexivity.
Qed.
End QuietFacts.


Section StartFacts.
Import PortQueue PortQueueSpec PoolRuns PoolQuiet.
Context {W : Type}.
Variable o : ScanOptions W.

Lemma launchLoop_fields (fuel : nat) (l : Locals) :
  results (launchLoop o fuel l) = results l
  ∧ scanned (launchLoop o fuel l) = scanned l
  ∧ lastProgressTime (launchLoop o fuel l) = lastProgressTime l
  ∧ promiseResolved (launchLoop o fuel l) = promiseResolved l
  ∧ invoked (launchLoop o fuel l) = invoked l.
Proof.
  revert l. induction fuel as [|fuel IH]; intros l; [done|].
  simpl. destruct (mayLaunch o l); [|done].
  destruct (IH (launch1 l)) as (-> & -> & -> & -> & ->). done.
Qed.

Lemma launchLoop_full (fuel : nat) (l : Locals) :
  mayLaunch o l = false → launchLoop o fuel l = l.
Proof. intros H. destruct fuel; [done|]. simpl. by rewrite H. Qed.

(** The first run of the loop of [next]: nothing has settled, and ports are
    launched until [min(concurrency, total)] are in flight. *)
Lemma launchLoop_first (fuel k : nat) (l : Locals) :
  results l = [] → index l = k → inflight l = seq 0 k →
  (k ≤ Z.to_nat (Z.min (concurrency o) (Z.of_nat (total o))))%nat →
  (total o - k ≤ fuel)%nat →
  index (launchLoop o fuel l) = Z.to_nat (Z.min (concurrency o) (Z.of_nat (total o)))
  ∧ inflight (launchLoop o fuel l)
    = seq 0 (Z.to_nat (Z.min (concurrency o) (Z.of_nat (total o)))).
Proof.
  revert k l. induction fuel as [|fuel IH]; intros k l Hr Hi Hf Hk Hfuel.
  - simpl. assert (k = Z.to_nat (Z.min (concurrency o) (Z.of_nat (total o)))) as <- by lia.
    done.
  - simpl. unfold mayLaunch. rewrite Hr, Hi. simpl length.
    destruct (Nat.ltb_spec k (total o)) as [Hlt|Hge]; simpl.
    + destruct (Z.ltb_spec (Z.of_nat (scanned l) + (Z.of_nat k - Z.of_nat (scanned l))
                            - Z.of_nat 0) (concurrency o)) as [Hc|Hc].
      * apply (IH (S k)); unfold launch1; cbn [results index inflight];
          [done | by rewrite Hi | | lia | lia].
        rewrite Hf, Hi. by rewrite seq_S.
      * assert (k = Z.to_nat (Z.min (concurrency o) (Z.of_nat (total o)))) as <- by lia.
        done.
    + assert (k = Z.to_nat (Z.min (concurrency o) (Z.of_nat (total o)))) as <- by lia.
      done.
Qed.

Lemma next_live (l : Locals) (w : W) :
  isAborted o w = false →
  next o (l, w) = (Ok tt, (launchLoop o (total o - index l) l, w)).
Proof.
  intros Ha. unfold next, aborted, readW, mbind, M_bind, getL, modL.
  cbn [fst snd]. by rewrite Ha.
Qed.

Lemma repeatNext_live (n : nat) (l : Locals) (w : W) :
  isAborted o w = false →
  repeatNext o n (l, w)
  = (Ok tt, (Nat.iter n (λ l, launchLoop o (total o - index l) l) l, w)).
Proof.
  intros Ha. revert l. induction n as [|n IH]; intros l; [done|].
  cbn [repeatNext]. unfold mbind, M_bind. rewrite next_live by done.
  rewrite IH. f_equal. f_equal. clear IH. revert l.
  induction n as [|n IH]; intros l; [done|]. simpl. by rewrite IH.
Qed.

Lemma iter_launch (n : nat) (l : Locals) :
  Nat.iter n (λ l, launchLoop o (total o - index l) l) l
  = match n with O => l | S _ => launchLoop o (total o - index l) l end.
Proof.
  induction n as [|n IH]; [done|]. simpl. rewrite IH. destruct n; [done|].
  apply launchLoop_full, launchLoop_exits. lia.
Qed.

Lemma runScan_live (scanStart : Z) (w : W) :
  isAborted o w = false →
  ports o ≠ [] →
  ∃ l, runScan o scanStart w = (Pending, l, w)
    ∧ index l = Z.to_nat (Z.min (concurrency o) (Z.of_nat (total o)))
    ∧ inflight l = seq 0 (index l)
    ∧ results l = [] ∧ scanned l = 0%nat ∧ invoked l = []
    ∧ promiseResolved l = false
    ∧ mayLaunch o l = false.
Proof.
  intros Ha Hne. assert (total o ≠ 0)%nat as Ht.
  { unfold total. destruct (ports o); [done | simpl; lia]. }
  unfold runScan, executor, mbind, M_bind.
  rewrite repeatNext_live by done. rewrite iter_launch.
  destruct (Nat.eqb_spec (total o) 0) as [|_]; [done|].
  set (n := Z.to_nat (Z.min (concurrency o) (Z.of_nat (total o)))).
  destruct n as [|n'] eqn:Hn.
  - eexists. split; [reflexivity|]. simpl.
    repeat split; try done. unfold mayLaunch; simpl.
    destruct (Nat.ltb_spec 0 (total o)); [|done]. simpl.
    apply Z.ltb_ge. lia.
  - rewrite <- Hn. clear Hn.
    destruct (launchLoop_first (total o - 0) 0 (initLocals scanStart))
      as [Hi Hf]; try done; try lia.
    destruct (launchLoop_fields (total o - index (initLocals scanStart))
                (initLocals scanStart)) as (Hr & Hs & _ & Hp & Hv).
    simpl index in *. unfold ret, mret, M_ret.
    eexists. split.
    { unfold promiseOf. rewrite Hp. reflexivity. }
    fold n. rewrite Hi, Hf, Hr, Hs, Hp, Hv. repeat split; try done.
    apply launchLoop_exits. lia.
Qed.

Lemma runScan_empty (scanStart : Z) (w : W) :
  ports o = [] →
  ∃ l, runScan o scanStart w
       = (match fst (onComplete o [] w) with Ok _ => Fulfilled | Throw e => Rejected e end,
          l, snd (onComplete o [] w))
    ∧ invoked l = [OnComplete []] ∧ index l = 0%nat ∧ inflight l = []
    ∧ results l = [] ∧ scanned l = 0%nat
    ∧ promiseResolved l
      = match fst (onComplete o [] w) with Ok _ => true | Throw _ => false end.
Proof.
  intros Hnil. assert (total o = 0%nat) as Ht by (unfold total; by rewrite Hnil).
  unfold runScan, executor, mbind, M_bind. rewrite Ht.
  replace (Z.to_nat (Z.min (concurrency o) (Z.of_nat 0))) with 0%nat by lia.
  cbn [repeatNext]. unfold ret, mret, M_ret, getL, invoke, resolve, modL.
  cbn. destruct (onComplete o [] w) as [[[]|e] w1]; cbn; eexists; (split; [reflexivity|]); done.
Qed.
End StartFacts.


Section OrderlyFacts.
Import PortQueue PortQueueSpec PoolRuns PoolQuiet.
Context {W : Type}.
Variable o : ScanOptions W.
Variable P : W → Prop.
Hypothesis HQ : Quiet o P.

Lemma log_snoc (cs : list Call) (c : Call) :
  delivered (cs ++ [c])
  = delivered cs ++ match c with OnResult r => [r] | _ => [] end
  ∧ progressed (cs ++ [c])
    = progressed cs ++ match c with OnProgress n t => [(n, t)] | _ => [] end
  ∧ completed (cs ++ [c])
    = completed cs ++ match c with OnComplete rs => [rs] | _ => [] end.
Proof.
  unfold delivered, progressed, completed. rewrite !omap_app.
  destruct c; simpl; by rewrite ?app_nil_r.
Qed.

Lemma delivered_snoc cs c :
  delivered (cs ++ [c]) = delivered cs ++ match c with OnResult r => [r] | _ => [] end.
Proof. apply log_snoc. Qed.
Lemma progressed_snoc cs c :
  progressed (cs ++ [c])
  = progressed cs ++ match c with OnProgress n t => [(n, t)] | _ => [] end.
Proof. apply log_snoc. Qed.
Lemma completed_snoc cs c :
  completed (cs ++ [c]) = completed cs ++ match c with OnComplete rs => [rs] | _ => [] end.
Proof. apply log_snoc. Qed.

Lemma normalStep_Orderly (es : list Settlement) (e : Settlement) (now : Z) (l : Locals) :
  Orderly o es l →
  (S (scanned l) ≤ index l)%nat → (index l ≤ total o)%nat →
  Orderly o (es ++ [e]) (normalStep o (resultOf o e) now l).
Proof.
  intros (Hres & Hdel & Hcomp & Hpr & _ & Hsort & Hall & _) Hsi Hit.
  destruct (decide (scanned l = total o)) as [Heq|Hne]; [lia|].
  unfold normalStep.
  cbn [results scanned index lastProgressTime inflight promiseResolved invoked].
  assert (Hall' : Forall (λ nt, 1 ≤ nt.1 ≤ Z.of_nat (S (scanned l))
                               ∧ nt.2 = Z.of_nat (total o)) (progressed (invoked l))).
  { eapply Forall_impl; [exact Hall|]. simpl. intros; lia. }
  assert (Hsort' : StronglySorted Z.lt
            (map fst (progressed (invoked l)) ++ [Z.of_nat (S (scanned l))])).
  { apply StronglySorted_app_2; [|done|repeat constructor].
    intros x1 x2 Hx1 ->%list_elem_of_singleton.
    apply list_elem_of_fmap in Hx1 as (nt & -> & Hnt).
    rewrite Forall_forall in Hall. specialize (Hall nt Hnt). lia. }
  destruct (Nat.leb_spec (total o) (S (scanned l))) as [Hle|Hlt].
  - rewrite orb_true_r.
    cbn [results scanned index lastProgressTime inflight promiseResolved invoked].
    destruct (Nat.leb_spec (total o) (S (scanned l))) as [_|]; [|lia].
    assert (S (scanned l) = total o) as Hst by lia.
    unfold Orderly.
    cbn [results scanned index lastProgressTime inflight promiseResolved invoked].
    rewrite decide_True by done. rewrite bool_decide_eq_true_2 by done.
    rewrite !delivered_snoc, !progressed_snoc, !completed_snoc, Hdel, Hcomp, Hres.
    cbn [app]. rewrite !app_nil_r, map_app.
    split; [done|]. split; [done|]. split; [done|]. split; [done|].
    split. { unfold mayLaunch; simpl. destruct (Nat.ltb_spec (index l) (total o)); [lia|done]. }
    split. { rewrite map_app. exact Hsort'. }
    split. { apply Forall_app. split; [done|]. constructor; [simpl; lia | constructor]. }
    intros _ _. exists (invoked l), (resultOf o e).
    rewrite <- !app_assoc. simpl. by rewrite Hst.
  - rewrite orb_false_r.
    assert (∀ l0, results l0 = results l ++ [resultOf o e] →
                  scanned l0 = S (scanned l) → index l0 = index l →
                  promiseResolved l0 = promiseResolved l →
                  delivered (invoked l0) = delivered (invoked l) ++ [resultOf o e] →
                  completed (invoked l0) = [] →
                  StronglySorted Z.lt (map fst (progressed (invoked l0))) →
                  Forall (λ nt, 1 ≤ nt.1 ≤ Z.of_nat (S (scanned l))
                                ∧ nt.2 = Z.of_nat (total o)) (progressed (invoked l0)) →
                  Orderly o (es ++ [e]) (launchLoop o (total o - index l0) l0)) as Hgen.
    { intros l0 H1 H2 H3 H4 H5 H6 H7 H8.
      destruct (launchLoop_fields o (total o - index l0) l0) as (Hr & Hs & _ & Hp & Hv).
      pose proof (launchLoop_exits o (total o - index l0) l0) as Hex.
      unfold Orderly. rewrite Hr, Hs, Hp, Hv, Hex by lia.
      rewrite H1, H2, H4, H5, H6, Hpr, Hdel, Hres, map_app.
      rewrite decide_False by lia. rewrite !bool_decide_eq_false_2 by lia.
      split; [done|]. split; [done|]. split; [done|]. split; [done|]. split; [done|].
      split; [done|]. split; [done|]. intros; lia. }
    destruct (50 <? now - lastProgressTime l) eqn:Hprog.
    + cbn [results scanned index lastProgressTime inflight promiseResolved invoked].
      destruct (Nat.leb_spec (total o) (S (scanned l))) as [|_]; [lia|].
      match goal with |- Orderly _ _ (launchLoop o _ ?l0) => apply (Hgen l0) end;
        cbn [results scanned index promiseResolved invoked]; try done.
      * by rewrite !delivered_snoc, app_nil_r.
      * by rewrite !completed_snoc, Hcomp.
      * rewrite !progressed_snoc. cbn [app]. rewrite app_nil_r, map_app. exact Hsort'.
      * rewrite !progressed_snoc. cbn [app]. rewrite app_nil_r.
        apply Forall_app. split; [done|]. constructor; [simpl; lia | constructor].
    + cbn [results scanned index lastProgressTime inflight promiseResolved invoked].
      destruct (Nat.leb_spec (total o) (S (scanned l))) as [|_]; [lia|].
      match goal with |- Orderly _ _ (launchLoop o _ ?l0) => apply (Hgen l0) end;
        cbn [results scanned index promiseResolved invoked]; try done.
      * by rewrite !delivered_snoc.
      * by rewrite !completed_snoc, Hcomp.
      * rewrite !progressed_snoc. cbn [app]. by rewrite app_nil_r.
      * rewrite !progressed_snoc. cbn [app]. by rewrite app_nil_r.
Qed.

Lemma runScan_Orderly (scanStart : Z) (w w' : W) (pr : Promise) (l : Locals) :
  P w → runScan o scanStart w = (pr, l, w') → Orderly o [] l.
Proof.
  intros Hw E. destruct (ports o) as [|p0 ps] eqn:Hports.
  - destruct (runScan_empty o scanStart w Hports)
      as (l0 & E0 & Hv & Hi & Hf & Hr & Hs & Hp).
    rewrite E0 in E. injection E as _ <- _.
    destruct (quiet_onComplete o P HQ [] w Hw) as (w1 & Hc & _).
    rewrite Hc in Hp. simpl in Hp.
    assert (total o = 0%nat) as Ht by (unfold total; by rewrite Hports).
    unfold Orderly. rewrite Hv, Hr, Hs, Hp, Ht. simpl.
    split; [done|]. split; [done|]. split; [done|]. split; [done|].
    split. { unfold mayLaunch. rewrite Hi, Ht. done. }
    split; [constructor|]. split; [constructor|]. done.
  - destruct (runScan_live o scanStart w (quiet_signal o P HQ w Hw))
      as (l0 & E0 & Hi & Hf & Hr & Hs & Hv & Hp & Hm); [by rewrite Hports|].
    rewrite E0 in E. injection E as _ <- _.
    assert (total o ≠ 0%nat) as Ht by (unfold total; rewrite Hports; simpl; lia).
    unfold Orderly. rewrite Hv, Hr, Hs, Hp, Hm. simpl.
    rewrite decide_False by lia. rewrite bool_decide_eq_false_2 by lia.
    split; [done|]. split; [done|]. split; [done|]. split; [done|]. split; [done|].
    split; [constructor|]. split; [constructor|]. intros; lia.
Qed.

Lemma Run_Orderly (es : list Settlement) (l : Locals) :
  Run o P es l → Orderly o es l.
Proof.
  intros HR. pose proof HR as HR0.
  induction HR as [t w w' pr l Hw E|es l l' e w w' res HR IH Hw E].
  - by eapply runScan_Orderly.
  - pose proof (Run_Launched o P es l HR) as (Hperm & Hsc & Hle).
    destruct (Run_Inv o P es l HR) as [(Hnd & _ & Hsum & _) _].
    unfold settle in E. case_bool_decide as Hi; [|discriminate].
    match type of E with context [onSettled o ?r ?now (?l1, w)] =>
      destruct (onSettled_quiet o P HQ r now l1 w Hw) as (w1 & Hw1 & Eq) end.
    rewrite Eq in E. injection E as _ <- _.
    apply normalStep_Orderly; cbn [scanned index]; [|  |done].
    + specialize (IH HR). exact IH.
    + pose proof (filter_ne_length _ _ Hnd Hi). lia.
Qed.
End OrderlyFacts.


Section CompleteFacts.
Import PortQueue PortQueueSpec PoolRuns PoolQuiet PoolWorld.
Context {W : Type}.
Variable o : ScanOptions W.
Variable P : W → Prop.
Hypothesis HQ : Quiet o P.

Lemma lookup_all (d : Z) (l : list Z) :
  map (λ i, default d (l !! i)) (seq 0 (length l)) = l.
Proof.
  apply list_eq. intros i. rewrite list_lookup_fmap.
  destruct (decide (i < length l)%nat) as [Hlt|Hge].
  - rewrite lookup_seq_lt by done. simpl.
    destruct (lookup_lt_is_Some_2 l i Hlt) as [x Hx]. by rewrite Hx.
  - rewrite (lookup_ge_None_2 l) by lia.
    rewrite (lookup_ge_None_2 (seq 0 (length l))) by (rewrite length_seq; lia). done.
Qed.

(** While the signal is not aborted and no callback throws: the results
    stored are those of the probes that have settled, in the order in which
    they settled, and each was passed to [onResult] once, in that order. *)
Theorem results_delivered_in_order (es : list Settlement) (l : Locals) :
  Run o P es l →
  results l = map (resultOf o) es
  ∧ delivered (invoked l) = results l
  ∧ length (results l) = scanned l.
Proof.
  intros HR. destruct (Run_Orderly o P HQ es l HR) as (H1 & H2 & _).
  destruct (Run_Launched o P es l HR) as (_ & Hs & _).
  split; [done|]. split; [done|]. by rewrite H1, length_map.
Qed.

(** While the signal is not aborted and no callback throws: the calls of
    [onProgress] carry strictly growing counts between 1 and the number of
    probes settled, and the total of the scan. *)
Theorem progress_grows (es : list Settlement) (l : Locals) :
  Run o P es l →
  StronglySorted Z.lt (map fst (progressed (invoked l)))
  ∧ Forall (λ nt, 1 ≤ fst nt ≤ Z.of_nat (length es) ∧ snd nt = Z.of_nat (total o))
      (progressed (invoked l)).
Proof.
  intros HR. destruct (Run_Orderly o P HQ es l HR) as (_ & _ & _ & _ & _ & H1 & H2 & _).
  destruct (Run_Launched o P es l HR) as (_ & Hs & _).
  split; [done|]. by rewrite <- Hs.
Qed.

Lemma window_full (es : list Settlement) (l : Locals) :
  Run o P es l →
  1 ≤ concurrency o →
  (index l < total o)%nat →
  Z.of_nat (length (inflight l)) = concurrency o.
Proof.
  intros HR Hc Hlt.
  destruct (Run_Orderly o P HQ es l HR) as (Hres & _ & _ & _ & Hm & _).
  destruct (Run_Inv o P es l HR) as [(_ & _ & Hsum & _) [Hb Hr]].
  destruct (Run_Launched o P es l HR) as (_ & Hs & _).
  unfold mayLaunch in Hm. apply andb_false_iff in Hm as [Hm|Hm].
  - apply Nat.ltb_ge in Hm. lia.
  - apply Z.ltb_ge in Hm. rewrite Hres, length_map in Hm, Hb. lia.
Qed.

(** While the signal is not aborted and no callback throws: [onComplete]
    has been called exactly when every port has settled, once, with all the
    results, and [resolve] with it. *)
Theorem completes_when_all_settled (es : list Settlement) (l : Locals) :
  Run o P es l →
  completed (invoked l) = (if decide (length es = total o) then [results l] else [])
  ∧ promiseResolved l = bool_decide (length es = total o).
Proof.
  intros HR. destruct (Run_Orderly o P HQ es l HR) as (_ & _ & H1 & H2 & _).
  destruct (Run_Launched o P es l HR) as (_ & Hs & _).
  by rewrite <- Hs.
Qed.

Lemma Run_all_ports (es : list Settlement) (l : Locals) :
  Run o P es l →
  length es = total o →
  inflight l = []
  ∧ map s_index es ≡ₚ seq 0 (total o)
  ∧ map port (results l) ≡ₚ ports o.
Proof.
  intros HR Hlen.
  destruct (Run_Orderly o P HQ es l HR) as (Hres & _).
  destruct (Run_Launched o P es l HR) as (Hperm & Hs & Hle).
  assert (inflight l = [] ∧ index l = total o) as [Hnil Hi].
  { apply Permutation_length in Hperm.
    rewrite length_app, length_map, length_seq in Hperm.
    split; [|lia]. apply length_zero_iff_nil. lia. }
  rewrite Hnil, app_nil_r, Hi in Hperm.
  split; [done|]. split; [done|].
  rewrite Hres, map_map.
  change (map (λ x, port (resultOf o x)) es)
    with (map (λ e, default 0 (ports o !! s_index e)) es).
  rewrite <- (map_map s_index (λ i, default 0 (ports o !! i))).
  rewrite Hperm. apply Permutation_refl'. apply lookup_all.
Qed.

Lemma Run_drained (es : list Settlement) (l : Locals) :
  Run o P es l →
  1 ≤ concurrency o →
  inflight l = [] →
  length es = total o.
Proof.
  intros HR Hc Hnil.
  destruct (Run_Launched o P es l HR) as (Hperm & Hs & Hle).
  assert (index l = total o) as Hi.
  { destruct (decide (index l < total o)%nat) as [Hlt|]; [|lia].
    pose proof (window_full es l HR Hc Hlt) as Hw. rewrite Hnil in Hw.
    simpl in Hw. lia. }
  apply Permutation_length in Hperm.
  rewrite Hnil, app_nil_r, length_map, length_seq in Hperm. lia.
Qed.

(** While the signal is not aborted and no callback throws, with a
    concurrency of at least one: when no probe is in flight any more, every
    port of the list has settled exactly once, the results are the ports of
    the list in the order of completion, and the last three calls were
    [onResult] for the last result, [onProgress(total, total)] and
    [onComplete] with all the results. *)
Theorem scan_completes (es : list Settlement) (l : Locals) :
  Run o P es l →
  1 ≤ concurrency o →
  ports o ≠ [] →
  inflight l = [] →
  length es = total o
  ∧ map s_index es ≡ₚ seq 0 (total o)
  ∧ map port (results l) ≡ₚ ports o
  ∧ promiseResolved l = true
  ∧ completed (invoked l) = [results l]
  ∧ ∃ pre r, invoked l
             = pre ++ [OnResult r;
                       OnProgress (Z.of_nat (total o)) (Z.of_nat (total o));
                       OnComplete (results l)].
Proof.
  intros HR Hc Hne Hnil.
  assert (total o ≠ 0)%nat as Ht.
  { unfold total. destruct (ports o); [done | simpl; lia]. }
  pose proof (Run_drained es l HR Hc Hnil) as Hlen.
  destruct (Run_all_ports es l HR Hlen) as (_ & Hperm & Hports).
  destruct (Run_Orderly o P HQ es l HR) as (Hres & _ & Hcomp & Hpr & _ & _ & _ & Hend).
  destruct (Run_Launched o P es l HR) as (_ & Hs & _).
  split; [done|]. split; [done|]. split; [done|].
  rewrite Hpr, Hcomp, Hs, Hlen. rewrite decide_True by done.
  rewrite bool_decide_eq_true_2 by done.
  split; [done|]. split; [done|]. apply Hend; [lia | done].
Qed.

(** While the signal is not aborted and no callback throws, with a
    concurrency of at least one: the number of probes in flight is the
    smaller of [concurrency] and the number of ports that have not settled
    yet, so that every slot is taken as long as a port is left for it. *)
Theorem window_stays_full (es : list Settlement) (l : Locals) :
  Run o P es l →
  1 ≤ concurrency o →
  Z.of_nat (length (inflight l))
  = Z.min (concurrency o) (Z.of_nat (total o) - Z.of_nat (length es)).
Proof.
  intros HR Hc.
  destruct (Run_Inv o P es l HR) as [(_ & _ & Hsum & _) [Hb Hr]].
  destruct (Run_Orderly o P HQ es l HR) as (Hres & _).
  destruct (Run_Launched o P es l HR) as (Hperm & Hs & Hle).
  apply Permutation_length in Hperm.
  rewrite length_app, length_map, length_seq in Hperm.
  rewrite Hres, length_map in Hb.
  destruct (decide (index l < total o)%nat) as [Hlt|Hge].
  - pose proof (window_full es l HR Hc Hlt). lia.
  - lia.
Qed.

Lemma invoke_quiet_world (c : Call) (l : Locals) (w : W) :
  P w →
  ∃ w', P w' ∧ w' = applyCalls o [c] w
    ∧ invoke o c (l, w)
      = (Ok tt,
         (mkLocals (results l) (scanned l) (index l) (lastProgressTime l)
            (inflight l) (promiseResolved l) (invoked l ++ [c]), w')).
Proof.
  intros Hw. unfold invoke, applyCalls. cbn [fst snd fold_left]. destruct c as [r|n t|rs].
  - destruct (quiet_onResult o P HQ r w Hw) as (w' & -> & Hw'). eauto.
  - destruct (quiet_onProgress o P HQ n t w Hw) as (w' & -> & Hw'). eauto.
  - destruct (quiet_onComplete o P HQ rs w Hw) as (w' & -> & Hw'). eauto.
Qed.

Lemma applyCalls_app (cs cs' : list Call) (w : W) :
  applyCalls o (cs ++ cs') w = applyCalls o cs' (applyCalls o cs w).
Proof. unfold applyCalls. by rewrite fold_left_app. Qed.

(** The world after a continuation is the one its callbacks have made. *)
Lemma onSettled_world (r : PortResult) (now : Z) (l : Locals) (w : W) :
  P w →
  ∃ w' news, P w'
    ∧ invoked (normalStep o r now l) = invoked l ++ news
    ∧ w' = applyCalls o news w
    ∧ onSettled o r now (l, w) = (Ok tt, (normalStep o r now l, w')).
Proof.
  intros Hw. unfold onSettled, aborted, readW, mbind, M_bind.
  cbn [fst snd]. rewrite (quiet_signal o P HQ w Hw).
  unfold incrScanned, pushResult, modL, getL.
  cbn [fst snd results scanned index lastProgressTime inflight promiseResolved invoked].
  match goal with |- context [invoke o ?c (?l0, w)] =>
    destruct (invoke_quiet_world c l0 w Hw) as (w1 & Hw1 & Ha1 & ->) end.
  unfold normalStep.
  cbn [fst snd results scanned index lastProgressTime inflight promiseResolved invoked].
  destruct ((50 <? now - lastProgressTime l) || (total o <=? S (scanned l))%nat) eqn:Hp.
  - rewrite ?Hp. unfold setLastProgressTime, modL.
    cbn [fst snd results scanned index lastProgressTime inflight promiseResolved invoked].
    match goal with |- context [invoke o ?c (?l0, w1)] =>
      destruct (invoke_quiet_world c l0 w1 Hw1) as (w2 & Hw2 & Ha2 & ->) end.
    cbn [fst snd results scanned index lastProgressTime inflight promiseResolved invoked].
    destruct (total o <=? S (scanned l))%nat eqn:Hc; rewrite ?Hc.
    + match goal with |- context [invoke o ?c (?l0, w2)] =>
        destruct (invoke_quiet_world c l0 w2 Hw2) as (w3 & Hw3 & Ha3 & ->) end.
      exists w3. eexists. split; [done|].
      cbn [invoked]. rewrite <- !app_assoc. split; [reflexivity|].
      split; [|reflexivity].
      rewrite Ha3, Ha2, Ha1. reflexivity.
    + unfold next, aborted, readW, mbind, M_bind, getL, modL. cbn [fst snd].
      rewrite (quiet_signal o P HQ w2 Hw2). exists w2. eexists. split; [done|].
      rewrite (proj2 (proj2 (proj2 (proj2 (launchLoop_fields o _ _))))).
      cbn [invoked]. rewrite <- !app_assoc. split; [reflexivity|].
      split; [|reflexivity]. rewrite Ha2, Ha1. reflexivity.
  - rewrite ?Hp. unfold ret, mret, M_ret.
    cbn [fst snd results scanned index lastProgressTime inflight promiseResolved invoked].
    destruct (total o <=? S (scanned l))%nat eqn:Hc; rewrite ?Hc.
    + match goal with |- context [invoke o ?c (?l0, w1)] =>
        destruct (invoke_quiet_world c l0 w1 Hw1) as (w3 & Hw3 & Ha3 & ->) end.
      exists w3. eexists. split; [done|].
      cbn [invoked]. rewrite <- !app_assoc. split; [reflexivity|].
      split; [|reflexivity]. rewrite Ha3, Ha1. reflexivity.
    + unfold next, aborted, readW, mbind, M_bind, getL, modL. cbn [fst snd].
      rewrite (quiet_signal o P HQ w1 Hw1). exists w1. eexists. split; [done|].
      rewrite (proj2 (proj2 (proj2 (proj2 (launchLoop_fields o _ _))))).
      cbn [invoked]. split; [reflexivity|].
      split; [|reflexivity]. rewrite Ha1. reflexivity.
Qed.

(** A sequence of settlements that starts in a world of [P] is a history:
    no continuation throws and the world stays in [P]; the world at the end
    is the one that the callbacks invoked on the way have made. *)
Lemma settleAll_Run (es0 es : list Settlement) (l l' : Locals) (w w' : W)
    (errs : list string) :
  Run o P es0 l → P w →
  settleAll o es l w = Some (errs, l', w') →
  Run o P (es0 ++ es) l' ∧ P w' ∧ errs = []
  ∧ ∃ news, invoked l' = invoked l ++ news ∧ w' = applyCalls o news w.
Proof.
  revert es0 l w errs. induction es as [|e es IH]; intros es0 l w errs HR Hw.
  - intros [= <- <- <-]. rewrite app_nil_r. split; [done|]. split; [done|].
    split; [done|]. exists []. by rewrite app_nil_r.
  - cbn [settleAll]. destruct (settle o e l w) as [[[res l1] w1]|] eqn:E; [|discriminate].
    destruct (settleAll o es l1 w1) as [[[errs2 l2] w2]|] eqn:E2; [|discriminate].
    intros [= <- <- <-].
    pose proof (run_settle o P es0 l l1 e w w1 res HR Hw E) as HR1.
    assert (res = Ok tt ∧ P w1
            ∧ ∃ news, invoked l1 = invoked l ++ news ∧ w1 = applyCalls o news w)
      as (-> & Hw1 & news1 & Hn1 & Hwn1).
    { unfold settle in E. case_bool_decide as Hi; [|discriminate].
      match type of E with context [onSettled o ?r ?now (?l0, w)] =>
        destruct (onSettled_world r now l0 w Hw) as (wx & news & Hwx & Hin & Hap & Eq) end.
      rewrite Eq in E. injection E as <- <- <-.
      split; [done|]. split; [done|]. exists news. split; [|done].
      rewrite Hin. reflexivity. }
    destruct (IH (es0 ++ [e]) l1 w1 errs2 HR1 Hw1 E2) as (HR2 & Hw2 & -> & news2 & Hn2 & Hwn2).
    rewrite <- app_assoc in HR2. split; [done|]. split; [done|]. split; [done|].
    exists (news1 ++ news2). rewrite Hn2, Hn1, <- app_assoc. split; [done|].
    rewrite Hwn2, Hwn1. by rewrite applyCalls_app.
Qed.
End CompleteFacts.


Section AfterFacts.
Import PortQueue PortQueueSpec PoolRuns PoolQuiet PoolWorld PoolAfter.
Context {W : Type}.
Variable o : ScanOptions W.

Lemma settleAll_Run_any (es0 es : list Settlement) (l l' : Locals) (w w' : W)
    (errs : list string) :
  Run o (λ _, True) es0 l →
  settleAll o es l w = Some (errs, l', w') →
  Run o (λ _, True) (es0 ++ es) l'.
Proof.
  revert es0 l w errs. induction es as [|e es IH]; intros es0 l w errs HR.
  - intros [= <- <- <-]. by rewrite app_nil_r.
  - cbn [settleAll]. destruct (settle o e l w) as [[[res l1] w1]|] eqn:E; [|discriminate].
    destruct (settleAll o es l1 w1) as [[[errs2 l2] w2]|] eqn:E2; [|discriminate].
    intros [= <- <- <-].
    pose proof (run_settle o (λ _, True) es0 l l1 e w w1 res HR I E) as HR1.
    specialize (IH (es0 ++ [e]) l1 w1 errs2 HR1 E2).
    by rewrite <- app_assoc in IH.
Qed.

Lemma after_Run_any (scanStart : Z) (w : W) (es : list Settlement) (l : Locals) :
  after o scanStart w es = Some l → Run o (λ _, True) es l.
Proof.
  unfold after. destruct (runScan o scanStart w) as [[pr l0] w0] eqn:E0.
  destruct (settleAll o es l0 w0) as [[[errs l1] w1]|] eqn:E1; [|discriminate].
  intros [= <-].
  apply (settleAll_Run_any [] es l0 l1 w0 w1 errs); [|done].
  by apply (run_start o (λ _, True) scanStart w w0 pr l0).
Qed.

Lemma runScan_quiet (P : W → Prop) (scanStart : Z) (w w' : W) pr l :
  Quiet o P → P w → runScan o scanStart w = (pr, l, w') → P w'.
Proof.
  intros HQ Hw E. destruct (ports o) as [|p ps] eqn:Hp.
  - destruct (runScan_empty o scanStart w Hp) as (l' & E' & _).
    rewrite E in E'. injection E' as _ _ ->.
    destruct (quiet_onComplete o P HQ [] w Hw) as (w1 & -> & Hw1). done.
  - assert (ports o ≠ []) as Hne by (by rewrite Hp).
    destruct (runScan_live o scanStart w (quiet_signal o P HQ w Hw) Hne) as (l' & E' & _).
    rewrite E in E'. by injection E' as _ _ ->.
Qed.

Lemma after_Run (P : W → Prop) (scanStart : Z) (w : W) (es : list Settlement)
    (l : Locals) :
  Quiet o P → P w → after o scanStart w es = Some l → Run o P es l.
Proof.
  intros HQ Hw. unfold after.
  destruct (runScan o scanStart w) as [[pr l0] w0] eqn:E0.
  destruct (settleAll o es l0 w0) as [[[errs l1] w1]|] eqn:E1; [|discriminate].
  intros [= <-].
  pose proof (runScan_quiet P scanStart w w0 pr l0 HQ Hw E0) as Hw0.
  apply (settleAll_Run o P HQ [] es l0 l1 w0 w1 errs); [|done|done].
  by apply (run_start o P scanStart w w0 pr l0).
Qed.

Lemma repeatNext_cancelled (P : W → Prop) (n : nat) (l : Locals) (w : W) :
  (∀ w, P w → isAborted o w = true) →
  (∀ rs w, P w → ∃ w', onComplete o rs w = (Ok tt, w') ∧ P w') →
  P w → scanned l = 0%nat → index l = 0%nat →
  ∃ w', P w'
    ∧ repeatNext o n (l, w)
      = (Ok tt,
         (mkLocals (results l) (scanned l) (index l) (lastProgressTime l) (inflight l)
            (match n with O => promiseResolved l | S _ => true end)
            (invoked l ++ replicate n (OnComplete (results l))), w')).
Proof.
  intros Ha Hc. revert l w. induction n as [|n IH]; intros l w Hw Hs Hi.
  - exists w. split; [done|]. cbn. rewrite app_nil_r. by destruct l.
  - cbn [repeatNext]. unfold mbind at 1, M_bind at 1.
    unfold next, aborted, readW, mbind, M_bind, getL. cbn [fst snd].
    rewrite (Ha w Hw), Hs, Hi.
    replace (Z.of_nat 0 + (Z.of_nat (total o) - Z.of_nat 0) >=? Z.of_nat (total o))
      with true by (symmetry; apply Z.geb_le; lia).
    cbn [orb]. unfold invoke. cbn [fst snd].
    destruct (Hc (results l) w Hw) as (w1 & -> & Hw1).
    unfold resolve, modL.
    cbn [fst snd results scanned index lastProgressTime inflight promiseResolved invoked].
    match goal with |- context [repeatNext o n (?l1, w1)] =>
      destruct (IH l1 w1 Hw1 Hs Hi) as (w2 & Hw2 & ->) end.
    exists w2. split; [done|].
    cbn [fst snd results scanned index lastProgressTime inflight promiseResolved invoked].
    rewrite <- app_assoc. cbn [replicate app]. rewrite ?Hs, ?Hi. by destruct n.
Qed.

(** [runScan] with ports to scan and a signal that is not aborted: before
    it returns it has launched the first [min(concurrency, total)] ports and
    nothing else has happened: no callback was invoked, the world is as it
    was, the promise is pending. *)
Theorem runScan_first_batch (scanStart : Z) (w : W) :
  isAborted o w = false →
  ports o ≠ [] →
  ∃ l, runScan o scanStart w = (Pending, l, w)
    ∧ index l = Z.to_nat (Z.min (concurrency o) (Z.of_nat (total o)))
    ∧ inflight l = seq 0 (index l)
    ∧ results l = [] ∧ scanned l = 0%nat ∧ invoked l = []
    ∧ promiseResolved l = false.
Proof.
  intros Ha Hne. destruct (runScan_live o scanStart w Ha Hne) as (l & H & H1 & H2 & H3 & H4 & H5 & H6 & _).
  exists l. done.
Qed.

(** [runScan] with no port: [onComplete([])] is called once, whatever the
    signal says, and nothing else happens; the promise is fulfilled, or
    rejected when the callback throws. *)
Theorem runScan_no_ports (scanStart : Z) (w : W) :
  ports o = [] →
  ∃ l, runScan o scanStart w
       = (match fst (onComplete o [] w) with Ok _ => Fulfilled | Throw e => Rejected e end,
          l, snd (onComplete o [] w))
    ∧ invoked l = [OnComplete []] ∧ index l = 0%nat ∧ inflight l = []
    ∧ results l = [] ∧ scanned l = 0%nat.
Proof.
  intros Hnil. destruct (runScan_empty o scanStart w Hnil) as (l & H & H1 & H2 & H3 & H4 & H5 & _).
  exists l. done.
Qed.

(** [runScan] with ports to scan and a signal that is aborted already, in
    worlds [P] where it stays aborted and [onComplete] returns: no probe is
    launched, and [onComplete([])] is called once by every [next()] of the
    initial batch, [min(concurrency, total)] times in all. *)
Theorem runScan_preaborted (P : W → Prop) (scanStart : Z) (w : W) :
  (∀ w, P w → isAborted o w = true) →
  (∀ rs w, P w → ∃ w', onComplete o rs w = (Ok tt, w') ∧ P w') →
  P w →
  ports o ≠ [] →
  ∃ l w', runScan o scanStart w
          = (if decide (1 ≤ concurrency o) then Fulfilled else Pending, l, w')
    ∧ P w'
    ∧ invoked l
      = replicate (Z.to_nat (Z.min (concurrency o) (Z.of_nat (total o)))) (OnComplete [])
    ∧ index l = 0%nat ∧ inflight l = [] ∧ results l = [] ∧ scanned l = 0%nat.
Proof.
  intros Ha Hc Hw Hne. assert (total o ≠ 0)%nat as Ht.
  { unfold total. destruct (ports o); [done | simpl; lia]. }
  unfold runScan, executor. unfold mbind at 1, M_bind at 1.
  destruct (repeatNext_cancelled P (Z.to_nat (Z.min (concurrency o) (Z.of_nat (total o))))
              (initLocals scanStart) w Ha Hc Hw eq_refl eq_refl) as (w' & Hw' & ->).
  destruct (Nat.eqb_spec (total o) 0) as [|_]; [done|].
  unfold ret, mret, M_ret.
  set (n := Z.to_nat (Z.min (concurrency o) (Z.of_nat (total o)))).
  exists (mkLocals [] 0 0 scanStart [] (match n with O => false | S _ => true end)
            (replicate n (OnComplete []))), w'.
  split; [|split; [done|]; cbn; done].
  unfold promiseOf.
  cbn [fst snd results scanned index lastProgressTime inflight promiseResolved invoked
       initLocals app].
  destruct (decide (1 ≤ concurrency o)) as [H1|H1].
  - destruct n eqn:E; [lia | reflexivity].
  - replace n with 0%nat by lia. reflexivity.
Qed.
End AfterFacts.


Section ServiceFacts.
Import PortQueue PortQueueSpec PoolRuns PoolQuiet PoolWorld PoolAfter Probe.
Import Scanner Scenario ServiceSpec.

Lemma World_eta (w : World) :
  mkWorld (activeScans w) (abortedSignals w) (controllers w) (fatal w)
    (unhandled w ++ []) (calls w) = w.
Proof. destruct w. simpl. by rewrite app_nil_r. Qed.

Lemma quiet_Passive : Passive quiet.
Proof. split; intros; eexists; (split; [reflexivity|]); done. Qed.

Section OneScan.
Variable config : ScanConfig.
Variable cbs : ScanCallbacks.
Variable c : nat.
Hypothesis HP : Passive cbs.

Lemma optionsOf_Quiet : Quiet (optionsOf config cbs c) (live c).
Proof.
  split.
  - intros w Hw. unfold isAborted, optionsOf. cbn [signal].
    by apply bool_decide_eq_false.
  - intros r w Hw. cbn [optionsOf onResult].
    destruct (passive_onResult cbs HP r w) as (w' & -> & _ & Hs).
    exists w'. split; [done|]. unfold live. by rewrite Hs.
  - intros n t w Hw. cbn [optionsOf onProgress].
    destruct (passive_onProgress cbs HP n t w) as (w' & -> & _ & Hs).
    exists w'. split; [done|]. unfold live. by rewrite Hs.
  - intros rs w Hw. cbn [optionsOf onComplete]. unfold completeScan.
    destruct (passive_onComplete cbs HP rs (forget (scanId config) w)) as (w' & -> & _ & Hs).
    exists w'. split; [done|]. unfold live. by rewrite Hs.
Qed.

(** The registry after the callbacks of a scan have run: its entry is
    gone once [onComplete] was among them. *)
Lemma applyCalls_registry (news : list Call) (w : World) :
  activeScans (applyCalls (optionsOf config cbs c) news w)
  = if decide (completed news = []) then activeScans w
    else delete (scanId config) (activeScans w).
Proof.
  revert w. induction news as [|call news IH]; intros w; [done|].
  change (applyCalls (optionsOf config cbs c) (call :: news) w)
    with (applyCalls (optionsOf config cbs c) news
            (applyCalls (optionsOf config cbs c) [call] w)).
  rewrite IH. unfold applyCalls at 1 2. cbn [fold_left].
  destruct call as [r|n t|rs]; cbn [optionsOf onResult onProgress onComplete].
  - destruct (passive_onResult cbs HP r w) as (w' & -> & Ha & _). cbn [snd].
    rewrite Ha. unfold completed. cbn [omap]. done.
  - destruct (passive_onProgress cbs HP n t w) as (w' & -> & Ha & _). cbn [snd].
    rewrite Ha. unfold completed. cbn [omap]. done.
  - unfold completeScan.
    destruct (passive_onComplete cbs HP rs (forget (scanId config) w)) as (w' & -> & Ha & _).
    cbn [snd]. rewrite Ha. unfold forget. cbn [activeScans].
    rewrite (decide_False (P := completed (OnComplete rs :: news) = [])) by done.
    destruct (decide (completed news = [])); [done|].
    apply map_eq. intros k. destruct (decide (k = scanId config)) as [->|];
      rewrite ?lookup_delete_eq, ?lookup_delete_ne by done; done.
Qed.

(** Probes of a started scan settle in worlds where its signal is live. *)
Lemma probesSettle_Run (es0 es : list Settlement) (sc sc' : Started) (w w' : World) :
  st_options sc = optionsOf config cbs c →
  Run (optionsOf config cbs c) (live c) es0 (st_locals sc) →
  live c w →
  st_promise sc = (if promiseResolved (st_locals sc) then Fulfilled else Pending) →
  probesSettle es sc w = Some (sc', w') →
  Run (optionsOf config cbs c) (live c) (es0 ++ es) (st_locals sc')
  ∧ live c w'
  ∧ st_options sc' = optionsOf config cbs c
  ∧ st_target sc' = st_target sc
  ∧ st_promise sc' = (if promiseResolved (st_locals sc') then Fulfilled else Pending)
  ∧ ∃ news, invoked (st_locals sc') = invoked (st_locals sc) ++ news
            ∧ w' = applyCalls (optionsOf config cbs c) news w.
Proof.
  revert es0 sc w. induction es as [|e es IH]; intros es0 sc w Ho HR Hw Hpr.
  - intros [= <- <-]. rewrite app_nil_r. do 5 (split; [done|]).
    exists []. by rewrite app_nil_r.
  - cbn [probesSettle]. destruct (probeSettles e sc w) as [[sc1 w1]|] eqn:E; [|discriminate].
    intros E2. unfold probeSettles in E. rewrite Ho in E.
    destruct (settle (optionsOf config cbs c) e (st_locals sc) w)
      as [[[res l1] w1']|] eqn:Es; [|discriminate].
    injection E as <- <-.
    pose proof (run_settle _ _ es0 _ l1 e w w1' res HR Hw Es) as HR1.
    destruct (settleAll_Run _ _ optionsOf_Quiet es0 [e] (st_locals sc) l1 w w1' (thrown res)
                HR Hw) as (_ & Hw1 & Hres & news1 & Hn1 & Hwn1).
    { cbn [settleAll]. rewrite Es. by rewrite app_nil_r. }
    rewrite Hres, World_eta in E2.
    assert (promiseResolved (st_locals sc) = false) as Hpend.
    { destruct (promiseResolved (st_locals sc)) eqn:Ep; [|done]. exfalso.
      destruct (Run_Orderly _ _ optionsOf_Quiet es0 _ HR) as (_ & _ & _ & Hp & _).
      rewrite Ep in Hp. symmetry in Hp. apply bool_decide_eq_true in Hp.
      destruct (Run_Launched _ _ es0 _ HR) as (Hperm & Hs & Hle).
      apply Permutation_length in Hperm.
      rewrite length_app, length_map, length_seq in Hperm.
      unfold settle in Es. case_bool_decide as Hin; [|discriminate].
      destruct (inflight (st_locals sc)); [by apply elem_of_nil in Hin|].
      simpl in Hperm. lia. }
    rewrite Hpr, Hpend in E2.
    match type of E2 with probesSettle es ?s w1' = _ =>
      destruct (IH (es0 ++ [e]) s w1' eq_refl HR1 Hw1 eq_refl E2)
        as (HR2 & Hw2 & Ho2 & Ht2 & Hp2 & news2 & Hn2 & Hwn2) end.
    rewrite <- app_assoc in HR2. cbn [st_locals st_target] in *.
    do 5 (split; [done|]).
    exists (news1 ++ news2). rewrite Hn2, Hn1, <- app_assoc. split; [done|].
    rewrite Hwn2, Hwn1. by rewrite applyCalls_app.
Qed.
End OneScan.

(** What [startScan] does with a valid target and ports to scan, when the
    signal of the controller it allocates is live. *)
Lemma startScan_live (config : ScanConfig) (cbs : ScanCallbacks) (now : Z)
    (w w1 : World) (sc : Started) :
  live (controllers w) w →
  cfg_ports config ≠ [] →
  startScan config cbs now w = (Ok sc, w1) →
  w1 = mkWorld (<[scanId config := controllers w]> (activeScans w)) (abortedSignals w)
         (S (controllers w)) (fatal w) (unhandled w) (calls w)
  ∧ st_options sc = optionsOf config cbs (controllers w)
  ∧ st_promise sc = Pending
  ∧ runScan (optionsOf config cbs (controllers w)) now w1 = (Pending, st_locals sc, w1)
  ∧ invoked (st_locals sc) = []
  ∧ promiseResolved (st_locals sc) = false
  ∧ index (st_locals sc)
    = Z.to_nat (Z.min (clampConcurrency (cfg_concurrency config))
                  (Z.of_nat (length (cfg_ports config))))
  ∧ inflight (st_locals sc) = seq 0 (index (st_locals sc)).
Proof.
  intros Hl Hne H. pose proof (startScan_Ok _ _ _ _ _ _ H) as Hv.
  unfold startScan in H. rewrite Hv in H. cbn [negb] in H.
  change (mkOptions _ _ _ _ _ _ _ _) with (optionsOf config cbs (controllers w)) in H.
  set (w0 := mkWorld _ _ _ _ _ _) in *.
  destruct (runScan_live (optionsOf config cbs (controllers w)) now w0)
    as (l & E & Hi & Hf & _ & _ & Hinv & Hpr & _).
  { unfold isAborted, optionsOf. cbn [signal]. by apply bool_decide_eq_false. }
  { done. }
  rewrite E in H. injection H as <- <-. cbn [st_options st_promise st_locals].
  do 3 (split; [done|]). split; [done|]. split; [done|]. split; [done|].
  split; [|done]. rewrite Hi. reflexivity.
Qed.

(** A scan started by [startScan] with callbacks that return, while nobody
    aborts it: after the probes of [es] have settled, the scan is in the
    registry exactly as long as a port has not settled, and so long a probe
    is in flight; every result has been passed to [onResult], in the order
    of completion; [onComplete] has been called exactly when the last port
    settled, once, with all the results, which are those of the ports of
    the configuration; the promise of [runScan] is fulfilled then and
    pending before; the entries of other scans are as they were. *)
Theorem service_scan_completes (config : ScanConfig) (cbs : ScanCallbacks) (now : Z)
    (es : list Settlement) (w w1 w' : World) (sc sc' : Started) :
  Passive cbs →
  live (controllers w) w →
  cfg_ports config ≠ [] →
  startScan config cbs now w = (Ok sc, w1) →
  probesSettle es sc w1 = Some (sc', w') →
  let n := length (cfg_ports config) in
  let l := st_locals sc' in
  (length es ≤ n)%nat
  ∧ isActive (scanId config) w' = bool_decide (length es ≠ n)
  ∧ (inflight l = [] ↔ length es = n)
  ∧ st_promise sc' = (if decide (length es = n) then Fulfilled else Pending)
  ∧ delivered (invoked l) = results l
  ∧ map status (results l) = map s_status es
  ∧ completed (invoked l) = (if decide (length es = n) then [results l] else [])
  ∧ (length es = n → map port (results l) ≡ₚ cfg_ports config)
  ∧ (∀ id', id' ≠ scanId config → isActive id' w' = isActive id' w).
Proof.
  intros HP Hl Hne Hstart Hsettle n l.
  destruct (startScan_live config cbs now w w1 sc Hl Hne Hstart)
    as (Hw1 & Ho & Hpend & Hrun & Hinv & Hres & _).
  set (o := optionsOf config cbs (controllers w)) in *.
  assert (live (controllers w) w1) as Hl1 by (by rewrite Hw1).
  assert (Run o (live (controllers w)) [] (st_locals sc)) as HR0.
  { by apply (run_start o _ now w1 w1 Pending). }
  destruct (probesSettle_Run config cbs (controllers w) HP [] es sc sc' w1 w' Ho HR0 Hl1)
    as (HR & Hl' & Ho' & _ & Hp' & news & Hnews & Hw').
  { by rewrite Hpend, Hres. }
  { done. }
  cbn [app] in HR. fold l in HR, Hp', Hnews. rewrite Hinv in Hnews. cbn [app] in Hnews.
  pose proof (optionsOf_Quiet config cbs (controllers w) HP) as HQ. fold o in HQ.
  destruct (Run_Orderly o _ HQ es l HR) as (Hrs & Hdel & Hcomp & Hpr & _).
  destruct (Run_Launched o _ es l HR) as (Hperm & Hs & Hle).
  assert (total o = n) as Ht by done.
  rewrite Hs, Ht in Hcomp, Hpr.
  pose proof (Permutation_length Hperm) as Hlen.
  rewrite length_app, length_map, length_seq in Hlen.
  split; [lia|].
  assert (activeScans w'
          = if decide (length es = n)
            then delete (scanId config) (<[scanId config := controllers w]> (activeScans w))
            else <[scanId config := controllers w]> (activeScans w)) as Hreg.
  { rewrite Hw'. unfold o. rewrite (applyCalls_registry config cbs (controllers w) HP).
    rewrite <- Hnews, Hcomp. rewrite Hw1. cbn [activeScans].
    destruct (decide (length es = n)); [by rewrite decide_False | by rewrite decide_True]. }
  split.
  { unfold isActive. rewrite Hreg. destruct (decide (length es = n)) as [He|He].
    - rewrite lookup_delete_eq. rewrite bool_decide_eq_false_2 by (by intros []).
      symmetry. apply bool_decide_eq_false_2. by intros Hx.
    - rewrite lookup_insert_eq. rewrite bool_decide_eq_true_2 by eauto.
      symmetry. by apply bool_decide_eq_true_2. }
  split.
  { split.
    - intros Hnil. rewrite <- Ht. apply (Run_drained o _ HQ es l HR); [|done].
      unfold o, optionsOf, clampConcurrency. cbn [concurrency]. lia.
    - intros He. rewrite <- Ht in He. by destruct (Run_all_ports o _ HQ es l HR He). }
  split.
  { rewrite Hp', Hpr. destruct (decide (length es = n)) as [He|He].
    - by rewrite bool_decide_eq_true_2.
    - by rewrite bool_decide_eq_false_2. }
  split; [done|]. split.
  { rewrite Hrs, map_map. done. }
  split; [done|]. split.
  { intros He. rewrite <- Ht in He. by destruct (Run_all_ports o _ HQ es l HR He) as (_ & _ & ?). }
  intros id' Hid. unfold isActive. rewrite Hreg.
  destruct (decide (length es = n));
    rewrite ?lookup_delete_ne, ?lookup_insert_ne by done; done.
Qed.

(** [startScan] with a valid target and no port, and callbacks that
    return: [onComplete([])] is called before [startScan] returns, the
    promise is fulfilled, and the scan has left the registry already. *)
Theorem startScan_no_ports (config : ScanConfig) (cbs : ScanCallbacks) (now : Z)
    (w : World) :
  Passive cbs →
  Target.validateTarget (Target.sanitizeTarget (target config)) = true →
  cfg_ports config = [] →
  ∃ sc w', startScan config cbs now w = (Ok sc, w')
    ∧ st_promise sc = Fulfilled
    ∧ invoked (st_locals sc) = [OnComplete []]
    ∧ inflight (st_locals sc) = []
    ∧ isActive (scanId config) w' = false
    ∧ (∀ id', id' ≠ scanId config → isActive id' w' = isActive id' w).
Proof.
  intros HP Hv Hnil. unfold startScan. rewrite Hv. cbn [negb].
  change (mkOptions _ _ _ _ _ _ _ _) with (optionsOf config cbs (controllers w)).
  set (w0 := mkWorld _ _ _ _ _ _).
  destruct (runScan_empty (optionsOf config cbs (controllers w)) now w0 Hnil)
    as (l & E & Hinv & _ & Hfl & _).
  rewrite E. cbn [optionsOf onComplete]. unfold completeScan.
  destruct (passive_onComplete cbs HP [] (forget (scanId config) w0)) as (w' & -> & Ha & _).
  cbn [fst snd]. eexists _, _. split; [reflexivity|]. cbn [st_promise st_locals].
  do 3 (split; [done|]). unfold isActive. rewrite Ha. unfold forget, w0. cbn [activeScans].
  split.
  - rewrite lookup_delete_eq. apply bool_decide_eq_false_2. by intros [].
  - intros id' Hid. by rewrite lookup_delete_ne, lookup_insert_ne.
Qed.

(** A scan started under the id of a scan that is still running takes
    over the registry entry: [abortScan] then aborts the signal of the
    second scan only, the signal of the first stays live, and no later
    [abortScan] of that id reaches it. *)
Theorem restarted_id_orphans_first_scan (c1 c2 : ScanConfig) (cbs : ScanCallbacks)
    (t1 t2 : Z) (w w1 w2 : World) (sc1 sc2 : Started) :
  live (controllers w) w →
  live (S (controllers w)) w →
  cfg_ports c1 ≠ [] → cfg_ports c2 ≠ [] →
  scanId c2 = scanId c1 →
  startScan c1 cbs t1 w = (Ok sc1, w1) →
  startScan c2 cbs t2 w1 = (Ok sc2, w2) →
  let w3 := snd (abortScan (scanId c1) w2) in
  fst (abortScan (scanId c1) w2) = true
  ∧ isAborted (st_options sc2) w3 = true
  ∧ isAborted (st_options sc1) w3 = false
  ∧ abortScan (scanId c1) w3 = (false, w3).
Proof.
  intros H1 H2 Hn1 Hn2 Hid Hs1 Hs2 w3.
  destruct (startScan_live c1 cbs t1 w w1 sc1 H1 Hn1 Hs1) as (Hw1 & Ho1 & _).
  assert (live (controllers w1) w1) as H1'.
  { rewrite Hw1. unfold live. cbn [controllers abortedSignals]. done. }
  destruct (startScan_live c2 cbs t2 w1 w2 sc2 H1' Hn2 Hs2) as (Hw2 & Ho2 & _).
  assert (activeScans w2 !! scanId c1 = Some (S (controllers w))) as Hreg.
  { rewrite Hw2. cbn [activeScans]. rewrite Hid, lookup_insert_eq.
    rewrite Hw1. done. }
  assert (abortedSignals w2 = abortedSignals w) as Hsig.
  { rewrite Hw2. cbn [abortedSignals]. rewrite Hw1. done. }
  unfold w3, abortScan. rewrite Hreg. cbn [fst snd].
  split; [done|]. rewrite Ho1, Ho2. unfold isAborted, optionsOf. cbn [signal abortedSignals].
  rewrite Hw1. cbn [controllers]. rewrite Hsig. cbn [activeScans].
  split; [apply bool_decide_eq_true_2; set_solver|].
  split.
  { apply bool_decide_eq_false_2. unfold live in H1. intros [Hx|Hx]%elem_of_union; [|done].
    apply elem_of_singleton in Hx. lia. }
  by rewrite lookup_delete_eq.
Qed.
End ServiceFacts.


Section Witnesses.
Import PortQueue PortQueueSpec PoolRuns PoolQuiet PoolWorld PoolAfter Probe.
Import Scanner Scenario ServiceSpec.

Lemma pool_Quiet (ps : list Z) (c : Z) : Quiet (pool ps c) (λ w, w = false).
Proof.
  split.
  - by intros w ->.
  - intros r w ->. by exists false.
  - intros n t w ->. by exists false.
  - intros rs w ->. by exists false.
Qed.

Lemma inflight_bounded_witness :
  ∃ l, after (pool [21; 22; 23] 2) 0 false [closedAt 1 1] = Some l
    ∧ Z.of_nat (length (inflight l)) ≤ Z.max 0 2 ∧ (length (inflight l) ≤ 3)%nat.
Proof.
  eexists. split; [vm_compute; reflexivity|].
  apply (inflight_bounded (pool [21; 22; 23] 2) (λ _, True) [closedAt 1 1]).
  apply (after_Run_any _ 0 false). vm_compute. reflexivity.
Defined.


Lemma runScan_first_batch_witness :
  ∃ l, runScan (pool [21; 22; 23] 2) 0 false = (Pending, l, false)
    ∧ index l = 2%nat ∧ inflight l = [0; 1]%nat.
Proof.
  destruct (runScan_first_batch (pool [21; 22; 23] 2) 0 false eq_refl ltac:(done))
    as (l & E & Hi & Hf & _).
  exists l. split; [exact E|]. split; [exact Hi|]. rewrite Hf, Hi. reflexivity.
Defined.

Lemma runScan_no_ports_witness :
  ∃ l, runScan (pool [] 2) 0 false = (Fulfilled, l, false)
    ∧ invoked l = [OnComplete []].
Proof.
  destruct (runScan_no_ports (pool [] 2) 0 false eq_refl) as (l & E & Hi & _).
  exists l. split; [exact E | exact Hi].
Defined.

Lemma runScan_preaborted_witness :
  ∃ l, runScan (pool [21; 22; 23] 2) 0 true = (Fulfilled, l, true)
    ∧ invoked l = [OnComplete []; OnComplete []]
    ∧ inflight l = [].
Proof.
  destruct (runScan_preaborted (pool [21; 22; 23] 2) (λ w, w = true) 0 true)
    as (l & w' & E & Hw' & Hi & _ & Hf & _).
  - by intros w ->.
  - intros rs w ->. by exists true.
  - reflexivity.
  - done.
  - exists l. rewrite Hw' in E. split; [exact E|]. split; [exact Hi | exact Hf].
Defined.

Lemma results_delivered_in_order_witness :
  ∃ l, after (pool [21; 22; 23] 2) 0 false [closedAt 10 1; closedAt 70 0] = Some l
    ∧ results l = [mkResult 22 Closed 3 None; mkResult 21 Closed 3 None]
    ∧ delivered (invoked l) = results l
    ∧ length (results l) = scanned l.
Proof.
  eexists. split; [vm_compute; reflexivity|].
  apply (results_delivered_in_order (pool [21; 22; 23] 2) (λ w, w = false)
           (pool_Quiet _ _) [closedAt 10 1; closedAt 70 0]).
  apply (after_Run _ _ 0 false); [apply pool_Quiet | reflexivity |].
  vm_compute. reflexivity.
Defined.

Lemma progress_grows_witness :
  ∃ l, after (pool [21; 22; 23] 2) 0 false [closedAt 10 1; closedAt 70 0; closedAt 80 2]
       = Some l
    ∧ progressed (invoked l) = [(2, 3); (3, 3)]
    ∧ StronglySorted Z.lt (map fst (progressed (invoked l))).
Proof.
  eexists. split; [vm_compute; reflexivity|]. split; [reflexivity|].
  apply (progress_grows (pool [21; 22; 23] 2) (λ w, w = false) (pool_Quiet _ _)
           [closedAt 10 1; closedAt 70 0; closedAt 80 2]).
  apply (after_Run _ _ 0 false); [apply pool_Quiet | reflexivity |].
  vm_compute. reflexivity.
Defined.

Lemma window_stays_full_witness :
  ∃ l, after (pool [21; 22; 23; 24; 25] 2) 0 false [closedAt 10 1; closedAt 70 0] = Some l
    ∧ Z.of_nat (length (inflight l)) = Z.min 2 (5 - 2).
Proof.
  eexists. split; [vm_compute; reflexivity|].
  apply (window_stays_full (pool [21; 22; 23; 24; 25] 2) (λ w, w = false) (pool_Quiet _ _)
           [closedAt 10 1; closedAt 70 0]).
  - apply (after_Run _ _ 0 false); [apply pool_Quiet | reflexivity |].
    vm_compute. reflexivity.
  - vm_compute. discriminate.
Defined.

Lemma completes_when_all_settled_witness :
  ∃ l, after (pool [21; 22; 23] 2) 0 false [closedAt 10 1; closedAt 70 0] = Some l
    ∧ completed (invoked l) = []
    ∧ promiseResolved l = false.
Proof.
  eexists. split; [vm_compute; reflexivity|].
  apply (completes_when_all_settled (pool [21; 22; 23] 2) (λ w, w = false)
           (pool_Quiet _ _) [closedAt 10 1; closedAt 70 0]).
  apply (after_Run _ _ 0 false); [apply pool_Quiet | reflexivity |].
  vm_compute. reflexivity.
Defined.

Lemma scan_completes_witness :
  ∃ l, after (pool [21; 22; 23] 2) 0 false [closedAt 10 1; closedAt 70 0; closedAt 80 2]
       = Some l
    ∧ inflight l = []
    ∧ map port (results l) ≡ₚ [21; 22; 23]
    ∧ completed (invoked l) = [results l].
Proof.
  eexists. split; [vm_compute; reflexivity|]. split; [reflexivity|].
  destruct (scan_completes (pool [21; 22; 23] 2) (λ w, w = false) (pool_Quiet _ _)
              [closedAt 10 1; closedAt 70 0; closedAt 80 2]
              (mkLocals
                 [mkResult 22 Closed 3 None; mkResult 21 Closed 3 None;
                  mkResult 23 Closed 3 None]
                 3 3 80 [] true
                 [OnResult (mkResult 22 Closed 3 None);
                  OnResult (mkResult 21 Closed 3 None); OnProgress 2 3;
                  OnResult (mkResult 23 Closed 3 None); OnProgress 3 3;
                  OnComplete
                    [mkResult 22 Closed 3 None; mkResult 21 Closed 3 None;
                     mkResult 23 Closed 3 None]]))
    as (_ & _ & Hports & _ & Hcomp & _).
  - apply (after_Run _ _ 0 false); [apply pool_Quiet | reflexivity |].
    vm_compute. reflexivity.
  - vm_compute. discriminate.
  - done.
  - reflexivity.
  - split; [exact Hports | exact Hcomp].
Defined.

Lemma service_scan_completes_witness :
  let r := mkResult 80 Closed 3 None in
  let log := [OnResult r; OnProgress 1 1; OnComplete [r]] in
  let o := optionsOf onePort quiet 0 in
  let sc := mkStarted "example.com" o (mkLocals [] 0 1 0 [0%nat] false []) Pending in
  let sc' := mkStarted "example.com" o (mkLocals [r] 1 1 5 [] true log) Fulfilled in
  let w1 := mkWorld {["scan-1" := 0%nat]} ∅ 1 [] [] [] in
  let w' := mkWorld ∅ ∅ 1 [] [] log in
  startScan onePort quiet 0 emptyWorld = (Ok sc, w1)
  ∧ probesSettle [closedAt 5 0] sc w1 = Some (sc', w')
  ∧ isActive "scan-1" w' = false
  ∧ completed (invoked (st_locals sc')) = [results (st_locals sc')].
Proof.
  intros r log o sc sc' w1 w'.
  assert (startScan onePort quiet 0 emptyWorld = (Ok sc, w1)) as E1
    by (vm_compute; reflexivity).
  assert (probesSettle [closedAt 5 0] sc w1 = Some (sc', w')) as E2
    by (vm_compute; reflexivity).
  split; [exact E1|]. split; [exact E2|].
  destruct (service_scan_completes onePort quiet 0 [closedAt 5 0] emptyWorld w1 w' sc sc'
              quiet_Passive ltac:(unfold live; vm_compute; set_solver) ltac:(done) E1 E2)
    as (_ & Hact & _ & _ & _ & _ & Hcomp & _).
  split; [exact Hact | exact Hcomp].
Defined.

Lemma startScan_no_ports_witness :
  ∃ sc w', startScan (mkConfig "scan-3" "example.com" [] 150 400) quiet 0 emptyWorld
           = (Ok sc, w')
    ∧ st_promise sc = Fulfilled
    ∧ isActive "scan-3" w' = false.
Proof.
  destruct (startScan_no_ports (mkConfig "scan-3" "example.com" [] 150 400) quiet 0
              emptyWorld quiet_Passive ltac:(vm_compute; reflexivity) eq_refl)
    as (sc & w' & E & Hp & _ & _ & Ha & _).
  exists sc, w'. split; [exact E|]. split; [exact Hp | exact Ha].
Defined.

Lemma restarted_id_orphans_first_scan_witness :
  let sc1 := mkStarted "example.com" (optionsOf onePort quiet 0)
               (mkLocals [] 0 1 0 [0%nat] false []) Pending in
  let sc2 := mkStarted "example.com" (optionsOf elevenPorts quiet 1)
               (mkLocals [] 0 10 1 (seq 0 10) false []) Pending in
  let w1 := mkWorld {["scan-1" := 0%nat]} ∅ 1 [] [] [] in
  let w2 := mkWorld {["scan-1" := 1%nat]} ∅ 2 [] [] [] in
  startScan onePort quiet 0 emptyWorld = (Ok sc1, w1)
  ∧ startScan elevenPorts quiet 1 w1 = (Ok sc2, w2)
  ∧ isAborted (st_options sc2) (snd (abortScan "scan-1" w2)) = true
  ∧ isAborted (st_options sc1) (snd (abortScan "scan-1" w2)) = false.
Proof.
  intros sc1 sc2 w1 w2.
  assert (startScan onePort quiet 0 emptyWorld = (Ok sc1, w1)) as E1
    by (vm_compute; reflexivity).
  assert (startScan elevenPorts quiet 1 w1 = (Ok sc2, w2)) as E2
    by (vm_compute; reflexivity).
  split; [exact E1|]. split; [exact E2|].
  destruct (restarted_id_orphans_first_scan onePort elevenPorts quiet 0 1 emptyWorld w1 w2
              sc1 sc2
              ltac:(unfold live; vm_compute; set_solver)
              ltac:(unfold live; vm_compute; set_solver)
              ltac:(done) ltac:(done) eq_refl E1 E2)
    as (_ & H2 & H1 & _).
  split; [exact H2 | exact H1].
Defined.
End Witnesses.


Section ReportFacts.
Import AIEngine AIEngineSpec.

Lemma present_app (X Y : list OpenPort) : present (X ++ Y) = present X ++ present Y.
Proof. unfold present. apply omap_app. Qed.

Lemma sum_app (l l' : list Z) :
  foldr Z.add 0 (l ++ l') = foldr Z.add 0 l + foldr Z.add 0 l'.
Proof. induction l as [|z l IH]; cbn [foldr app]; [done|]. rewrite IH. lia. Qed.

Lemma weightedSum_app (X Y : list OpenPort) :
  weightedSum (X ++ Y) = weightedSum X + weightedSum Y.
Proof. unfold weightedSum. by rewrite present_app, map_app, sum_app. Qed.

Lemma weightedSum_cons (p : OpenPort) (X : list OpenPort) :
  weightedSum (p :: X)
  = match VULN_DB !! o_port p with Some v => weight (e_severity v) | None => 0 end
    + weightedSum X.
Proof.
  change (p :: X) with ([p] ++ X). rewrite weightedSum_app. f_equal.
  unfold weightedSum, present. cbn [omap list_omap].
  destruct (VULN_DB !! o_port p) as [v|]; cbn [fmap option_fmap option_map map foldr snd];
    lia.
Qed.

Lemma weightedSum_perm (X Y : list OpenPort) : X ≡ₚ Y → weightedSum X = weightedSum Y.
Proof.
  induction 1 as [|p X Y _ IH|p q X|X Y Z _ IH1 _ IH2].
  - done.
  - rewrite !weightedSum_cons. lia.
  - rewrite !weightedSum_cons. lia.
  - congruence.
Qed.

Lemma present_perm (X Y : list OpenPort) : X ≡ₚ Y → present X ≡ₚ present Y.
Proof. intros H. unfold present. by rewrite H. Qed.

Lemma weight_pos (s : Severity) : 5 ≤ weight s.
Proof. destruct s; simpl; lia. Qed.

Lemma present_nil (X : list OpenPort) :
  present X = [] ↔ Forall (λ p, VULN_DB !! o_port p = None) X.
Proof.
  unfold present. induction X as [|p X IH]; cbn [omap list_omap].
  - split; [constructor | done].
  - destruct (VULN_DB !! o_port p) as [v|] eqn:E; cbn [fmap option_fmap option_map].
    + split; [done|]. intros H. apply Forall_cons in H as [H _].
      rewrite E in H. discriminate H.
    + rewrite IH. split; [intros H; by constructor | by intros [_ ?]%Forall_cons].
Qed.

Lemma weightedSum_zero (X : list OpenPort) :
  (present X = [] → weightedSum X = 0)
  ∧ (present X ≠ [] → 5 ≤ weightedSum X).
Proof.
  unfold weightedSum. split.
  - by intros ->.
  - destruct (present X) as [|pv l]; [done|]. intros _. cbn.
    pose proof (weight_pos (e_severity (snd pv))).
    assert (0 ≤ foldr Z.add 0 (map (λ pv, weight (e_severity (snd pv))) l)).
    { induction l as [|a l IH]; simpl; [lia|].
      pose proof (weight_nonneg (e_severity (snd a))). lia. }
    lia.
Qed.

(** The report does not depend on the order of the open ports, which is
    the order in which the probes completed, but for the order of the list
    of vulnerabilities. *)
Theorem analyze_order_independent (X Y : list OpenPort) :
  X ≡ₚ Y →
  riskScore (analyze X) = riskScore (analyze Y)
  ∧ summary (analyze X) = summary (analyze Y)
  ∧ vulnerabilities (analyze X) ≡ₚ vulnerabilities (analyze Y).
Proof.
  intros H. rewrite !analyze_unfold. cbn [riskScore summary vulnerabilities].
  rewrite (weightedSum_perm X Y H), (Permutation_length H).
  split; [done|]. split; [done|]. by rewrite (present_perm X Y H).
Qed.

Lemma analyze_order_independent_witness :
  riskScore (analyze [mkOpen 23 None; mkOpen 6379 None])
  = riskScore (analyze [mkOpen 6379 None; mkOpen 23 None])
  ∧ riskScore (analyze [mkOpen 23 None; mkOpen 6379 None]) = 65.
Proof.
  split; [|vm_compute; reflexivity].
  apply (analyze_order_independent [mkOpen 23 None; mkOpen 6379 None]
           [mkOpen 6379 None; mkOpen 23 None]).
  apply perm_swap.
Defined.

(** More open ports never lower the score: the report of a longer list
    starts with the vulnerabilities of the shorter one and its score is at
    least as high. *)
Theorem analyze_monotone (X Y : list OpenPort) :
  riskScore (analyze X) ≤ riskScore (analyze (X ++ Y))
  ∧ vulnerabilities (analyze (X ++ Y))
    = vulnerabilities (analyze X) ++ vulnerabilities (analyze Y)
  ∧ riskScore (analyze (X ++ Y))
    = Z.min 100 (weightedSum X + weightedSum Y).
Proof.
  rewrite !analyze_unfold. cbn [riskScore vulnerabilities].
  rewrite weightedSum_app, present_app, map_app.
  pose proof (weightedSum_nonneg Y). split; [lia|]. done.
Qed.

(** The score is 0 exactly when no open port has an entry in the table,
    which is when the list of vulnerabilities is empty and the summary ends
    with the all-clear; otherwise the score is at least 5. *)
Theorem analyze_clean (X : list OpenPort) :
  (riskScore (analyze X) = 0 ↔ Forall (λ p, VULN_DB !! o_port p = None) X)
  ∧ (riskScore (analyze X) = 0 ↔ vulnerabilities (analyze X) = [])
  ∧ (riskScore (analyze X) = 0 ∨ 5 ≤ riskScore (analyze X))
  ∧ (riskScore (analyze X) = 0 →
     summary (analyze X)
     = headline 0 (length X) +:+ "No known vulnerabilities detected.").
Proof.
  rewrite analyze_unfold. cbn [riskScore vulnerabilities summary].
  rewrite <- present_nil. destruct (weightedSum_zero X) as [H0 H5].
  assert (Z.min 100 (weightedSum X) = 0 ↔ present X = []) as Hiff.
  { split.
    - intros Hz. destruct (present X) eqn:E; [done|].
      rewrite <- E in H5. specialize (H5 ltac:(by rewrite E)). lia.
    - intros Hn. rewrite (H0 Hn). done. }
  split; [done|]. split.
  { rewrite Hiff. split; [by intros -> | ]. intros Hm.
    destruct (present X); [done | discriminate]. }
  split.
  { destruct (present X) eqn:E.
    - left. apply Hiff. done.
    - right. specialize (H5 ltac:(done)). lia. }
  intros ->. reflexivity.
Qed.

(** The insight streamed for a port agrees with the final report: every
    vulnerability of the report is for a port of the input, and
    [analyzePort] gives for that port the same severity, title and
    description. *)
Theorem insight_agrees_with_report (X : list OpenPort) :
  Forall (λ v,
      (∃ p, p ∈ X ∧ o_port p = port v)
      ∧ ∀ banner,
          analyzePort (port v) banner
          = Some (mkInsight (port v) (riskOfSeverity (severity v)) (title v)
                    (description v)))
    (vulnerabilities (analyze X)).
Proof.
  rewrite analyze_unfold. cbn [vulnerabilities].
  apply Forall_forall. intros v Hv. apply list_elem_of_fmap in Hv as ([p e] & -> & Hin).
  unfold present in Hin. apply list_elem_of_omap in Hin as (q & Hq & Hsome).
  destruct (VULN_DB !! o_port q) as [e'|] eqn:E; [|discriminate].
  cbn in Hsome. injection Hsome as <- <-. cbn [fst snd withPort port severity title description].
  split; [by exists q|]. intros banner.
  unfold analyzePort, analyzePort_in. change (t_vuln tables) with VULN_DB. by rewrite E.
Qed.
End ReportFacts.


Section ProbeRunFacts.
Import Probe ProbeSpec ProbeRuns.
Variable utf8 : list Byte.byte → string.
Variables (host : string) (p : Z).

Lemma Tidy_Loose (s : State) : Tidy p (payload host p) s → Loose p (payload host p) s.
Proof.
  intros (Hd & Hu & Hr & Hs & Hw). split; [done|]. split; [|done].
  intros H. by destruct (Hu H) as (_ & ? & ?).
Qed.

Lemma done_Tidy (st : Status) (dur : option Z) (now : Z) (s : State) :
  Loose p (payload host p) s →
  (st = Open ∨ s_banner s = EmptyString) →
  Tidy p (payload host p) (done p st dur now s).
Proof.
  intros (Hd & Hu & Hr & Hs & Hw) Hst. unfold done.
  destruct (resolved s) eqn:E.
  - unfold Tidy. rewrite E. split; [done|]. split; [intros; congruence|]. done.
  - unfold Tidy. cbn [destroyed resolved s_banner listening dataListener settled written].
    split; [done|]. split; [done|]. split; [done|]. split; [|done].
    constructor; [|done]. cbn [port status banner]. split; [done|].
    destruct Hst as [->| ->]; [by left | by right].
Qed.

Lemma handle_Tidy (s : State) (e : Event) :
  Tidy p (payload host p) s → Tidy p (payload host p) (handle utf8 host p s e).
Proof.
  intros HT. pose proof HT as (Hd & Hu & Hr & Hs & Hw).
  assert (listening s = true → resolved s = false) as Hlive.
  { intros Hl. destruct (resolved s) eqn:E; [|done]. destruct (Hr eq_refl). congruence. }
  destruct e as [now|chunk now|now|now|code now]; cbn [handle].
  - destruct (listening s) eqn:El; [|done]. specialize (Hlive eq_refl).
    unfold Tidy. cbn [destroyed resolved s_banner listening dataListener settled written].
    split; [done|]. split; [done|]. split; [intros; congruence|]. split; [done|].
    destruct (payload host p) as [d|] eqn:Ep; [|done].
    apply Forall_app. split; [done|]. by constructor.
  - destruct (dataListener s) as [dur|] eqn:Ed; [|done].
    apply done_Tidy; [|by left].
    destruct (Tidy_Loose s HT) as (L1 & L2 & L3 & L4 & L5). by split.
  - destruct (bannerTimer s) as [dur|] eqn:Eb; [|done].
    apply done_Tidy; [|by left].
    destruct (Tidy_Loose s HT) as (L1 & L2 & L3 & L4 & L5). by split.
  - destruct (listening s) eqn:El; [|done]. specialize (Hlive eq_refl).
    apply done_Tidy; [by apply Tidy_Loose|]. right. by destruct (Hu Hlive).
  - destruct (listening s) eqn:El; [|done]. specialize (Hlive eq_refl).
    assert (s_banner s = EmptyString) as Hb by (by destruct (Hu Hlive)).
    destruct (isRefusedOrReset code); (apply done_Tidy; [by apply Tidy_Loose | by right]).
Qed.

Lemma run_Tidy (s : State) (es : list Event) :
  Tidy p (payload host p) s → Tidy p (payload host p) (run utf8 host p s es).
Proof.
  revert s. induction es as [|e es IH]; intros s Hs; [done|].
  cbn [run fold_left]. apply IH. by apply handle_Tidy.
Qed.

Lemma init_Tidy (start : Z) : Tidy p (payload host p) (init start).
Proof. unfold Tidy, init. cbn. repeat split; try done; constructor. Qed.

Lemma bannerField_nonempty (b b' : string) :
  bannerField b = Some b' → b' ≠ EmptyString.
Proof.
  unfold bannerField. destruct (String.eqb_spec (String.substring 0 256 b) EmptyString);
    [discriminate|]. by intros [= <-].
Qed.

(** The banner of every result is made by [bannerField]. *)
Lemma run_banners (s : State) (es : list Event) :
  Forall (λ r, ∃ b, banner r = bannerField b) (settled s) →
  Forall (λ r, ∃ b, banner r = bannerField b) (settled (run utf8 host p s es)).
Proof.
  assert (∀ st dur now s,
            Forall (λ r, ∃ b, banner r = bannerField b) (settled s) →
            Forall (λ r, ∃ b, banner r = bannerField b) (settled (done p st dur now s)))
    as Hdone.
  { intros st dur now s0 H. unfold done. destruct (resolved s0); [done|].
    cbn [settled]. constructor; [|done]. cbn [banner]. eauto. }
  revert s. induction es as [|e es IH]; intros s Hs; [done|].
  cbn [run fold_left]. apply IH.
  destruct e as [now|chunk now|now|now|code now]; cbn [handle].
  - by destruct (listening s).
  - destruct (dataListener s); [|done]. by apply Hdone.
  - destruct (bannerTimer s); [|done]. by apply Hdone.
  - destruct (listening s); [|done]. by apply Hdone.
  - destruct (listening s); [|done]. destruct (isRefusedOrReset code); by apply Hdone.
Qed.

(** Whatever the socket and the timers deliver, in whatever order: the
    result of a probe is for its port, carries a banner only when its status
    is open, and a banner has between 1 and 256 characters. *)
Theorem probe_result_shape (start : Z) (es : list Event) (r : PortResult) :
  scanPort utf8 host p start es = Some r →
  port r = p
  ∧ (status r = Open ∨ banner r = None)
  ∧ ∀ b, banner r = Some b → b ≠ EmptyString ∧ (String.length b ≤ 256)%nat.
Proof.
  unfold scanPort, outcome. intros Hr. apply last_Some_elem_of in Hr.
  destruct (run_Tidy (init start) es (init_Tidy start)) as (_ & _ & _ & Hs & _).
  rewrite Forall_forall in Hs. destruct (Hs r Hr) as [Hp Hst].
  split; [done|]. split; [done|]. intros b Hb.
  pose proof (run_banners (init start) es ltac:(constructor)) as Hbs.
  rewrite Forall_forall in Hbs. destruct (Hbs r Hr) as (b0 & Hb0).
  rewrite Hb in Hb0. symmetry in Hb0.
  split; [by apply (bannerField_nonempty b0) | by apply (bannerField_short b0)].
Qed.

(** Whatever the socket and the timers deliver, in whatever order: the
    socket is destroyed exactly when the probe has resolved, which is when
    the promise has a result; then nothing listens to the socket any more;
    and what was written to the socket is the payload of the port, which is
    nothing for the ports whose services speak first and for 443. *)
Theorem probe_cleans_up (start : Z) (es : list Event) :
  let s := run utf8 host p (init start) es in
  destroyed s = resolved s
  ∧ (resolved s = true ↔ is_Some (scanPort utf8 host p start es))
  ∧ (resolved s = true → listening s = false ∧ dataListener s = None)
  ∧ Forall (λ d, payload host p = Some d) (written s)
  ∧ (p ∈ [21; 25; 110; 143; 443] → written s = []).
Proof.
  intros s.
  destruct (run_Tidy (init start) es (init_Tidy start)) as (Hd & Hu & Hr & Hs & Hw).
  fold s in Hd, Hu, Hr, Hs, Hw.
  pose proof (run_once utf8 host p (init start) es) as Honce. fold s in Honce.
  specialize (Honce ltac:(by left)).
  split; [done|]. split.
  { unfold scanPort, outcome. fold s. destruct Honce as [[H1 H2]|[[H1 _] H2]].
    - rewrite H1, H2. split; [discriminate | by intros []].
    - rewrite H1. split; [|done]. intros _.
      destruct (settled s) as [|r l]; [discriminate|]. by destruct l. }
  split; [done|]. split; [done|].
  intros Hp. destruct (written s) as [|d l]; [done|].
  apply Forall_cons in Hw as [Hw _]. exfalso.
  unfold payload in Hw. rewrite !elem_of_cons, elem_of_nil in Hp.
  destruct Hp as [->|[->|[->|[->|[->|[]]]]]]; discriminate Hw.
Qed.
End ProbeRunFacts.

Section ProbeRunWitness.
Import Probe ProbeRuns.

Lemma probe_result_shape_witness :
  let r := mkResult 22 Open 7 (Some "SSH-2.0") in
  scanPort latin1 "example.com" 22 100
    [Connect 107; Data [Byte.x53; Byte.x53; Byte.x48; Byte.x2d; Byte.x32; Byte.x2e; Byte.x30] 120;
     Timeout 500]
  = Some r
  ∧ port r = 22 ∧ (status r = Open ∨ banner r = None).
Proof.
  intros r.
  assert (scanPort latin1 "example.com" 22 100
            [Connect 107;
             Data [Byte.x53; Byte.x53; Byte.x48; Byte.x2d; Byte.x32; Byte.x2e; Byte.x30] 120;
             Timeout 500] = Some r) as E by (vm_compute; reflexivity).
  split; [exact E|].
  destruct (probe_result_shape latin1 "example.com" 22 100 _ r E) as (H1 & H2 & _).
  split; [exact H1 | exact H2].
Defined.
End ProbeRunWitness.


Section AcceptedFacts.
Import Regex16 Target16 TargetSpec.

Lemma group_label (g : list N) : group g → labelOk g.
Proof.
  intros [Hlen Hd]. unfold labelOk.
  assert (Forall letterOrDigit g) as Hl.
  { eapply Forall_impl; [exact Hd|]. intros c Hc. cbv beta in Hc. unfold letterOrDigit. lia. }
  split; [lia|]. split.
  { eapply Forall_impl; [exact Hl|]. intros c Hc. by left. }
  split.
  - destruct g as [|c g]; [simpl in Hlen; lia|]. exists c. split; [done|].
    by apply Forall_cons in Hl as [? _].
  - destruct (last g) as [c|] eqn:E.
    + exists c. split; [done|]. rewrite Forall_forall in Hl. apply Hl.
      by apply last_Some_elem_of.
    + apply last_None in E. subst. simpl in Hlen. lia.
Qed.

Lemma IPv4_Hostname (s : list N) : IPv4Shape s → HostnameShape s.
Proof.
  intros (a & b & c & d & -> & Ha & Hb & Hc & Hd).
  exists a, [b; c; d]. split.
  - cbn [map concat app]. by rewrite app_nil_r.
  - split; [by apply group_label|].
    repeat (constructor; [by apply group_label|]). constructor.
Qed.

Lemma label_chars (l : list N) :
  labelOk l → Forall (λ c, labelChar c ∨ c = unitOf ".") l.
Proof. intros (_ & H & _). eapply Forall_impl; [exact H|]. intros c Hc. by left. Qed.

Lemma hostname_chars (s : list N) :
  HostnameShape s → Forall (λ c, labelChar c ∨ c = unitOf ".") s.
Proof.
  intros (l & ls & -> & Hl & Hls). apply Forall_app. split; [by apply label_chars|].
  induction Hls as [|x ls Hx _ IH]; cbn [map concat]; [constructor|].
  apply Forall_app. split; [|done]. constructor; [by right | by apply label_chars].
Qed.

Lemma hostChar_plain (c : N) :
  labelChar c ∨ c = unitOf "." →
  isSpace c = false ∧ c ≠ unitOf "/" ∧ c ≠ unitOf ":".
Proof.
  change (unitOf ".") with 46%N. change (unitOf "/") with 47%N.
  change (unitOf ":") with 58%N. unfold labelChar, letterOrDigit.
  change (unitOf "-") with 45%N. intros H. split; [|lia].
  destruct (isSpace c) eqn:E; [|done]. apply isSpace_spec in E.
  unfold whiteSpace in E. rewrite !elem_of_cons, elem_of_nil in E. lia.
Qed.

Lemma trimStart_plain (s : list N) :
  Forall (λ c, isSpace c = false) s → trimStart s = s.
Proof. destruct 1 as [|c s Hc _]; [done|]. cbn [trimStart]. by rewrite Hc. Qed.

Lemma trimEnd_plain (s : list N) :
  Forall (λ c, isSpace c = false) s → trimEnd s = s.
Proof.
  induction 1 as [|c s Hc _ IH]; [done|]. cbn [trimEnd]. rewrite IH, Hc.
  by destruct s.
Qed.

Lemma stripPrefixCI_colon (p s rest : list N) :
  unitOf ":" ∈ p → stripPrefixCI p s = Some rest → unitOf ":" ∈ s.
Proof.
  intros Hp H. apply stripPrefixCI_spec in H as (q & -> & <-).
  apply elem_of_app. left. apply list_elem_of_fmap in Hp as (c & Hc & Hin).
  symmetry in Hc. change (unitOf ":") with 58%N in *.
  apply (proj1 (lower_other 58 c ltac:(lia))) in Hc. by subst.
Qed.

Lemma stripScheme_plain (s : list N) : unitOf ":" ∉ s → stripScheme s = s.
Proof.
  intros Hs. unfold stripScheme.
  assert (unitOf ":" ∈ unitsOf "https://") as H1
    by (by apply (list_elem_of_lookup_2 _ 5%nat)).
  assert (unitOf ":" ∈ unitsOf "http://") as H2
    by (by apply (list_elem_of_lookup_2 _ 4%nat)).
  destruct (stripPrefixCI (unitsOf "https://") s) as [rest|] eqn:E1.
  { exfalso. apply Hs. apply (stripPrefixCI_colon _ _ _ H1 E1). }
  destruct (stripPrefixCI (unitsOf "http://") s) as [rest|] eqn:E2; [|done].
  exfalso. apply Hs. apply (stripPrefixCI_colon _ _ _ H2 E2).
Qed.

Lemma accepted_chars (t : list N) :
  validateTarget t = true → Forall (λ c, labelChar c ∨ c = unitOf ".") t.
Proof.
  intros (_ & _ & [H|H])%validateTarget_spec; apply hostname_chars; [|done].
  by apply IPv4_Hostname.
Qed.

Lemma accepted_fixed (t : list N) : validateTarget t = true → sanitizeTarget t = t.
Proof.
  intros Hv. pose proof (accepted_chars t Hv) as Hc.
  assert (Forall (λ c, isSpace c = false) t) as Hsp.
  { eapply Forall_impl; [exact Hc|]. intros c H. by destruct (hostChar_plain c H). }
  assert (unitOf "/" ∉ t) as Hsl.
  { intros Hin. rewrite Forall_forall in Hc. by destruct (hostChar_plain _ (Hc _ Hin)) as (_ & ? & _). }
  assert (unitOf ":" ∉ t) as Hco.
  { intros Hin. rewrite Forall_forall in Hc. by destruct (hostChar_plain _ (Hc _ Hin)) as (_ & _ & ?). }
  unfold sanitizeTarget, trim.
  rewrite trimStart_plain, trimEnd_plain, stripScheme_plain by done.
  rewrite (before_none (unitOf "/")) by done. by apply before_none.
Qed.

(** The first pattern of [validateTarget] decides nothing: every string
    of four groups of digits is a string of labels as well, so a target is
    accepted exactly when it is not empty, has at most 255 code units and
    matches the second pattern. *)
Theorem ipv4_pattern_is_redundant (t : list N) :
  (test ipv4 t = true → test hostname t = true)
  ∧ validateTarget t
    = negb (bool_decide (t = [])) && (length t <=? 255)%nat && test hostname t.
Proof.
  assert (test ipv4 t = true → test hostname t = true) as Himp.
  { rewrite !test_spec, ipv4_shape, hostname_shape. apply IPv4_Hostname. }
  split; [done|]. unfold validateTarget.
  case_bool_decide; [done|]. cbn [negb orb andb].
  destruct (Nat.ltb_spec 255 (length t)) as [Hlt|Hle].
  - by rewrite (proj2 (Nat.leb_gt _ _)) by lia.
  - rewrite (proj2 (Nat.leb_le _ _)) by lia. cbn [andb].
    destruct (test ipv4 t) eqn:E; [|done]. symmetry. by apply Himp.
Qed.

(** An accepted target consists of ASCII letters, digits, hyphens and
    dots, and normalization leaves it as it is: normalizing twice is
    normalizing once. *)
Theorem normalize_idempotent (input h : list N) :
  normalize input = Some h →
  normalize h = Some h
  ∧ sanitizeTarget h = h
  ∧ Forall (λ c, labelChar c ∨ c = unitOf ".") h.
Proof.
  unfold normalize. destruct (validateTarget (sanitizeTarget input)) eqn:Hv; [|discriminate].
  intros [= <-]. rewrite (accepted_fixed _ Hv), Hv.
  split; [done|]. split; [done|]. by apply accepted_chars.
Qed.

Lemma normalize_idempotent_witness :
  normalize (unitsOf " HTTP://Example.com:8080/index.html") = Some (unitsOf "Example.com")
  ∧ normalize (unitsOf "Example.com") = Some (unitsOf "Example.com").
Proof.
  assert (normalize (unitsOf " HTTP://Example.com:8080/index.html")
          = Some (unitsOf "Example.com")) as E by (vm_compute; reflexivity).
  split; [exact E|].
  apply (normalize_idempotent (unitsOf " HTTP://Example.com:8080/index.html")
           (unitsOf "Example.com") E).
Defined.
End AcceptedFacts.
